(** * TACS distributed block-CSR core: PMat, its preconditioners and the
      2x2 block kernels.

    The development embeds [PMat.c] (the parallel matrix, [PSOR],
    [AdditiveSchwarz], [ApproximateSchur], [GlobalSchurMat]) and the
    block-size-2 kernels of [BCSRMatMult2.c] as Rocq functions, and proves
    the properties of the design specification about them.

    Conventions.  Array indices and dimensions are natural numbers (the
    [int] values of the source are indices into arrays that fit in an
    [int]); the signed quantities of [applyBCs] and the numbers printed by
    [printNzPattern] are integers, the latter with the wrap-around of a
    32-bit [int].  The loops of the source are functions by recursion on
    the number of iterations left.  A read outside an array gives [0.0] and
    a write outside an array is dropped; the theorems carry the bounds
    under which the writes they speak of are inside.  Methods of classes
    whose code is not part of the sources are parameters of a section, or
    are modelled from the specification where a claim is about their
    effect; the doc comment of each such definition says so. *)

From Stdlib Require Import ZArith List Lia Bool String Ascii.
From Stdlib Require Import DecimalString.
From stdpp Require Import base list.

Set Default Proof Using "Type".

(** ** Scalars

    [TacsScalar] is a floating-point (real or complex) type in the source.
    The kernels only add, subtract, multiply and compare scalars, so the
    embedding is generic in the scalar type and its operations: no algebraic
    law is assumed unless a theorem names it, and every sum below is written
    in the order in which the code accumulates it. *)

Class ScalarOps (TacsScalar : Type) := {
  s_zero : TacsScalar;                               (* 0.0 *)
  s_one : TacsScalar;                                (* 1.0 *)
  s_mone : TacsScalar;                               (* -1.0 *)
  s_add : TacsScalar -> TacsScalar -> TacsScalar;
  s_sub : TacsScalar -> TacsScalar -> TacsScalar;
  s_mul : TacsScalar -> TacsScalar -> TacsScalar;
  s_eqb : TacsScalar -> TacsScalar -> bool           (* the C operator == *)
}.

#[export] Instance Z_ScalarOps : ScalarOps Z := {|
  s_zero := 0%Z; s_one := 1%Z; s_mone := (-1)%Z;
  s_add := Z.add; s_sub := Z.sub; s_mul := Z.mul; s_eqb := Z.eqb |}.

Infix "⊕" := s_add (at level 50, left associativity).
Infix "⊖" := s_sub (at level 50, left associativity).
Infix "⊗" := s_mul (at level 40, left associativity).

(** ** Memory

    Vectors live in buffers; a pointer is a buffer together with a scalar
    offset, so that [&y[ext_offset]] and [y] address the same buffer and
    two pointer arguments of a kernel may alias. *)

Definition ptr : Type := nat * nat.

Definition padd (p : ptr) (k : nat) : ptr := (fst p, snd p + k).

Section Memory.
Context {TacsScalar : Type} `{ScalarOps TacsScalar}.

Definition mem : Type := nat -> list TacsScalar.

(** [p[i]] as an rvalue. *)
Definition ld (m : mem) (p : ptr) (i : nat) : TacsScalar :=
  nth (snd p + i) (m (fst p)) s_zero.

(** [p[i] = v]. *)
Definition st (m : mem) (p : ptr) (i : nat) (v : TacsScalar) : mem :=
  fun b => if Nat.eqb b (fst p) then <[snd p + i := v]> (m b) else m b.

(** Replace the whole content of a buffer. *)
Definition setbuf (m : mem) (b : nat) (l : list TacsScalar) : mem :=
  fun b' => if Nat.eqb b' b then l else m b'.

(** Two memories that agree on every buffer outside [E]. *)
Definition mem_agree (E : nat -> Prop) (m1 m2 : mem) : Prop :=
  forall b, ~ E b -> m1 b = m2 b.
End Memory.

(** ** Block-CSR data ([BCSRMatData]) *)

Record BCSRMatData {TacsScalar : Type} := mkBCSR {
  nrows : nat;
  ncols : nat;
  bsize : nat;
  rowp : list nat;
  cols : list nat;
  diag : list nat;
  A : list TacsScalar
}.
Arguments BCSRMatData : clear implicits.
Arguments mkBCSR {TacsScalar}.

(** [a[i]] for an [int] array and for a scalar array. *)
Definition ix (l : list nat) (i : nat) : nat := nth i l 0.

Section Kernels.
Context {TacsScalar : Type} `{ScalarOps TacsScalar}.

Definition sx (l : list TacsScalar) (i : nat) : TacsScalar := nth i l s_zero.

(** *** [BCSRMatVecMult2]: y = A * x *)

(** The loop [for ( ; k < end; k++ )] with [n = end - k] iterations left;
    [a] is the offset of the pointer [a] into [A]. *)
Fixpoint BCSRMatVecMult2_row (data : BCSRMatData TacsScalar)
    (n k a : nat) (x y : ptr) (m : mem) : mem :=
  match n with
  | O => m
  | S n' =>
      let bj := 2 * ix (cols data) k in
      let m1 := st m y 0
        (ld m y 0 ⊕ (sx (A data) a ⊗ ld m x bj
                     ⊕ sx (A data) (a + 1) ⊗ ld m x (bj + 1))) in
      let m2 := st m1 y 1
        (ld m1 y 1 ⊕ (sx (A data) (a + 2) ⊗ ld m1 x bj
                      ⊕ sx (A data) (a + 3) ⊗ ld m1 x (bj + 1))) in
      BCSRMatVecMult2_row data n' (k + 1) (a + 4) x y m2
  end.

(** The loop over the rows, [n = nrows - i] rows left. *)
Fixpoint BCSRMatVecMult2_rows (data : BCSRMatData TacsScalar)
    (n i : nat) (x y : ptr) (m : mem) : mem :=
  match n with
  | O => m
  | S n' =>
      let m1 := st m y 0 s_zero in
      let m2 := st m1 y 1 s_zero in
      let end_ := ix (rowp data) (i + 1) in
      let k := ix (rowp data) i in
      let m3 := BCSRMatVecMult2_row data (end_ - k) k (4 * k) x y m2 in
      BCSRMatVecMult2_rows data n' (i + 1) x (padd y 2) m3
  end.

Definition BCSRMatVecMult2 (data : BCSRMatData TacsScalar)
    (x y : ptr) (m : mem) : mem :=
  BCSRMatVecMult2_rows data (nrows data) 0 x y m.

(** *** [BCSRMatVecMultAdd2]: z = A * x + y *)

Fixpoint BCSRMatVecMultAdd2_rows (data : BCSRMatData TacsScalar)
    (n i : nat) (x y z : ptr) (m : mem) : mem :=
  match n with
  | O => m
  | S n' =>
      let m1 := st m z 0 (ld m y 0) in
      let m2 := st m1 z 1 (ld m1 y 1) in
      let end_ := ix (rowp data) (i + 1) in
      let k := ix (rowp data) i in
      (* the inner loop is the one of BCSRMatVecMult2, writing to z *)
      let m3 := BCSRMatVecMult2_row data (end_ - k) k (4 * k) x z m2 in
      BCSRMatVecMultAdd2_rows data n' (i + 1) x (padd y 2) (padd z 2) m3
  end.

Definition BCSRMatVecMultAdd2 (data : BCSRMatData TacsScalar)
    (x y z : ptr) (m : mem) : mem :=
  BCSRMatVecMultAdd2_rows data (nrows data) 0 x y z m.

(** *** [BCSRMatApplyLower2]: y = L^{-1} x *)

(** [dst[0] -= a[0]*src[bj] + a[1]*src[bj+1]; dst[1] -= ...] over the
    entries [j .. j+n) of a row; [off] is subtracted from the scalar
    column offset (zero in the full solves). *)
Fixpoint lower_row (data : BCSRMatData TacsScalar)
    (n j a off : nat) (src dst : ptr) (m : mem) : mem :=
  match n with
  | O => m
  | S n' =>
      let bj := 2 * ix (cols data) j - off in
      let m1 := st m dst 0
        (ld m dst 0 ⊖ (sx (A data) a ⊗ ld m src bj
                       ⊕ sx (A data) (a + 1) ⊗ ld m src (bj + 1))) in
      let m2 := st m1 dst 1
        (ld m1 dst 1 ⊖ (sx (A data) (a + 2) ⊗ ld m1 src bj
                        ⊕ sx (A data) (a + 3) ⊗ ld m1 src (bj + 1))) in
      lower_row data n' (j + 1) (a + 4) off src dst m2
  end.

Fixpoint BCSRMatApplyLower2_rows (data : BCSRMatData TacsScalar)
    (n i : nat) (x y yy : ptr) (m : mem) : mem :=
  match n with
  | O => m
  | S n' =>
      let m1 := st m yy 0 (ld m x 0) in
      let m2 := st m1 yy 1 (ld m1 x 1) in
      let end_ := ix (diag data) i in
      let j := ix (rowp data) i in
      let m3 := lower_row data (end_ - j) j (4 * j) 0 y yy m2 in
      BCSRMatApplyLower2_rows data n' (i + 1) (padd x 2) y (padd yy 2) m3
  end.

Definition BCSRMatApplyLower2 (data : BCSRMatData TacsScalar)
    (x y : ptr) (m : mem) : mem :=
  BCSRMatApplyLower2_rows data (nrows data) 0 x y y m.

(** *** [BCSRMatApplyUpper2]: y = U^{-1} x *)

(** The accumulation of [y1], [y2] over the entries [j .. j+n) right of
    the diagonal. *)
Fixpoint upper_row (data : BCSRMatData TacsScalar)
    (n j a off : nat) (src : ptr) (m : mem) (y12 : TacsScalar * TacsScalar)
    : TacsScalar * TacsScalar :=
  match n with
  | O => y12
  | S n' =>
      let bj := 2 * ix (cols data) j - off in
      let y1 := fst y12 ⊖ (sx (A data) a ⊗ ld m src bj
                           ⊕ sx (A data) (a + 1) ⊗ ld m src (bj + 1)) in
      let y2 := snd y12 ⊖ (sx (A data) (a + 2) ⊗ ld m src bj
                           ⊕ sx (A data) (a + 3) ⊗ ld m src (bj + 1)) in
      upper_row data n' (j + 1) (a + 4) off src m (y1, y2)
  end.

(** One row of a back solve: read [rhs[0..1]], eliminate the entries right
    of the diagonal against [src], multiply by the stored (inverted)
    diagonal block and write [dst[0..1]]. *)
Definition upper_step (data : BCSRMatData TacsScalar)
    (i off : nat) (rhs src dst : ptr) (m : mem) : mem :=
  let y12 := (ld m rhs 0, ld m rhs 1) in
  let end_ := ix (rowp data) (i + 1) in
  let j := ix (diag data) i in
  let ad := 4 * j in
  let y12' := upper_row data (end_ - (j + 1)) (j + 1) (ad + 4) off src m y12 in
  let m1 := st m dst 0 (sx (A data) ad ⊗ fst y12'
                        ⊕ sx (A data) (ad + 1) ⊗ snd y12') in
  st m1 dst 1 (sx (A data) (ad + 2) ⊗ fst y12'
               ⊕ sx (A data) (ad + 3) ⊗ snd y12').

(** [for ( i = nrows-1; i >= 0; i-- )]: [n] rows left, the current row is
    [n - 1]; the pointers [yy] and [x] of the source stand at [2*(n-1)]. *)
Fixpoint BCSRMatApplyUpper2_rows (data : BCSRMatData TacsScalar)
    (n : nat) (x y : ptr) (m : mem) : mem :=
  match n with
  | O => m
  | S i =>
      let m1 := upper_step data i 0 (padd x (2 * i)) y (padd y (2 * i)) m in
      BCSRMatApplyUpper2_rows data i x y m1
  end.

Definition BCSRMatApplyUpper2 (data : BCSRMatData TacsScalar)
    (x y : ptr) (m : mem) : mem :=
  BCSRMatApplyUpper2_rows data (nrows data) x y m.

(** *** [BCSRMatApplyPartialLower2]: x = L^{-1} x on the rows from
    [var_offset] on; [x] points to the first of these rows. *)

(** [while ( cols[j] < var_offset ) j++;]  The source has no bound on this
    scan; the embedding stops it at the end of [cols]. *)
Fixpoint skip_cols (cs : list nat) (fuel j var_offset : nat) : nat :=
  match fuel with
  | O => j
  | S f => if ix cs j <? var_offset then skip_cols cs f (j + 1) var_offset
           else j
  end.

Fixpoint BCSRMatApplyPartialLower2_rows (data : BCSRMatData TacsScalar)
    (n i var_offset : nat) (x xx : ptr) (m : mem) : mem :=
  match n with
  | O => m
  | S n' =>
      let off := 2 * var_offset in
      let end_ := ix (diag data) i in
      let j0 := ix (rowp data) i in
      let j := skip_cols (cols data) (length (cols data) - j0) j0 var_offset in
      let m1 := lower_row data (end_ - j) j (4 * j) off x xx m in
      BCSRMatApplyPartialLower2_rows data n' (i + 1) var_offset x
        (padd xx 2) m1
  end.

Definition BCSRMatApplyPartialLower2 (data : BCSRMatData TacsScalar)
    (x : ptr) (var_offset : nat) (m : mem) : mem :=
  BCSRMatApplyPartialLower2_rows data (nrows data - (var_offset + 1))
    (var_offset + 1) var_offset x (padd x 2) m.

(** *** [BCSRMatApplyPartialUpper2] *)

(** [for ( i = nrows-1; i >= var_offset; i-- )]: [n] rows left, the
    current row is [var_offset + n - 1] and [xx] stands at [2*(n-1)]. *)
Fixpoint BCSRMatApplyPartialUpper2_rows (data : BCSRMatData TacsScalar)
    (n var_offset : nat) (x : ptr) (m : mem) : mem :=
  match n with
  | O => m
  | S r =>
      let xx := padd x (2 * r) in
      let m1 := upper_step data (var_offset + r) (2 * var_offset) xx x xx m in
      BCSRMatApplyPartialUpper2_rows data r var_offset x m1
  end.

Definition BCSRMatApplyPartialUpper2 (data : BCSRMatData TacsScalar)
    (x : ptr) (var_offset : nat) (m : mem) : mem :=
  BCSRMatApplyPartialUpper2_rows data (nrows data - var_offset)
    var_offset x m.

(** *** [BCSRMatApplyFactorSchur2]: the back solve of the rows
    [0 .. var_offset) against the whole vector. *)
Fixpoint BCSRMatApplyFactorSchur2_rows (data : BCSRMatData TacsScalar)
    (n : nat) (x : ptr) (m : mem) : mem :=
  match n with
  | O => m
  | S i =>
      let xx := padd x (2 * i) in
      let m1 := upper_step data i 0 xx x xx m in
      BCSRMatApplyFactorSchur2_rows data i x m1
  end.

Definition BCSRMatApplyFactorSchur2 (data : BCSRMatData TacsScalar)
    (x : ptr) (var_offset : nat) (m : mem) : mem :=
  BCSRMatApplyFactorSchur2_rows data var_offset x m.

(** *** [BCSRMatMatMultAdd2]: C += alpha * A * B on the pattern of C *)

(** How one product term is accumulated into an entry of C.  The source
    has three copies of the loop nest, for [alpha == 1.0], for
    [alpha == -1.0] and for the general case, which differ only here. *)
Definition accum (alpha : TacsScalar) : TacsScalar -> TacsScalar -> TacsScalar :=
  if s_eqb alpha s_one then fun c t => c ⊕ t
  else if s_eqb alpha s_mone then fun c t => c ⊖ t
  else fun c t => c ⊕ alpha ⊗ t.

(** [while ( ( cp < cp_end ) && ( ccols[cp] < bcols[kp] ) ){ cp++; c += 4; }]
    with [fuel = cp_end - cp]. *)
Fixpoint skip_c (ccols : list nat) (fuel cp cp_end c bcol : nat) : nat * nat :=
  match fuel with
  | O => (cp, c)
  | S f =>
      if (cp <? cp_end) && (ix ccols cp <? bcol)
      then skip_c ccols f (cp + 1) cp_end (c + 4) bcol
      else (cp, c)
  end.

(** The four updates [c[0] .. c[3]] of one block product. *)
Definition block_update (acc : TacsScalar -> TacsScalar -> TacsScalar)
    (Av Bv : list TacsScalar) (a b c : nat) (C : list TacsScalar)
    : list TacsScalar :=
  let C0 := <[c := acc (sx C c)
                (sx Av a ⊗ sx Bv b ⊕ sx Av (a + 1) ⊗ sx Bv (b + 2))]> C in
  let C1 := <[c + 1 := acc (sx C0 (c + 1))
                (sx Av a ⊗ sx Bv (b + 1) ⊕ sx Av (a + 1) ⊗ sx Bv (b + 3))]> C0 in
  let C2 := <[c + 2 := acc (sx C1 (c + 2))
                (sx Av (a + 2) ⊗ sx Bv b ⊕ sx Av (a + 3) ⊗ sx Bv (b + 2))]> C1 in
  <[c + 3 := acc (sx C2 (c + 3))
      (sx Av (a + 2) ⊗ sx Bv (b + 1) ⊕ sx Av (a + 3) ⊗ sx Bv (b + 3))]> C2.

(** [for ( ; kp < kp_end; kp++ )] with [n = kp_end - kp]. *)
Fixpoint MatMatMultAdd2_kp (acc : TacsScalar -> TacsScalar -> TacsScalar)
    (Av Bv : list TacsScalar) (bcols ccols : list nat)
    (n kp cp cp_end a b c : nat) (C : list TacsScalar) : list TacsScalar :=
  match n with
  | O => C
  | S n' =>
      let '(cp', c') := skip_c ccols (cp_end - cp) cp cp_end c (ix bcols kp) in
      if cp_end <=? cp' then C                                  (* break *)
      else
        let C' := if ix bcols kp =? ix ccols cp'
                  then block_update acc Av Bv a b c' C else C in
        MatMatMultAdd2_kp acc Av Bv bcols ccols n' (kp + 1) cp' cp_end
          a (b + 4) c' C'
  end.

(** [for ( jp = arowp[i]; jp < arowp[i+1]; jp++ )] with [n] entries left. *)
Fixpoint MatMatMultAdd2_jp (acc : TacsScalar -> TacsScalar -> TacsScalar)
    (Adata Bdata Cdata : BCSRMatData TacsScalar)
    (n jp i : nat) (C : list TacsScalar) : list TacsScalar :=
  match n with
  | O => C
  | S n' =>
      let j := ix (cols Adata) jp in
      let a := 4 * jp in
      let kp := ix (rowp Bdata) j in
      let kp_end := ix (rowp Bdata) (j + 1) in
      let b := 4 * kp in
      let cp := ix (rowp Cdata) i in
      let cp_end := ix (rowp Cdata) (i + 1) in
      let c := 4 * cp in
      let C' := MatMatMultAdd2_kp acc (A Adata) (A Bdata) (cols Bdata)
                  (cols Cdata) (kp_end - kp) kp cp cp_end a b c C in
      MatMatMultAdd2_jp acc Adata Bdata Cdata n' (jp + 1) i C'
  end.

(** [for ( i = 0; i < nrows_a; i++ )] with [n] rows left. *)
Fixpoint MatMatMultAdd2_i (acc : TacsScalar -> TacsScalar -> TacsScalar)
    (Adata Bdata Cdata : BCSRMatData TacsScalar)
    (n i : nat) (C : list TacsScalar) : list TacsScalar :=
  match n with
  | O => C
  | S n' =>
      let jp := ix (rowp Adata) i in
      let C' := MatMatMultAdd2_jp acc Adata Bdata Cdata
                  (ix (rowp Adata) (i + 1) - jp) jp i C in
      MatMatMultAdd2_i acc Adata Bdata Cdata n' (i + 1) C'
  end.

(** The values of C after the call (its pattern is not touched). *)
Definition BCSRMatMatMultAdd2 (alpha : TacsScalar)
    (Adata Bdata Cdata : BCSRMatData TacsScalar) : list TacsScalar :=
  MatMatMultAdd2_i (accum alpha) Adata Bdata Cdata (nrows Adata) 0 (A Cdata).

End Kernels.

(** A 2-row, block-size-2 example: rows {(0,0),(0,1)} and {(1,1)}. *)
Definition ex_data : BCSRMatData Z :=
  mkBCSR 2 2 2 [0; 2; 3] [0; 1; 1] [0; 2]
    [1; 2; 3; 4;   5; 6; 7; 8;   9; 10; 11; 12]%Z.

Definition ex_mem : mem (TacsScalar := Z) :=
  fun b => match b with
           | 0 => [1; 1; 2; 3]%Z
           | 1 => [100; 100; 100; 100; 100]%Z
           | _ => []
           end.


(** ** Strings written by [fprintf] *)

Definition nl : string := String (ascii_of_nat 10) EmptyString.
Definition dq : string := String (ascii_of_nat 34) EmptyString.

(** [int] is a 32-bit two's-complement integer. *)
Definition wrap_int (z : Z) : Z :=
  ((z + 2147483648) mod 4294967296 - 2147483648)%Z.

(** Successive outputs to one stream. *)
Definition cat_all (l : list string) : string :=
  fold_right String.append EmptyString l.

(** The conversion [%d]. *)
Definition fmt_d (z : Z) : string := NilZero.string_of_int (Z.to_int z).

(** ** The objects around the matrix *)

(** [TACSVarMap]: the communicator (rank and size) and the owner range. *)
Record TACSVarMap := mkVarMap {
  mpi_rank : nat;
  mpi_size : nat;
  ownerRange : list Z
}.

Definition zx (l : list Z) (i : nat) : Z := nth i l 0%Z.

(** [TACSBcMap]: what [getBCs] returns ([local] and [values] are not read
    by the matrix). *)
Record TACSBcMap := mkBcMap {
  nbcs : nat;
  bc_global : list Z;
  bc_var_ptr : list nat;
  bc_vars : list nat
}.

(** [TACSBVecDistribute]: [getIndices()] gives the global block numbers of
    the external variables, [getDim()] their number. *)
Record TACSBVecDistribute := mkDist { ext_vars : list nat }.

Definition getDim (d : TACSBVecDistribute) : nat := length (ext_vars d).

(** The dynamic kind of a [TACSVec*]: a [TACSBVec] with its array, or
    some other vector class. *)
Inductive TACSVec := TACSBVec (array : nat) | OtherVec.

Definition dynamic_cast_TACSBVec (v : TACSVec) : option nat :=
  match v with TACSBVec b => Some b | OtherVec => None end.

Section Distributed.
Context {TacsScalar : Type} `{ScalarOps TacsScalar}.

(** The process state the matrix code acts on: the vector arrays and the
    diagnostic stream. *)
Record machine := mkMachine {
  heap : mem (TacsScalar := TacsScalar);
  stderr : list string
}.

Definition eprint (s : string) (w : machine) : machine :=
  mkMachine (heap w) (stderr w ++ [s]).

Definition with_heap (w : machine) (m : mem) : machine :=
  mkMachine m (stderr w).

(** *** The halo exchange *)

(** Modelled from the spec: the Halo ([TACSBVecDistribute::beginForward]
    and [endForward]) is not part of the sources.  [begin(ctx, src, dst)]
    posts the transfer and [end(ctx, src, dst)] waits for it; after [end]
    the destination holds, for every external block [g] of [getIndices()]
    in turn, the [bsize] scalars of block [g] of the distributed vector.
    [view] is that distributed vector as the ranks expose it through the
    [src] pointers they pass: scalar [bsize*g + c] of [view] is what the
    owner of block [g] has at [src[bsize*(g - lo) + c]]. *)
Definition Halo_gather (bs : nat) (d : TACSBVecDistribute)
    (view : nat -> TacsScalar) : list TacsScalar :=
  flat_map (fun g => map (fun c => view (bs * g + c)) (seq 0 bs)) (ext_vars d).

(** Modelled from the spec: [beginForward] is not part of the sources.
    "[Halo.begin] is non-blocking — it posts sends and receives and returns
    immediately": between [begin] and [end] the destination is being
    received, it holds [inflight], any mixture of old and arrived values. *)
Definition beginForward (inflight : list TacsScalar) (dst : nat)
    (m : mem) : mem := setbuf m dst inflight.

(** Modelled from the spec: [endForward] is not part of the sources.
    "[end] waits": the destination holds the gathered values. *)
Definition endForward (bs : nat) (d : TACSBVecDistribute)
    (view : nat -> TacsScalar) (dst : nat) (m : mem) : mem :=
  setbuf m dst (Halo_gather bs d view).

(** *** [BCSRMat] methods used by the matrix *)

(** [BCSRMat::mult] and [BCSRMat::multAdd] call the kernel of the block
    size; the kernels of block size 2 are the ones embedded here. *)
Definition BCSRMat_mult := @BCSRMatVecMult2 TacsScalar _.
Definition BCSRMat_multAdd := @BCSRMatVecMultAdd2 TacsScalar _.

Definition same_pattern (d1 d2 : BCSRMatData TacsScalar) : bool :=
  (nrows d1 =? nrows d2) && (ncols d1 =? ncols d2) && (bsize d1 =? bsize d2)
  && bool_decide (rowp d1 = rowp d2) && bool_decide (cols d1 = cols d2).

Definition set_values (d : BCSRMatData TacsScalar) (v : list TacsScalar)
    : BCSRMatData TacsScalar :=
  mkBCSR (nrows d) (ncols d) (bsize d) (rowp d) (cols d) (diag d) v.

(** Modelled from the spec: [BCSRMat::copyValues] is not part of the
    sources.  "structural-identity required; copy values element-wise":
    the values of [src] replace those of [dst] when the two patterns are
    the same, and the call leaves [dst] alone otherwise.  The code below
    takes [BCSRMat::copyValues] as a parameter; this is the instance used
    in examples. *)
Definition copy_same_pattern (dst src : BCSRMatData TacsScalar)
    : BCSRMatData TacsScalar :=
  if same_pattern dst src then set_values dst (A src) else dst.

(** The contract of [BCSRMat::copyValues] on operands of one pattern. *)
Definition copies_values
    (k : BCSRMatData TacsScalar -> BCSRMatData TacsScalar
         -> BCSRMatData TacsScalar) : Prop :=
  forall dst src, same_pattern dst src = true ->
    k dst src = set_values dst (A src).

(** Modelled from the spec: [BCSRMat::zeroRow(row, n_vars, var_list,
    keep_diag)] is not part of the sources.  In every stored block of
    block row [row] the scalar rows listed in [var_list] are set to zero,
    and with [keep_diag] the diagonal entry of each listed scalar row is
    set to one in the diagonal block. *)
Definition zeroRow_var (bs j : nat) (isdiag : bool)
    (Av : list TacsScalar) (k : nat) : list TacsScalar :=
  if k <? bs then
    let Av' := fold_left (fun acc jj => <[bs * bs * j + bs * k + jj := s_zero]> acc)
                 (seq 0 bs) Av in
    if isdiag then <[bs * bs * j + (bs + 1) * k := s_one]> Av' else Av'
  else Av.

(** Modelled from the spec: the listed scalar rows of the stored block
    [j] of [BCSRMat::zeroRow]; the block is the diagonal one when its
    column is [row]. *)
Definition zeroRow_block (bs row : nat) (cs : list nat) (vars : list nat)
    (ident : bool) (Av : list TacsScalar) (j : nat) : list TacsScalar :=
  fold_left (zeroRow_var bs j (ident && (ix cs j =? row))) vars Av.

(** Modelled from the spec: [BCSRMat::zeroRow], over the stored blocks of
    the row; a row outside the matrix is ignored.  The code below takes
    [BCSRMat::zeroRow] as a parameter; this is the instance used in
    examples. *)
Definition zeroRow_listed (d : BCSRMatData TacsScalar) (row : Z)
    (vars : list nat) (ident : bool) : BCSRMatData TacsScalar :=
  if ((0 <=? row) && (row <? Z.of_nat (nrows d)))%Z then
    let r := Z.to_nat row in
    set_values d
      (fold_left (zeroRow_block (bsize d) r (cols d) vars ident)
         (seq (ix (rowp d) r) (ix (rowp d) (r + 1) - ix (rowp d) r)) (A d))
  else d.

(** *** [PMat] *)

(** Members that [init] assigns only on its successful path are optional:
    [None] is a null or unassigned member. *)
Record PMat := mkPMat {
  rmap : TACSVarMap;
  Aloc : BCSRMatData TacsScalar;
  Bext : BCSRMatData TacsScalar;
  bcs : option TACSBcMap;
  ext_dist : option TACSBVecDistribute;
  ctx : option nat;
  x_ext : option nat;
  N : nat;
  Nc : nat;
  Np : nat;
  pm_bsize : option nat;
  ext_offset : option nat
}.

(** [PMat::init].  [xe] is the array that [new TacsScalar[len]] returns.
    [N - Nc] is only used once [Nc <= N] is known. *)
Definition PMat_init (_rmap : TACSVarMap)
    (_Aloc _Bext : BCSRMatData TacsScalar)
    (_ext_dist : TACSBVecDistribute) (_bcs : option TACSBcMap)
    (xe : nat) (w : machine) : PMat * machine :=
  let n := nrows _Aloc in
  let pm0 := mkPMat _rmap _Aloc _Bext _bcs None None None n 0 0 None None in
  if negb (n =? ncols _Aloc) then
    (pm0, eprint ("PMat error: Block-diagonal matrix must be square" ++ nl) w)
  else
    let nc := nrows _Bext in
    let np := n - nc in
    let pm1 := mkPMat _rmap _Aloc _Bext _bcs None None None n nc np None None in
    if n <? nc then
      (pm1, eprint ("PMat error: Block-diagonal matrix must be square" ++ nl) w)
    else
      let pm2 := mkPMat _rmap _Aloc _Bext _bcs (Some _ext_dist) None None
                   n nc np None None in
      if negb (ncols _Bext =? getDim _ext_dist) then
        (pm2, eprint ("PMat error: Dimensions of external variables and "
                      ++ "external block matrix do not match" ++ nl) w)
      else
        let bs := bsize _Aloc in
        let pm3 := mkPMat _rmap _Aloc _Bext _bcs (Some _ext_dist) None None
                     n nc np (Some bs) None in
        if negb (bsize _Bext =? bs) then
          (pm3, eprint ("Block sizes do not match" ++ nl) w)
        else
          let len := bs * getDim _ext_dist in
          (mkPMat _rmap _Aloc _Bext _bcs (Some _ext_dist) (Some bs) (Some xe)
             n nc np (Some bs) (Some (bs * np)),
           with_heap w (setbuf (heap w) xe (repeat s_zero len))).

(** The dynamic kind of a [TACSMat*]. *)
Inductive TACSMat := IsPMat (p : PMat) | OtherMat.

Definition dynamic_cast_PMat (mat : TACSMat) : option PMat :=
  match mat with IsPMat p => Some p | OtherMat => None end.

Definition set_AB (pm : PMat) (a b : BCSRMatData TacsScalar) : PMat :=
  mkPMat (rmap pm) a b (bcs pm) (ext_dist pm) (ctx pm) (x_ext pm)
    (N pm) (Nc pm) (Np pm) (pm_bsize pm) (ext_offset pm).

(** [PMat::copyValues] *)
Definition copyValues_msg : string :=
  "Cannot copy matrices of different types" ++ nl.

Section CopyValues.
(** [BCSRMat::copyValues] is not part of the sources: a parameter. *)
Variable BCSRMat_copyValues :
  BCSRMatData TacsScalar -> BCSRMatData TacsScalar -> BCSRMatData TacsScalar.

Definition PMat_copyValues (pm : PMat) (mat : TACSMat) (w : machine)
    : PMat * machine :=
  match dynamic_cast_PMat mat with
  | Some pmat =>
      (set_AB pm (BCSRMat_copyValues (Aloc pm) (Aloc pmat))
                 (BCSRMat_copyValues (Bext pm) (Bext pmat)), w)
  | None => (pm, eprint copyValues_msg w)
  end.
End CopyValues.

(** Two distributed matrices of the same sparsity. *)
Definition same_sparsity (pm other : PMat) : bool :=
  same_pattern (Aloc pm) (Aloc other) && same_pattern (Bext pm) (Bext other).

(** [PMat::mult].  The result is [None] when a null member is
    dereferenced. *)
Definition mult_msg : string :=
  "PMat type error: Input/output must be TACSBVec" ++ nl.

(** The state after [Aloc->mult(x, y)], the halo being in flight. *)
Definition PMat_mult_interior (pm : PMat) (x y xe : nat)
    (inflight : list TacsScalar) (m : mem) : mem :=
  let m1 := beginForward inflight xe m in
  BCSRMat_mult (Aloc pm) (x, 0) (y, 0) m1.

Definition PMat_mult (pm : PMat) (txvec tyvec : TACSVec)
    (view : nat -> TacsScalar) (inflight : list TacsScalar)
    (w : machine) : option machine :=
  match dynamic_cast_TACSBVec txvec, dynamic_cast_TACSBVec tyvec with
  | Some x, Some y =>
      match ext_dist pm, ctx pm, x_ext pm, ext_offset pm with
      | Some d, Some bs, Some xe, Some off =>
          let m2 := PMat_mult_interior pm x y xe inflight (heap w) in
          let m3 := endForward bs d view xe m2 in
          let m4 := BCSRMat_multAdd (Bext pm) (xe, 0) (y, off) (y, off) m3 in
          Some (with_heap w m4)
      | _, _, _, _ => None
      end
  | _, _ => Some (eprint mult_msg w)
  end.

(** The array [&vars[start]] of length [nvars] of boundary condition [i],
    with [start = var_ptr[i]] and [nvars = var_ptr[i+1] - start]. *)
Definition bc_var_list (bc : TACSBcMap) (i : nat) : list nat :=
  let start := ix (bc_var_ptr bc) i in
  let nvars := ix (bc_var_ptr bc) (i + 1) - start in
  firstn nvars (skipn start (bc_vars bc)).

Section ApplyBCs.
(** [BCSRMat::zeroRow(row, nvars, vars, ident)] is not part of the
    sources: a parameter. *)
Variable BCSRMat_zeroRow :
  BCSRMatData TacsScalar -> Z -> list nat -> bool -> BCSRMatData TacsScalar.

(** [PMat::applyBCs]: the body of the loop for boundary condition [i]. *)
Definition applyBCs_step (pm : PMat) (bc : TACSBcMap) (i : nat) : PMat :=
  let lo := zx (ownerRange (rmap pm)) (mpi_rank (rmap pm)) in
  let hi := zx (ownerRange (rmap pm)) (mpi_rank (rmap pm) + 1) in
  let g := zx (bc_global bc) i in
  if ((lo <=? g) && (g <? hi))%Z then
    let bvar := (g - lo)%Z in
    let vs := bc_var_list bc i in
    let a' := BCSRMat_zeroRow (Aloc pm) bvar vs true in
    let bvar' := (bvar - (Z.of_nat (N pm) - Z.of_nat (Nc pm)))%Z in
    if (0 <=? bvar')%Z then
      set_AB pm a' (BCSRMat_zeroRow (Bext pm) bvar' vs false)
    else set_AB pm a' (Bext pm)
  else pm.

Definition PMat_applyBCs (pm : PMat) : PMat :=
  match bcs pm with
  | Some bc => fold_left (fun p i => applyBCs_step p bc i) (seq 0 (nbcs bc)) pm
  | None => pm
  end.
End ApplyBCs.

(** [PMat::printNzPattern]: the content of the file; [None] when [fopen]
    fails, or when [ext_dist] is null.  [col_vars] are the indices of the
    external column map. *)
Definition data_line (i j : Z) : string :=
  fmt_d i ++ " " ++ fmt_d j ++ nl.

Definition row_lines (rp : list nat) (f : nat -> nat -> string)
    (i : nat) : string :=
  cat_all (map (fun j => f i j) (seq (ix rp i) (ix rp (i + 1) - ix rp i))).

Definition diag_header (rank : nat) : string :=
  "VARIABLES = " ++ dq ++ "i" ++ dq ++ ", " ++ dq ++ "j" ++ dq ++ " " ++ nl
  ++ "ZONE T = " ++ dq ++ "Diagonal block " ++ fmt_d (Z.of_nat rank) ++ dq ++ nl.

Definition offdiag_header (rank : nat) : string :=
  "ZONE T = " ++ dq ++ "Off-diagonal block " ++ fmt_d (Z.of_nat rank) ++ dq ++ nl.

Definition PMat_printNzPattern (pm : PMat) (fopen_ok : bool) : option string :=
  let rank := mpi_rank (rmap pm) in
  let lo := zx (ownerRange (rmap pm)) rank in
  let Na := nrows (Aloc pm) in
  let Nb := nrows (Bext pm) in
  match ext_dist pm with
  | None => None
  | Some d =>
    if fopen_ok then
      let diag_zone :=
        cat_all (map (row_lines (rowp (Aloc pm))
               (fun i j => data_line (wrap_int (Z.of_nat i + lo))
                             (wrap_int (Z.of_nat (ix (cols (Aloc pm)) j) + lo))))
             (seq 0 Na)) in
      let off_zone :=
        if 0 <? ix (rowp (Bext pm)) Nb then
          (offdiag_header rank ++
          cat_all (map (row_lines (rowp (Bext pm))
                 (fun i j => data_line
                    (wrap_int (wrap_int (wrap_int (Z.of_nat i + Z.of_nat (N pm))
                                         - Z.of_nat (Nc pm)) + lo))
                    (Z.of_nat (ix (ext_vars d) (ix (cols (Bext pm)) j)))))
               (seq 0 Nb)))%string
        else EmptyString in
      Some (diag_header rank ++ diag_zone ++ off_zone)%string
    else None
  end.

End Distributed.

(** ** Faults

    Reading a member that no statement has assigned yet, or calling a
    method through a null pointer, has no defined result: the embedding
    stops there with a fault. *)
Inductive fault :=
| UninitializedRead (member : string)
| NullDereference (member : string).

Inductive outcome (X : Type) :=
| Done (x : X)
| Fault (f : fault).
Arguments Done {X}.
Arguments Fault {X}.

Definition obind {X Y : Type} (o : outcome X) (k : X -> outcome Y) : outcome Y :=
  match o with
  | Done x => k x
  | Fault f => Fault f
  end.

#[export] Instance outcome_bind : MBind outcome :=
  fun X Y k o => obind o k.

(** The value of a member: [None] is a member not assigned so far. *)
Definition member {X : Type} (name : string) (v : option X) : outcome X :=
  match v with
  | Some x => Done x
  | None => Fault (UninitializedRead name)
  end.

(** [p->...]: [None] is the null pointer. *)
Definition deref {X : Type} (name : string) (v : option X) : outcome X :=
  match v with
  | Some x => Done x
  | None => Fault (NullDereference name)
  end.

(** ** The preconditioners *)
Section Preconditioners.
Context {TacsScalar : Type} `{ScalarOps TacsScalar}.
Local Abbreviation machine := (@machine TacsScalar).
Local Abbreviation PMat := (@PMat TacsScalar).
Local Abbreviation mem := (@mem TacsScalar).

(** The C type [double] of the fill and tolerance arguments, and the
    parts of [BCSRMat] and of the Krylov solver that are not in the
    sources: the symbolic ILU of the constructor
    [BCSRMat(comm, mat, levFill, fill)], [copyValues], [addDiag],
    [factor], the relaxation sweeps (on the arrays of [x] and [y], giving
    the new [y]) and [GMRES::solve]. *)
Context {double : Type}.
Variable BCSRMat_ILU :
  BCSRMatData TacsScalar -> Z -> double -> BCSRMatData TacsScalar.
Variable BCSRMat_copyValues :
  BCSRMatData TacsScalar -> BCSRMatData TacsScalar -> BCSRMatData TacsScalar.
Variable BCSRMat_addDiag :
  BCSRMatData TacsScalar -> TacsScalar -> BCSRMatData TacsScalar.
Variable BCSRMat_factor : BCSRMatData TacsScalar -> BCSRMatData TacsScalar.
Variable BCSRMat_factorDiag : BCSRMatData TacsScalar -> BCSRMatData TacsScalar.
Variable BCSRMat_applySOR BCSRMat_applySSOR :
  BCSRMatData TacsScalar -> list TacsScalar -> list TacsScalar ->
  TacsScalar -> Z -> list TacsScalar.

(** *** [TACSBVec] and [BCSRMat] methods *)

(** Modelled from the spec: the methods of [TACSBVec] are not part of the
    sources.  [zeroEntries] is "set y := 0"; [axpy(1.0, x)] is
    "w := w + v" and [axpby(1.0, -1.0, x)] is "b := x − b", instances of
    the vector updates [y <- y + alpha*x] and [y <- alpha*x + beta*y]. *)
Definition TACSBVec_zeroEntries (y : nat) (m : mem) : mem :=
  setbuf m y (repeat s_zero (length (m y))).

(** Modelled from the spec: [TACSBVec::axpy], [y <- y + alpha*x]. *)
Definition TACSBVec_axpy (alpha : TacsScalar) (x y : nat) (m : mem) : mem :=
  setbuf m y (zip_with (fun yi xi => yi ⊕ alpha ⊗ xi) (m y) (m x)).

(** Modelled from the spec: [TACSBVec::axpby], [y <- alpha*x + beta*y]. *)
Definition TACSBVec_axpby (alpha beta : TacsScalar) (x y : nat) (m : mem)
    : mem :=
  setbuf m y (zip_with (fun yi xi => alpha ⊗ xi ⊕ beta ⊗ yi) (m y) (m x)).

(** The solves of [BCSRMat] call the kernels of the block size; the
    kernels of block size 2 are the ones embedded here. *)
Definition BCSRMat_applyLower := @BCSRMatApplyLower2 TacsScalar _.
Definition BCSRMat_applyUpper := @BCSRMatApplyUpper2 TacsScalar _.
Definition BCSRMat_applyPartialLower := @BCSRMatApplyPartialLower2 TacsScalar _.
Definition BCSRMat_applyPartialUpper := @BCSRMatApplyPartialUpper2 TacsScalar _.
Definition BCSRMat_applyFactorSchur := @BCSRMatApplyFactorSchur2 TacsScalar _.

(** Modelled from the spec: [BCSRMat::applyFactor] is not part of the
    sources.  "[applyFactor(x, y)] does U⁻¹L⁻¹": the lower solve from [x]
    into [y], then the upper solve of [y] in place. *)
Definition BCSRMat_applyFactor (data : BCSRMatData TacsScalar)
    (x y : ptr) (m : mem) : mem :=
  BCSRMat_applyUpper data y y (BCSRMat_applyLower data x y m).

(** [memcpy(dst, src, n*sizeof(TacsScalar))] of two arrays that do not
    overlap. *)
Definition memcpy (dst src : ptr) (n : nat) (m : mem) : mem :=
  fold_left (fun acc i => st acc dst i (ld m src i)) (seq 0 n) m.

(** [PMat::createVec]: a new [TACSBVec] on the row map; [vb] is its
    array. *)
Definition PMat_createVec (mat : PMat) (vb : nat) : TACSVec := TACSBVec vb.

(** *** [PSOR] *)

(** The members of the object; [None] is a member that no statement of
    the constructor has assigned yet, and for the two pointers that may
    be null the inner [None] is the null pointer. *)
Record PSOR := mkPSOR {
  sor_Aloc : option (BCSRMatData TacsScalar);
  sor_Bext : option (BCSRMatData TacsScalar);
  sor_bvec : option (option nat);
  sor_ext_offset : option nat;
  sor_yext : option nat;
  sor_ext_dist : option (option TACSBVecDistribute);
  sor_ctx : option nat;
  sor_zero_guess : option Z;
  sor_omega : option TacsScalar;
  sor_iters : option Z;
  sor_isSymmetric : option Z
}.

(** The object as the constructor finds it. *)
Definition PSOR_raw : PSOR :=
  mkPSOR None None None None None None None None None None None.

Definition set_sor_matrices (p : PSOR) (a b : BCSRMatData TacsScalar) : PSOR :=
  mkPSOR (Some a) (Some b) (sor_bvec p) (sor_ext_offset p) (sor_yext p)
    (sor_ext_dist p) (sor_ctx p) (sor_zero_guess p) (sor_omega p)
    (sor_iters p) (sor_isSymmetric p).

Definition set_sor_bvec (p : PSOR) (v : option nat) : PSOR :=
  mkPSOR (sor_Aloc p) (sor_Bext p) (Some v) (sor_ext_offset p) (sor_yext p)
    (sor_ext_dist p) (sor_ctx p) (sor_zero_guess p) (sor_omega p)
    (sor_iters p) (sor_isSymmetric p).

Definition set_sor_ext_offset (p : PSOR) (v : nat) : PSOR :=
  mkPSOR (sor_Aloc p) (sor_Bext p) (sor_bvec p) (Some v) (sor_yext p)
    (sor_ext_dist p) (sor_ctx p) (sor_zero_guess p) (sor_omega p)
    (sor_iters p) (sor_isSymmetric p).

Definition set_sor_yext (p : PSOR) (v : nat) : PSOR :=
  mkPSOR (sor_Aloc p) (sor_Bext p) (sor_bvec p) (sor_ext_offset p) (Some v)
    (sor_ext_dist p) (sor_ctx p) (sor_zero_guess p) (sor_omega p)
    (sor_iters p) (sor_isSymmetric p).

Definition set_sor_ext_dist (p : PSOR) (v : option TACSBVecDistribute) : PSOR :=
  mkPSOR (sor_Aloc p) (sor_Bext p) (sor_bvec p) (sor_ext_offset p) (sor_yext p)
    (Some v) (sor_ctx p) (sor_zero_guess p) (sor_omega p)
    (sor_iters p) (sor_isSymmetric p).

Definition set_sor_ctx (p : PSOR) (v : nat) : PSOR :=
  mkPSOR (sor_Aloc p) (sor_Bext p) (sor_bvec p) (sor_ext_offset p) (sor_yext p)
    (sor_ext_dist p) (Some v) (sor_zero_guess p) (sor_omega p)
    (sor_iters p) (sor_isSymmetric p).

Definition set_sor_options (p : PSOR) (zg : Z) (om : TacsScalar) (it sym : Z)
    : PSOR :=
  mkPSOR (sor_Aloc p) (sor_Bext p) (sor_bvec p) (sor_ext_offset p) (sor_yext p)
    (sor_ext_dist p) (sor_ctx p) (Some zg) (Some om) (Some it) (Some sym).

Definition PSOR_msg : string :=
  "PSOR type error: Input/output must be TACSBVec" ++ nl.

(** [PSOR::PSOR], statement by statement.  [vb] is the array of the
    vector that [createVec] returns and [ye] the array that
    [new TacsScalar[ysize]] returns. *)
Definition PSOR_ctor (mat : PMat) (_zero_guess : Z) (_omega : TacsScalar)
    (_iters _isSymmetric : Z) (vb ye : nat) (w : machine)
    : outcome (PSOR * machine) :=
  let this := PSOR_raw in
  (* mat->getBCSRMat(&Aloc, &Bext); *)
  let this := set_sor_matrices this (Aloc mat) (Bext mat) in
  (* TACSVec *tbvec = mat->createVec();
     bvec = dynamic_cast<TACSBVec*>(tbvec); *)
  let tbvec := PMat_createVec mat vb in
  let bvec := dynamic_cast_TACSBVec tbvec in
  let this := set_sor_bvec this bvec in
  let w := match bvec with Some _ => w | None => eprint PSOR_msg w end in
  (* mat->getRowMap(&bsize, &N, &Nc); *)
  bs ← member "PMat::bsize" (pm_bsize mat);
  let n := N mat in
  let nc := Nc mat in
  (* ext_offset = bsize*(N-Nc); *)
  let this := set_sor_ext_offset this (bs * (n - nc)) in
  (* int ysize = bsize*ext_dist->getDim(); *)
  ed ← member "ext_dist" (sor_ext_dist this);
  d ← deref "ext_dist" ed;
  let ysize := bs * getDim d in
  (* yext = new TacsScalar[ ysize ]; *)
  let this := set_sor_yext this ye in
  (* mat->getExtColMap(&ext_dist); ext_dist->incref(); *)
  let this := set_sor_ext_dist this (ext_dist mat) in
  ed' ← member "ext_dist" (sor_ext_dist this);
  _ ← deref "ext_dist" ed';
  (* ctx = ext_dist->createCtx(bsize); *)
  let this := set_sor_ctx this bs in
  (* the relaxation options *)
  let this := set_sor_options this _zero_guess _omega _iters _isSymmetric in
  Done (this, w).

(** [PSOR::factor]: [Aloc->factorDiag()]. *)
Definition PSOR_factor (this : PSOR) : outcome PSOR :=
  aloc ← member "Aloc" (sor_Aloc this);
  Done (mkPSOR (Some (BCSRMat_factorDiag aloc)) (sor_Bext this) (sor_bvec this)
          (sor_ext_offset this) (sor_yext this) (sor_ext_dist this)
          (sor_ctx this) (sor_zero_guess this) (sor_omega this)
          (sor_iters this) (sor_isSymmetric this)).

(** [PSOR::applyFactor] *)
Definition PSOR_applyFactor (this : PSOR) (txvec tyvec : TACSVec)
    (view : nat -> TacsScalar) (inflight : list TacsScalar) (w : machine)
    : outcome machine :=
  match dynamic_cast_TACSBVec txvec, dynamic_cast_TACSBVec tyvec with
  | Some x, Some y =>
      bv ← member "bvec" (sor_bvec this);
      b ← deref "bvec" bv;
      zero_guess ← member "zero_guess" (sor_zero_guess this);
      isSymmetric ← member "isSymmetric" (sor_isSymmetric this);
      aloc ← member "Aloc" (sor_Aloc this);
      omega ← member "omega" (sor_omega this);
      iters ← member "iters" (sor_iters this);
      if negb (zero_guess =? 0)%Z then
        let m1 := TACSBVec_zeroEntries y (heap w) in
        if negb (isSymmetric =? 0)%Z then
          Done (with_heap w
                  (setbuf m1 y (BCSRMat_applySSOR aloc (m1 x) (m1 y) omega iters)))
        else
          Done (with_heap w
                  (setbuf m1 y (BCSRMat_applySOR aloc (m1 x) (m1 y) omega iters)))
      else
        ed ← member "ext_dist" (sor_ext_dist this);
        d ← deref "ext_dist" ed;
        cx ← member "ctx" (sor_ctx this);
        yext ← member "yext" (sor_yext this);
        bext ← member "Bext" (sor_Bext this);
        off ← member "ext_offset" (sor_ext_offset this);
        let m1 := beginForward inflight yext (heap w) in
        let m2 := TACSBVec_zeroEntries b m1 in
        let m3 := endForward cx d view yext m2 in
        let m4 := BCSRMat_mult bext (yext, 0) (b, off) m3 in
        let m5 := TACSBVec_axpby s_one s_mone x b m4 in
        if negb (isSymmetric =? 0)%Z then
          Done (with_heap w
                  (setbuf m5 y (BCSRMat_applySSOR aloc (m5 b) (m5 y) omega iters)))
        else
          Done (with_heap w
                  (setbuf m5 y (BCSRMat_applySOR aloc (m5 b) (m5 y) omega iters)))
  | _, _ => Done (eprint PSOR_msg w)
  end.

(** *** [AdditiveSchwarz] *)

Record AdditiveSchwarz := mkAS {
  as_Aloc : BCSRMatData TacsScalar;
  as_Apc : BCSRMatData TacsScalar;
  as_alpha : TacsScalar
}.

Definition AdditiveSchwarz_ctor (mat : PMat) (levFill : Z) (fill : double)
    : AdditiveSchwarz :=
  mkAS (Aloc mat) (BCSRMat_ILU (Aloc mat) levFill fill) s_zero.

Definition AdditiveSchwarz_setDiagShift (this : AdditiveSchwarz)
    (_alpha : TacsScalar) : AdditiveSchwarz :=
  mkAS (as_Aloc this) (as_Apc this) _alpha.

(** The three statements shared by the two [factor] methods. *)
Definition factor_Apc (apc aloc : BCSRMatData TacsScalar)
    (alpha : TacsScalar) : BCSRMatData TacsScalar :=
  let apc1 := BCSRMat_copyValues apc aloc in
  let apc2 := if negb (s_eqb alpha s_zero)
              then BCSRMat_addDiag apc1 alpha else apc1 in
  BCSRMat_factor apc2.

Definition AdditiveSchwarz_factor (this : AdditiveSchwarz) : AdditiveSchwarz :=
  mkAS (as_Aloc this) (factor_Apc (as_Apc this) (as_Aloc this) (as_alpha this))
    (as_alpha this).

Definition AdditiveSchwarz_msg : string :=
  "AdditiveSchwarz type error: Input/output must be TACSBVec" ++ nl.

Definition AdditiveSchwarz_applyFactor (this : AdditiveSchwarz)
    (txvec tyvec : TACSVec) (w : machine) : machine :=
  match dynamic_cast_TACSBVec txvec, dynamic_cast_TACSBVec tyvec with
  | Some x, Some y =>
      with_heap w (BCSRMat_applyFactor (as_Apc this) (x, 0) (y, 0) (heap w))
  | _, _ => eprint AdditiveSchwarz_msg w
  end.

(** *** [GlobalSchurMat] *)

(** [Apc] is the factor of the owning [ApproximateSchur], shared through
    a pointer: the methods take its current value as an argument. *)
Record GlobalSchurMat := mkGS {
  gs_Bext : BCSRMatData TacsScalar;
  gs_varoffset : nat;
  gs_nvars : nat;
  gs_ext_dist : TACSBVecDistribute;
  gs_ctx : nat;
  gs_x_ext : nat
}.

(** [xs] is the array that [new TacsScalar[xsize]] returns. *)
Definition GlobalSchurMat_ctor (mat : PMat) (xs : nat)
    : outcome GlobalSchurMat :=
  bs ← member "PMat::bsize" (pm_bsize mat);
  d ← deref "ext_dist" (ext_dist mat);
  Done (mkGS (Bext mat) (N mat - Nc mat) (bs * Nc mat) d bs xs).

Definition GlobalSchurMat_msg : string :=
  "GlobalSchurMat type error: Input/output must be TACSBVec" ++ nl.

(** The pointer [&x[varoffset]] that [mult] hands to the halo as the
    source of the values of this rank. *)
Definition GlobalSchurMat_src (this : GlobalSchurMat) (x : nat) : ptr :=
  padd (x, 0) (gs_varoffset this).

(** [GlobalSchurMat::mult]; [view] is the distributed vector as the ranks
    expose it through their [GlobalSchurMat_src]. *)
Definition GlobalSchurMat_mult (this : GlobalSchurMat)
    (Apc : BCSRMatData TacsScalar) (txvec tyvec : TACSVec)
    (view : nat -> TacsScalar) (inflight : list TacsScalar) (w : machine)
    : machine :=
  match dynamic_cast_TACSBVec txvec, dynamic_cast_TACSBVec tyvec with
  | Some x, Some y =>
      let xe := gs_x_ext this in
      let m1 := beginForward inflight xe (heap w) in
      let m2 := endForward (gs_ctx this) (gs_ext_dist this) view xe m1 in
      let m3 := BCSRMat_mult (gs_Bext this) (xe, 0) (y, 0) m2 in
      let m4 := BCSRMat_applyPartialLower Apc (y, 0) (gs_varoffset this) m3 in
      let m5 := BCSRMat_applyPartialUpper Apc (y, 0) (gs_varoffset this) m4 in
      with_heap w (TACSBVec_axpy s_one x y m5)
  | _, _ => eprint GlobalSchurMat_msg w
  end.

(** *** [ApproximateSchur] *)

Record GMRES := mkGMRES {
  ksm_mat : GlobalSchurMat;
  ksm_iters : Z;
  ksm_nrestart : Z;
  ksm_rtol : double;
  ksm_atol : double
}.

(** [GMRES::solve(b, x)] on the Schur operator, with the current factor. *)
Variable GMRES_solve :
  GMRES -> BCSRMatData TacsScalar -> nat -> nat -> mem -> mem.

(** The Schur members are assigned only on more than one rank; [None]
    is the null pointer for [gsmat], [rvec], [wvec], [inner_ksm] and an
    unassigned member for the three integers. *)
Record ApproximateSchur := mkASchur {
  sc_mat : PMat;
  sc_Aloc : BCSRMatData TacsScalar;
  sc_Apc : BCSRMatData TacsScalar;
  sc_alpha : TacsScalar;
  sc_gsmat : option GlobalSchurMat;
  sc_rvec : option nat;
  sc_wvec : option nat;
  sc_inner_ksm : option GMRES;
  sc_var_offset : option nat;
  sc_start : option nat;
  sc_end : option nat
}.

(** [xs], [rv], [wv] are the arrays of the halo buffer and of the two
    interface vectors, should they be allocated; [gsmat->createVec()]
    returns a [TACSBVec], so that the two casts succeed. *)
Definition ApproximateSchur_ctor (_mat : PMat) (levFill : Z) (fill : double)
    (inner_gmres_iters : Z) (inner_rtol inner_atol : double)
    (xs rv wv : nat) : outcome ApproximateSchur :=
  let size := mpi_size (rmap _mat) in
  let apc := BCSRMat_ILU (Aloc _mat) levFill fill in
  let this := mkASchur _mat (Aloc _mat) apc s_zero None None None None
                None None None in
  if 1 <? size then
    gs ← GlobalSchurMat_ctor _mat xs;
    let nrestart := 0%Z in
    let ksm := mkGMRES gs inner_gmres_iters nrestart inner_rtol inner_atol in
    b ← member "PMat::bsize" (pm_bsize _mat);
    let n := N _mat in
    let nc := Nc _mat in
    Done (mkASchur _mat (Aloc _mat) apc s_zero (Some gs) (Some rv) (Some wv)
            (Some ksm) (Some (n - nc)) (Some (b * (n - nc))) (Some (b * n)))
  else Done this.

Definition ApproximateSchur_setDiagShift (this : ApproximateSchur)
    (_alpha : TacsScalar) : ApproximateSchur :=
  mkASchur (sc_mat this) (sc_Aloc this) (sc_Apc this) _alpha (sc_gsmat this)
    (sc_rvec this) (sc_wvec this) (sc_inner_ksm this) (sc_var_offset this)
    (sc_start this) (sc_end this).

Definition ApproximateSchur_factor (this : ApproximateSchur)
    : ApproximateSchur :=
  mkASchur (sc_mat this) (sc_Aloc this)
    (factor_Apc (sc_Apc this) (sc_Aloc this) (sc_alpha this))
    (sc_alpha this) (sc_gsmat this)
    (sc_rvec this) (sc_wvec this) (sc_inner_ksm this) (sc_var_offset this)
    (sc_start this) (sc_end this).

Definition ApproximateSchur_msg : string :=
  "ApproximateSchur type error: Input/output must be TACSBVec" ++ nl.

Definition ApproximateSchur_applyFactor (this : ApproximateSchur)
    (txvec tyvec : TACSVec) (w : machine) : outcome machine :=
  match dynamic_cast_TACSBVec txvec, dynamic_cast_TACSBVec tyvec with
  | Some x, Some y =>
      match sc_inner_ksm this with
      | Some ksm =>
          start ← member "start" (sc_start this);
          end_ ← member "end" (sc_end this);
          var_offset ← member "var_offset" (sc_var_offset this);
          r ← deref "rvec" (sc_rvec this);
          wv ← deref "wvec" (sc_wvec this);
          let m1 := BCSRMat_applyLower (sc_Apc this) (x, 0) (y, 0) (heap w) in
          let m2 := BCSRMat_applyPartialUpper (sc_Apc this) (y, start)
                      var_offset m1 in
          let m3 := memcpy (r, 0) (y, start) (end_ - start) m2 in
          let m4 := GMRES_solve ksm (sc_Apc this) r wv m3 in
          let m5 := memcpy (y, start) (wv, 0) (end_ - start) m4 in
          Done (with_heap w
                  (BCSRMat_applyFactorSchur (sc_Apc this) (y, 0) var_offset m5))
      | None =>
          Done (with_heap w
                  (BCSRMat_applyFactor (sc_Apc this) (x, 0) (y, 0) (heap w)))
      end
  | _, _ => Done (eprint ApproximateSchur_msg w)
  end.

End Preconditioners.

(** ** The serial evaluation of a block row

    Row [i] of [A * x], accumulated entry by entry in storage order onto
    [init]; [xv j] is the scalar [x[j]]. *)
Section RowSum.
Context {TacsScalar : Type} `{ScalarOps TacsScalar}.

Definition row_term (data : BCSRMatData TacsScalar) (xv : nat -> TacsScalar)
    (acc : TacsScalar * TacsScalar) (k : nat) : TacsScalar * TacsScalar :=
  let bj := 2 * ix (cols data) k in
  (fst acc ⊕ (sx (A data) (4 * k) ⊗ xv bj
              ⊕ sx (A data) (4 * k + 1) ⊗ xv (bj + 1)),
   snd acc ⊕ (sx (A data) (4 * k + 2) ⊗ xv bj
              ⊕ sx (A data) (4 * k + 3) ⊗ xv (bj + 1))).

Definition row_sum (data : BCSRMatData TacsScalar) (xv : nat -> TacsScalar)
    (i : nat) (init : TacsScalar * TacsScalar) : TacsScalar * TacsScalar :=
  fold_left (row_term data xv)
    (seq (ix (rowp data) i) (ix (rowp data) (i + 1) - ix (rowp data) i)) init.
End RowSum.

(** ** Constrained rows

    What a matrix looks like where a boundary condition was applied. *)
Section ConstrainedRows.
Context {TacsScalar : Type} `{ScalarOps TacsScalar}.




(** The rows of the pattern follow one another inside the value array. *)
Definition bcsr_wf (d : BCSRMatData TacsScalar) : Prop :=
  (forall i, i < nrows d -> ix (rowp d) i <= ix (rowp d) (i + 1)) /\
  bsize d * bsize d * ix (rowp d) (nrows d) <= length (A d).


End ConstrainedRows.

(** The matrices boundary conditions are applied to. *)
Section ConstrainedMatrix.
Context {TacsScalar : Type} `{ScalarOps TacsScalar}.

(** The owner range [lo, hi) of the rank: [ownerRange[mpi_rank]] and
    [ownerRange[mpi_rank+1]]. *)
Definition owner_lo (pm : PMat (TacsScalar := TacsScalar)) : Z :=
  zx (ownerRange (rmap pm)) (mpi_rank (rmap pm)).
Definition owner_hi (pm : PMat (TacsScalar := TacsScalar)) : Z :=
  zx (ownerRange (rmap pm)) (mpi_rank (rmap pm) + 1).

(** A and B are laid out properly, [N] and [Nc] are their row dimensions
    and the rank owns [N] rows. *)
Definition PMat_wf (pm : PMat (TacsScalar := TacsScalar)) : Prop :=
  bcsr_wf (Aloc pm) /\ bcsr_wf (Bext pm) /\
  N pm = nrows (Aloc pm) /\ Nc pm = nrows (Bext pm) /\ Nc pm <= N pm /\
  (owner_hi pm - owner_lo pm = Z.of_nat (N pm))%Z.

(** Boundary condition [i] falls on a row of this rank. *)
Definition bc_owned (pm : PMat (TacsScalar := TacsScalar)) (bc : TACSBcMap)
    (i : nat) : Prop :=
  (owner_lo pm <= zx (bc_global bc) i < owner_hi pm)%Z.

End ConstrainedMatrix.

(** ** The masked block product

    What [C += alpha * A * B] means on the pattern of C, entry by entry. *)
Section MaskedProduct.
Context {TacsScalar : Type} `{ScalarOps TacsScalar}.

(** Scalar [e] (row-major, [e < 4]) of the product of the 2x2 block at
    offset [a] of [Av] with the 2x2 block at offset [b] of [Bv]. *)
Definition block_prod_entry (Av Bv : list TacsScalar) (a b e : nat)
    : TacsScalar :=
  match e with
  | 0 => sx Av a ⊗ sx Bv b ⊕ sx Av (a + 1) ⊗ sx Bv (b + 2)
  | 1 => sx Av a ⊗ sx Bv (b + 1) ⊕ sx Av (a + 1) ⊗ sx Bv (b + 3)
  | 2 => sx Av (a + 2) ⊗ sx Bv b ⊕ sx Av (a + 3) ⊗ sx Bv (b + 2)
  | _ => sx Av (a + 2) ⊗ sx Bv (b + 1) ⊕ sx Av (a + 3) ⊗ sx Bv (b + 3)
  end.

(** The stored blocks of row [j] of B that lie in column [col], taken in
    storage order: [acc] adds the product with block [jp] of A to [c]. *)
Definition masked_row (acc : TacsScalar -> TacsScalar -> TacsScalar)
    (Av Bv : list TacsScalar) (bcols : list nat) (a col e : nat)
    (ks : list nat) (c : TacsScalar) : TacsScalar :=
  fold_left (fun c kp => if ix bcols kp =? col
                         then acc c (block_prod_entry Av Bv a (4 * kp) e)
                         else c) ks c.

(** The sum over the stored blocks [(i,j)] of A and [(j,col)] of B of
    the products, accumulated on [c] in the order of the loops. *)
Definition masked_sum (acc : TacsScalar -> TacsScalar -> TacsScalar)
    (Adata Bdata : BCSRMatData TacsScalar) (i col e : nat)
    (c : TacsScalar) : TacsScalar :=
  fold_left (fun c jp =>
               let j := ix (cols Adata) jp in
               masked_row acc (A Adata) (A Bdata) (cols Bdata) (4 * jp) col e
                 (seq (ix (rowp Bdata) j)
                      (ix (rowp Bdata) (j + 1) - ix (rowp Bdata) j)) c)
    (seq (ix (rowp Adata) i) (ix (rowp Adata) (i + 1) - ix (rowp Adata) i)) c.

(** Column indices ascending within every row: weakly for B, strictly
    (no column stored twice) for C. *)
Definition cols_ascending (d : BCSRMatData TacsScalar) : Prop :=
  forall j kp, ix (rowp d) j <= kp -> kp + 1 < ix (rowp d) (j + 1) ->
               ix (cols d) kp <= ix (cols d) (kp + 1).

Definition cols_strictly_ascending (d : BCSRMatData TacsScalar) (n : nat)
    : Prop :=
  forall i cp, i < n -> ix (rowp d) i <= cp -> cp + 1 < ix (rowp d) (i + 1) ->
               ix (cols d) cp < ix (cols d) (cp + 1).

(** The first [n] rows of the pattern are laid out one after the other
    inside the value array. *)
Definition rows_in_bounds (d : BCSRMatData TacsScalar) (n : nat) : Prop :=
  (forall i, i < n -> ix (rowp d) i <= ix (rowp d) (i + 1)) /\
  4 * ix (rowp d) n <= length (A d).

(** What the comparisons [alpha == 1.0] and [alpha == -1.0] of the source
    rely on: adding [t] is adding [1.0 * t], subtracting [t] is adding
    [-1.0 * t]. *)
Class ScalarLaws : Prop := {
  eqb_one_mul : forall a c t : TacsScalar,
    s_eqb a s_one = true -> c ⊕ t = c ⊕ a ⊗ t;
  eqb_mone_mul : forall a c t : TacsScalar,
    s_eqb a s_mone = true -> c ⊖ t = c ⊕ a ⊗ t
}.
End MaskedProduct.
Arguments ScalarLaws TacsScalar {_}.

(** A two-block-row rank with one interface row and one external block. *)
Definition ex_B : BCSRMatData Z :=
  mkBCSR 1 1 2 [0; 1] [0] [] [1; 2; 3; 4]%Z.

Definition ex_machine : machine (TacsScalar := Z) :=
  mkMachine (fun b => match b with
                      | 0 => [1; 1; 2; 3]%Z
                      | 1 => [7; 7; 7; 7]%Z
                      | _ => []
                      end) [].

Definition ex_view : nat -> Z := fun s => Z.of_nat s.

Definition ex_pm : PMat (TacsScalar := Z) :=
  fst (PMat_init (mkVarMap 0 2 [0; 2; 4]%Z) ex_data ex_B (mkDist [3]) None 2
         ex_machine).

(** Operands of a block product: A has the blocks (0,0), (0,1); B has
    (0,0), (0,2), (1,1), (1,2); C stores (0,0) and (0,2) only, so that the
    product of A(0,1) with B(1,1) has no target. *)
Definition ex_MA : BCSRMatData Z :=
  mkBCSR 1 2 2 [0; 2] [0; 1] [0] [1; 2; 3; 4;   0; 1; 1; 0]%Z.
Definition ex_MB : BCSRMatData Z :=
  mkBCSR 2 3 2 [0; 2; 4] [0; 2; 1; 2] [0; 2]
    [1; 0; 0; 1;   2; 0; 0; 2;   5; 5; 5; 5;   1; 2; 3; 4]%Z.
Definition ex_MC : BCSRMatData Z :=
  mkBCSR 1 3 2 [0; 2] [0; 2] [0] [10; 10; 10; 10;   20; 20; 20; 20]%Z.

(** A relaxation object as a completed construction would leave it, and
    toy sweeps standing for the relaxation kernels. *)
Definition ex_sweep (d : BCSRMatData Z) (x y : list Z) (omega : Z) (iters : Z)
    : list Z :=
  zip_with (fun yi xi => yi + omega * iters * xi)%Z y x.

Definition ex_PSOR : PSOR (TacsScalar := Z) :=
  mkPSOR (Some ex_data) (Some ex_B) (Some (Some 3)) (Some 2) (Some 2)
    (Some (Some (mkDist [3]))) (Some 2) (Some 1%Z) (Some 1%Z) (Some 4%Z)
    (Some 0%Z).

(** A matrix on a communicator of a single rank, and an identity
    "factorization" standing for the ILU. *)
Definition ex_pm1 : PMat (TacsScalar := Z) :=
  fst (PMat_init (mkVarMap 0 1 [0; 2]%Z) ex_data ex_B (mkDist [3]) None 2
         ex_machine).

(** A matrix with the pattern of [ex_pm] and one with another pattern. *)
Definition ex_pm_values : PMat (TacsScalar := Z) :=
  set_AB ex_pm
    (set_values ex_data [2; 0; 0; 2;   3; 0; 0; 3;   4; 0; 0; 4]%Z)
    (set_values ex_B [7; 7; 7; 7]%Z).

Definition ex_pm_other : PMat (TacsScalar := Z) :=
  set_AB ex_pm
    (mkBCSR 2 2 2 [0; 1; 2] [0; 1] [0; 1] [1; 0; 0; 1;   1; 0; 0; 1]%Z)
    ex_B.

(** ** The distributed vector seen by the halo

    What a rank exposes to the other ranks: its range of global blocks
    and, for a scalar offset into its local part, the value the halo reads
    there. *)
Section Exposure.
Context {TacsScalar : Type} `{ScalarOps TacsScalar}.

Record exposure := mkExposure {
  exp_lo : nat;
  exp_hi : nat;
  exp_read : nat -> TacsScalar
}.

(** The rank reads through the pointer [src] it passed to the halo. *)
Definition expose (lo hi : nat) (m : mem) (src : ptr) : exposure :=
  mkExposure lo hi (ld m src).

(** Modelled from the spec: "v positioned at offset bsize·Np within a
    vector of length bsize·N". *)
Definition v_embedded (bs np : nat) (v : list TacsScalar) : list TacsScalar :=
  repeat s_zero (bs * np) ++ v.

(** Modelled from the spec: the rank exposes the embedded vector. *)
Definition expose_embedded (lo hi bs np : nat) (v : list TacsScalar)
    : exposure :=
  mkExposure lo hi (sx (v_embedded bs np v)).

(** Modelled from the spec: scalar [s] of the distributed vector that the
    halo gathers from; the owner of its block reads it at the offset of the
    block in its local part, as in [PMat::mult], where the source is the
    array of the whole local vector. *)
Definition world_view (bs : nat) (rs : list exposure) (s : nat) : TacsScalar :=
  match find (fun r => (bs * exp_lo r <=? s) && (s <? bs * exp_hi r)) rs with
  | Some r => exp_read r (s - bs * exp_lo r)
  | None => s_zero
  end.
End Exposure.

(** Two ranks, block size 2.  Rank 0 owns the global block 0, an interface
    block coupled to the global block 2.  Rank 1 owns the blocks 1 to 4:
    one interior block and three interface blocks, the first of which is
    the global block 2. *)
Definition ex_r0_Apc : BCSRMatData Z :=
  mkBCSR 1 1 2 [0; 1] [0] [0] [1; 0; 0; 1]%Z.
Definition ex_r0_B : BCSRMatData Z :=
  mkBCSR 1 1 2 [0; 1] [0] [] [1; 0; 0; 1]%Z.
Definition ex_r0_pm : PMat (TacsScalar := Z) :=
  fst (PMat_init (mkVarMap 0 2 [0; 1; 5]%Z) ex_r0_Apc ex_r0_B (mkDist [2])
         None 2 (mkMachine (fun _ => []) [])).

Definition ex_r1_A : BCSRMatData Z :=
  mkBCSR 4 4 2 [0; 1; 2; 3; 4] [0; 1; 2; 3] [0; 1; 2; 3]
    [1; 0; 0; 1;  1; 0; 0; 1;  1; 0; 0; 1;  1; 0; 0; 1]%Z.
Definition ex_r1_B : BCSRMatData Z :=
  mkBCSR 3 1 2 [0; 1; 1; 1] [0] [] [1; 0; 0; 1]%Z.
Definition ex_r1_pm : PMat (TacsScalar := Z) :=
  fst (PMat_init (mkVarMap 1 2 [0; 1; 5]%Z) ex_r1_A ex_r1_B (mkDist [0])
         None 2 (mkMachine (fun _ => []) [])).

(** On both ranks the interface vector [v] is the array 0 and the result
    the array 1. *)
Definition ex_r0_machine : machine (TacsScalar := Z) :=
  mkMachine (fun b => match b with
                      | 0 => [10; 20]%Z
                      | 1 => [0; 0]%Z
                      | _ => []
                      end) [].
Definition ex_r1_machine : machine (TacsScalar := Z) :=
  mkMachine (fun b => match b with
                      | 0 => [1; 2; 3; 4; 5; 6]%Z
                      | 1 => [0; 0; 0; 0; 0; 0]%Z
                      | _ => []
                      end) [].

Definition ex_gs (pm : PMat (TacsScalar := Z)) : GlobalSchurMat :=
  match GlobalSchurMat_ctor pm 2 with
  | Done gs => gs
  | Fault _ => mkGS ex_r0_B 0 0 (mkDist []) 0 0
  end.

(** The distributed interface vector as the code exposes it, through
    [&x[varoffset]], and as the specification reads it. *)
Definition ex_view_code : nat -> Z :=
  world_view 2
    [expose 0 1 (heap ex_r0_machine) (GlobalSchurMat_src (ex_gs ex_r0_pm) 0);
     expose 1 5 (heap ex_r1_machine) (GlobalSchurMat_src (ex_gs ex_r1_pm) 0)].

Definition ex_view_embedded : nat -> Z :=
  world_view 2
    [expose_embedded 0 1 2 (Np ex_r0_pm) (heap ex_r0_machine 0);
     expose_embedded 1 5 2 (Np ex_r1_pm) (heap ex_r1_machine 0)].

(** A rank that owns the global rows 0 and 1, with a boundary condition on
    the global row 1 (an interface row) that constrains the variable 0
    only. *)
Definition ex_bc_pm : PMat (TacsScalar := Z) :=
  fst (PMat_init (mkVarMap 0 1 [0; 2]%Z) ex_data ex_B (mkDist [3])
         (Some (mkBcMap 1 [1]%Z [0; 1] [0])) 2 ex_machine).

(** The same rank with two boundary conditions: all the variables of
    the global row 1 (an interface row), and the variable 1 of the global
    row 0 (an interior row). *)
Definition ex_bc_full : TACSBcMap := mkBcMap 2 [1; 0]%Z [0; 2; 3] [0; 1; 1].
Definition ex_bc_full_pm : PMat (TacsScalar := Z) :=
  fst (PMat_init (mkVarMap 0 1 [0; 2]%Z) ex_data ex_B (mkDist [3])
         (Some ex_bc_full) 2 ex_machine).

(** The same rank with one boundary condition on its interior row 0, and
    with one on the global row 5, which it does not own. *)
Definition ex_bc_interior : TACSBcMap := mkBcMap 1 [0]%Z [0; 1] [0].
Definition ex_bc_interior_pm : PMat (TacsScalar := Z) :=
  fst (PMat_init (mkVarMap 0 1 [0; 2]%Z) ex_data ex_B (mkDist [3])
         (Some ex_bc_interior) 2 ex_machine).
Definition ex_bc_foreign : TACSBcMap := mkBcMap 1 [5]%Z [0; 1] [0].
Definition ex_bc_foreign_pm : PMat (TacsScalar := Z) :=
  fst (PMat_init (mkVarMap 0 1 [0; 2]%Z) ex_data ex_B (mkDist [3])
         (Some ex_bc_foreign) 2 ex_machine).

(** The rank of scenario S5: rank 1 of 2 owns the global rows 5, 6, 7; A
    has the blocks (0,0), (1,0), (1,1), (2,2); the last row is the
    interface row and B couples it to the external block 0, which is the
    global block 2. *)
Definition ex_print_A : BCSRMatData Z :=
  mkBCSR 3 3 2 [0; 1; 3; 4] [0; 0; 1; 2] [0; 2; 3] (repeat 1%Z 16).
Definition ex_print_B : BCSRMatData Z :=
  mkBCSR 1 1 2 [0; 1] [0] [] (repeat 1%Z 4).
Definition ex_print_pm : PMat (TacsScalar := Z) :=
  fst (PMat_init (mkVarMap 1 2 [0; 5; 8]%Z) ex_print_A ex_print_B (mkDist [2])
         None 2 ex_machine).

Definition ex_print_file : string :=
  cat_all
    ["VARIABLES = "; dq; "i"; dq; ", "; dq; "j"; dq; " "; nl;
     "ZONE T = "; dq; "Diagonal block 1"; dq; nl;
     "5 5"; nl; "6 5"; nl; "6 6"; nl; "7 7"; nl;
     "ZONE T = "; dq; "Off-diagonal block 1"; dq; nl;
     "7 2"; nl]%string.

(** Factored matrices for the solves: the diagonal blocks hold the
    inverses.  [ex_LU] is a full 2x2 block matrix, [ex_LU3] has three rows
    of which the last two are interface rows. *)
Definition ex_LU : BCSRMatData Z :=
  mkBCSR 2 2 2 [0; 2; 4] [0; 1; 0; 1] [0; 3]
    [1; 0; 0; 1;   1; 1; 0; 1;   1; 0; 1; 1;   2; 0; 0; 2]%Z.

Definition ex_LU3 : BCSRMatData Z :=
  mkBCSR 3 3 2 [0; 1; 3; 6] [0; 0; 1; 0; 1; 2] [0; 2; 5]
    [1; 0; 0; 1;   1; 0; 0; 1;   1; 0; 0; 1;
     1; 0; 0; 1;   1; 0; 1; 1;   1; 0; 0; 1]%Z.

Definition ex_solve_mem : mem (TacsScalar := Z) :=
  fun b => match b with
           | 0 => [1; 2; 3; 4]%Z
           | 1 => [0; 0; 0; 0]%Z
           | _ => []
           end.

(** A relaxation object without the zero initial guess. *)
Definition ex_PSOR_guess : PSOR (TacsScalar := Z) :=
  mkPSOR (Some ex_data) (Some ex_B) (Some (Some 3)) (Some 2) (Some 2)
    (Some (Some (mkDist [3]))) (Some 2) (Some 0%Z) (Some 1%Z) (Some 4%Z)
    (Some 0%Z).

Definition ex_machine_b : machine (TacsScalar := Z) :=
  mkMachine (fun b => match b with
                      | 0 => [1; 1; 2; 3]%Z
                      | 1 => [7; 7; 7; 7]%Z
                      | 3 => [9; 9; 9; 9]%Z
                      | _ => []
                      end) [].


(** ** The triangular solves, row by row

    What the solves of [BCSRMatMult2.c] compute, as recurrences over the
    stored entries of a row in storage order.  [yv s] is the scalar [s] of
    the vector the eliminations read; [off] is subtracted from the scalar
    column offsets (the partial solves address the interface part). *)
Section TriangularRows.
Context {TacsScalar : Type} `{ScalarOps TacsScalar}.

(** [acc -= a * yv[2*cols[j] - off ..]] for the stored block [j]. *)
Definition solve_term (data : BCSRMatData TacsScalar) (yv : nat -> TacsScalar)
    (off : nat) (acc : TacsScalar * TacsScalar) (j : nat)
    : TacsScalar * TacsScalar :=
  let bj := 2 * ix (cols data) j - off in
  (fst acc ⊖ (sx (A data) (4 * j) ⊗ yv bj
              ⊕ sx (A data) (4 * j + 1) ⊗ yv (bj + 1)),
   snd acc ⊖ (sx (A data) (4 * j + 2) ⊗ yv bj
              ⊕ sx (A data) (4 * j + 3) ⊗ yv (bj + 1))).

(** The elimination of the entries [j0 .. diag[i]) left of the diagonal of
    row [i]. *)
Definition lower_elim (data : BCSRMatData TacsScalar) (yv : nat -> TacsScalar)
    (off i j0 : nat) (rhs : TacsScalar * TacsScalar)
    : TacsScalar * TacsScalar :=
  fold_left (solve_term data yv off) (seq j0 (ix (diag data) i - j0)) rhs.

(** The elimination of the entries right of the diagonal of row [i]. *)
Definition upper_elim (data : BCSRMatData TacsScalar) (yv : nat -> TacsScalar)
    (off i : nat) (rhs : TacsScalar * TacsScalar)
    : TacsScalar * TacsScalar :=
  fold_left (solve_term data yv off)
    (seq (ix (diag data) i + 1)
         (ix (rowp data) (i + 1) - (ix (diag data) i + 1))) rhs.

(** The product with the stored diagonal block of row [i] (the inverse of
    the diagonal block, in a factored matrix). *)
Definition diag_apply (data : BCSRMatData TacsScalar) (i : nat)
    (t : TacsScalar * TacsScalar) : TacsScalar * TacsScalar :=
  let ad := 4 * ix (diag data) i in
  (sx (A data) ad ⊗ fst t ⊕ sx (A data) (ad + 1) ⊗ snd t,
   sx (A data) (ad + 2) ⊗ fst t ⊕ sx (A data) (ad + 3) ⊗ snd t).

(** The block row [i] of the vector at [p]. *)
Definition blk (m : mem) (p : ptr) (i : nat) : TacsScalar * TacsScalar :=
  (ld m p (2 * i), ld m p (2 * i + 1)).

(** The entries left of the diagonal lie in columns below the row, those
    right of it in columns above the row, for the rows [lo .. hi). *)
Definition lower_pattern (data : BCSRMatData TacsScalar) (lo hi : nat) : Prop :=
  forall i j, lo <= i < hi ->
    ix (rowp data) i <= j < ix (diag data) i -> ix (cols data) j < i.

Definition upper_pattern (data : BCSRMatData TacsScalar) (lo hi : nat) : Prop :=
  forall i j, lo <= i < hi ->
    ix (diag data) i < j < ix (rowp data) (i + 1) -> i < ix (cols data) j.

(** [m'] has the buffer lengths of [m] and differs from it at most in
    the scalars [lo .. hi) of the buffer [b]. *)
Definition writes_within (m m' : mem (TacsScalar := TacsScalar))
    (b lo hi : nat) : Prop :=
  (forall b', length (m' b') = length (m b')) /\
  (forall q k, fst q ≠ b \/ snd q + k < lo \/ hi <= snd q + k ->
               ld m' q k = ld m q k).

(** Where the scan [while ( cols[j] < var_offset ) j++;] of row [i]
    stops. *)
Definition interface_start (data : BCSRMatData TacsScalar)
    (i var_offset : nat) : nat :=
  skip_cols (cols data) (length (cols data) - ix (rowp data) i)
    (ix (rowp data) i) var_offset.

(** The columns of the entries [rowp[i] .. diag[i]] of row [i] ascend and
    the entry at [diag[i]] is the one of column [i]. *)
Definition row_sorted_to_diag (data : BCSRMatData TacsScalar) (i : nat) : Prop :=
  ix (rowp data) i <= ix (diag data) i /\
  ix (diag data) i < length (cols data) /\
  ix (cols data) (ix (diag data) i) = i /\
  (forall j k, ix (rowp data) i <= j -> j < k -> k <= ix (diag data) i ->
               ix (cols data) j < ix (cols data) k).

(** The elimination of the entries left of the diagonal of row [i] that
    lie in the columns from [var_offset] on, against the interface part
    [yv] of the vector. *)
Definition interface_elim (data : BCSRMatData TacsScalar)
    (yv : nat -> TacsScalar) (var_offset i : nat)
    (rhs : TacsScalar * TacsScalar) : TacsScalar * TacsScalar :=
  fold_left (solve_term data yv (2 * var_offset))
    (List.filter (fun j => var_offset <=? ix (cols data) j)
       (seq (ix (rowp data) i) (ix (diag data) i - ix (rowp data) i))) rhs.
End TriangularRows.

(** An upper triangular 3x3 block pattern with the stored (inverted)
    diagonal blocks, and a vector of three block rows. *)
Definition ex_U3 : BCSRMatData Z :=
  mkBCSR 3 3 2 [0; 3; 5; 6] [0; 1; 2; 1; 2; 2] [0; 3; 5]
    [1; 0; 0; 1;   1; 1; 0; 1;   0; 1; 1; 0;
     2; 0; 0; 2;   1; 0; 1; 1;   1; 1; 0; 1]%Z.

Definition ex_solve_mem3 : mem (TacsScalar := Z) :=
  fun b => match b with
           | 0 => [1; 2; 3; 4; 5; 6]%Z
           | 1 => [7; 8; 9; 10; 11; 12]%Z
           | _ => []
           end.

(** Rank 0 of two ranks, with the factor pattern [ex_U3]: one interior
    row and two interface rows.  The inner solver of the example hands
    back its right-hand side. *)
Definition ex_schur_B : BCSRMatData Z :=
  mkBCSR 2 1 2 [0; 1; 1] [0] [] [1; 0; 0; 1]%Z.

Definition ex_schur_pm : PMat (TacsScalar := Z) :=
  fst (PMat_init (mkVarMap 0 2 [0; 3; 4]%Z) ex_U3 ex_schur_B (mkDist [3])
         None 4 (mkMachine (fun _ => []) [])).

Definition ex_schur_ksm : GMRES (TacsScalar := Z) (double := unit) :=
  mkGMRES (mkGS ex_schur_B 1 4 (mkDist [3]) 2 4) 10%Z 0%Z tt tt.

Definition ex_schur : ApproximateSchur (TacsScalar := Z) (double := unit) :=
  mkASchur ex_schur_pm ex_U3 ex_U3 0%Z
    (Some (mkGS ex_schur_B 1 4 (mkDist [3]) 2 4)) (Some 2) (Some 3)
    (Some ex_schur_ksm) (Some 1) (Some 2) (Some 6).

Definition ex_copy_solve (ksm : GMRES (TacsScalar := Z) (double := unit))
    (data : BCSRMatData Z) (r wv : nat) (m : mem (TacsScalar := Z))
    : mem (TacsScalar := Z) :=
  setbuf m wv (m r).

Definition ex_schur_machine : machine (TacsScalar := Z) :=
  mkMachine (fun b => match b with
                      | 0 => [1; 2; 3; 4; 5; 6]%Z
                      | 1 => [0; 0; 0; 0; 0; 0]%Z
                      | 2 => [0; 0; 0; 0]%Z
                      | 3 => [0; 0; 0; 0]%Z
                      | _ => []
                      end) [].

(** ** [ApproximateSchur::printNzPattern] *)
Section SchurPattern.
Context {TacsScalar : Type} `{ScalarOps TacsScalar} {double : Type}.

(** The data lines of the off-diagonal zone, the interface rows moved by
    [var_offset]. *)
Definition schur_off_lines (bext : BCSRMatData TacsScalar)
    (d : TACSBVecDistribute) (lo : Z) (var_offset : nat) : string :=
  cat_all (map (row_lines (rowp bext)
         (fun i j => data_line
            (wrap_int (wrap_int (Z.of_nat i + Z.of_nat var_offset) + lo))
            (Z.of_nat (ix (ext_vars d) (ix (cols bext) j)))))
       (seq 0 (nrows bext))).

(** No row of the pattern has a stored block: the inner loop of the
    off-diagonal zone is never entered. *)
Definition no_stored_block (bext : BCSRMatData TacsScalar) : bool :=
  forallb (fun i => ix (rowp bext) (i + 1) <=? ix (rowp bext) i)
    (seq 0 (nrows bext)).

(** The content of the file that [ApproximateSchur::printNzPattern]
    writes.  It prints the pattern of the factor [Apc] and of the [Bext]
    of the matrix.  The stream that [fopen] returns is written to without
    a test, and [var_offset] is read by the lines of the off-diagonal
    zone. *)
Definition ApproximateSchur_printNzPattern
    (this : @ApproximateSchur TacsScalar double) (fopen_ok : bool)
    : outcome string :=
  let apc := sc_Apc this in
  let mat := sc_mat this in
  let bext := Bext mat in
  (* mat->getExtColMap(&ext_dist); ext_dist->getIndices(); *)
  d ← deref "ext_dist" (ext_dist mat);
  let rank := mpi_rank (rmap mat) in
  let lo := zx (ownerRange (rmap mat)) rank in
  (* FILE *fp = fopen(fileName, "w"); fprintf(fp, ...); *)
  _ ← deref "fp" (if fopen_ok then Some tt else None);
  let diag_zone :=
    cat_all (map (row_lines (rowp apc)
           (fun i j => data_line (wrap_int (Z.of_nat i + lo))
                         (wrap_int (Z.of_nat (ix (cols apc) j) + lo))))
         (seq 0 (nrows apc))) in
  if 0 <? ix (rowp bext) (nrows bext) then
    if no_stored_block bext then
      Done (diag_header rank ++ diag_zone ++ offdiag_header rank)%string
    else
      var_offset ← member "var_offset" (sc_var_offset this);
      Done (diag_header rank ++ diag_zone ++ offdiag_header rank
            ++ schur_off_lines bext d lo var_offset)%string
  else Done (diag_header rank ++ diag_zone)%string.
End SchurPattern.

(** Case analysis on a small index of an example pattern. *)
Ltac small_index j :=
  first [ solve [cbn in *; lia]
        | destruct j as [|j]; [solve [cbn in *; lia] | small_index j] ].

(** The Schur operator of the example rank, and the distributed vector
    whose scalar [s] is [s]. *)
Definition ex_schur_gs : GlobalSchurMat (TacsScalar := Z) :=
  mkGS ex_schur_B 1 4 (mkDist [3]) 2 4.

Definition ex_schur_view (s : nat) : Z := Z.of_nat s.

(** ** [GlobalSchurMat::multOffDiag] *)
Section SchurOffDiag.
Context {TacsScalar : Type} `{ScalarOps TacsScalar}.

(** [y <- Bext * x_ext]: the halo exchange of [mult], from the same
    source pointer [&x[varoffset]], and the product with [Bext]; the
    arguments are [TACSBVec] already.  [view] is the distributed vector
    as the ranks expose it through their [GlobalSchurMat_src]. *)
Definition GlobalSchurMat_multOffDiag
    (this : GlobalSchurMat (TacsScalar := TacsScalar)) (x y : nat)
    (view : nat -> TacsScalar) (inflight : list TacsScalar)
    (w : machine (TacsScalar := TacsScalar))
    : machine (TacsScalar := TacsScalar) :=
  let xe := gs_x_ext this in
  let m1 := beginForward inflight xe (heap w) in
  let m2 := endForward (gs_ctx this) (gs_ext_dist this) view xe m1 in
  with_heap w (BCSRMat_mult (gs_Bext this) (xe, 0) (y, 0) m2).
End SchurOffDiag.
(* ====================================================================== *)
(** * Theorems *)
(* ====================================================================== *)

Example BCSRMatVecMult2_ex :
  BCSRMatVecMult2 ex_data (0, 0) (1, 0) ex_mem 1 = [31; 45; 48; 58; 100]%Z.
Proof. reflexivity. Qed.

Example BCSRMatVecMultAdd2_ex :
  BCSRMatVecMultAdd2 ex_data (0, 0) (1, 1) (1, 1) ex_mem 1
  = [100; 131; 145; 148; 158]%Z.
Proof. reflexivity. Qed.

(** The solves on small factored matrices. *)
Example BCSRMatApplyLower2_ex :
  BCSRMatApplyLower2 ex_LU (0, 0) (1, 0) ex_solve_mem 1 = [1; 2; 2; 1]%Z.
Proof. reflexivity. Qed.

Example BCSRMatApplyUpper2_ex :
  BCSRMatApplyUpper2 ex_LU (1, 0) (1, 0)
    (BCSRMatApplyLower2 ex_LU (0, 0) (1, 0) ex_solve_mem) 1
  = [-5; 0; 4; 2]%Z.
Proof. reflexivity. Qed.

Example BCSRMatApplyPartialLower2_ex :
  BCSRMatApplyPartialLower2 ex_LU3 (0, 0) 1 ex_solve_mem 0 = [1; 2; 2; 1]%Z.
Proof. reflexivity. Qed.

Example BCSRMatApplyPartialUpper2_ex :
  BCSRMatApplyPartialUpper2 ex_LU (0, 2) 1 ex_solve_mem 0 = [1; 2; 6; 8]%Z.
Proof. reflexivity. Qed.

Example BCSRMatApplyFactorSchur2_ex :
  BCSRMatApplyFactorSchur2 ex_LU (0, 0) 1 ex_solve_mem 0 = [-6; -2; 3; 4]%Z.
Proof. reflexivity. Qed.

(** ** Loads and stores *)
Section MemoryFacts.
Context {TacsScalar : Type} `{ScalarOps TacsScalar}.
Implicit Types (m : mem (TacsScalar := TacsScalar)) (p q : ptr).

Lemma st_same m p i v :
  st m p i v (fst p) = <[snd p + i := v]> (m (fst p)).
Proof. unfold st. by rewrite Nat.eqb_refl. Qed.

Lemma st_other m p i v b : b ≠ fst p -> st m p i v b = m b.
Proof. intros Hb. unfold st. apply Nat.eqb_neq in Hb. by rewrite Hb. Qed.

Lemma ld_st_other m p i v q j :
  fst q ≠ fst p -> ld (st m p i v) q j = ld m q j.
Proof. intros Hb. unfold ld. by rewrite st_other. Qed.

Lemma ld_st_eq m p i v :
  snd p + i < length (m (fst p)) -> ld (st m p i v) p i = v.
Proof.
  intros Hlen. unfold ld. rewrite st_same, nth_lookup.
  by rewrite list_lookup_insert_eq.
Qed.

Lemma ld_st_ne m p i v j : i ≠ j -> ld (st m p i v) p j = ld m p j.
Proof.
  intros Hne. unfold ld. rewrite st_same, !nth_lookup.
  rewrite list_lookup_insert_ne; [done | lia].
Qed.

Lemma length_st m p i v b : length (st m p i v b) = length (m b).
Proof.
  unfold st. destruct (Nat.eqb b (fst p)); [apply length_insert | done].
Qed.

Lemma insert_pair_collapse (l : list TacsScalar) i j a b c d :
  i ≠ j ->
  <[j := a]> (<[i := b]> (<[j := c]> (<[i := d]> l)))
  = <[j := a]> (<[i := b]> l).
Proof.
  intros Hij.
  rewrite (list_insert_insert_ne _ i j b c) by done.
  by rewrite !list_insert_insert_eq.
Qed.

Lemma ld_padd m p k j : ld m (padd p k) j = ld m p (k + j).
Proof. unfold ld, padd. cbn [fst snd]. f_equal. lia. Qed.

Lemma ld_sx m p j : ld m p j = sx (m (fst p)) (snd p + j).
Proof. done. Qed.

Lemma sx_st_ne m p i v j :
  j ≠ snd p + i -> sx (st m p i v (fst p)) j = sx (m (fst p)) j.
Proof.
  intros Hne. unfold sx. rewrite st_same, !nth_lookup.
  rewrite list_lookup_insert_ne; [done | lia].
Qed.

Lemma setbuf_same m b l : setbuf m b l b = l.
Proof. unfold setbuf. by rewrite Nat.eqb_refl. Qed.

Lemma setbuf_other m b l b' : b' ≠ b -> setbuf m b l b' = m b'.
Proof. intros Hb. unfold setbuf. apply Nat.eqb_neq in Hb. by rewrite Hb. Qed.
End MemoryFacts.

(** ** The matrix-vector kernels compute the serial row sums *)
Section KernelFacts.
Context {TacsScalar : Type} `{ScalarOps TacsScalar}.
Implicit Types (m : mem (TacsScalar := TacsScalar)) (x y : ptr).

(** The inner loop adds the entries [k .. k+n) onto [y[0]], [y[1]] and
    touches nothing else. *)
Lemma BCSRMatVecMult2_row_spec data xv n : forall k m x y,
  fst x ≠ fst y ->
  (forall j, ld m x j = xv j) ->
  snd y + 1 < length (m (fst y)) ->
  let m' := BCSRMatVecMult2_row data n k (4 * k) x y m in
  let r := fold_left (row_term data xv) (seq k n) (ld m y 0, ld m y 1) in
  (forall b, b ≠ fst y -> m' b = m b) /\
  m' (fst y) = <[snd y + 1 := snd r]> (<[snd y + 0 := fst r]> (m (fst y))).
Proof.
  induction n as [|n IH]; intros k m x y Hxy Hx Hlen; cbn zeta.
  - split; [done|]. cbn [fold_left seq fst snd BCSRMatVecMult2_row].
    unfold ld. rewrite !nth_lookup.
    destruct (lookup_lt_is_Some_2 (m (fst y)) (snd y + 0) ltac:(lia)) as [v0 Hv0].
    destruct (lookup_lt_is_Some_2 (m (fst y)) (snd y + 1) ltac:(lia)) as [v1 Hv1].
    rewrite Hv0, Hv1. cbn.
    rewrite (list_insert_id _ _ _ Hv0). by rewrite (list_insert_id _ _ _ Hv1).
  - cbn [BCSRMatVecMult2_row seq fold_left].
    set (bj := 2 * ix (cols data) k).
    set (v0 := ld m y 0 ⊕ _).
    set (m1 := st m y 0 v0).
    set (v1 := ld m1 y 1 ⊕ _).
    set (m2 := st m1 y 1 v1).
    assert (Hx2 : forall j, ld m2 x j = xv j).
    { intros j. unfold m2, m1. rewrite !ld_st_other by done. apply Hx. }
    assert (Hlen2 : snd y + 1 < length (m2 (fst y))).
    { unfold m2, m1. by rewrite !length_st. }
    replace (4 * k + 4) with (4 * (k + 1)) by lia.
    destruct (IH (k + 1) m2 x y Hxy Hx2 Hlen2) as [IHa IHb].
    assert (Hl0 : ld m2 y 0 = v0).
    { unfold m2. rewrite ld_st_ne by lia. unfold m1.
      apply ld_st_eq. lia. }
    assert (Hl1 : ld m2 y 1 = v1).
    { unfold m2. apply ld_st_eq. unfold m1. rewrite length_st. lia. }
    assert (Hterm : row_term data xv (ld m y 0, ld m y 1) k = (v0, v1)).
    { unfold row_term, v0, v1. cbn [fst snd]. fold bj.
      unfold m1. rewrite !(ld_st_other _ _ _ _ x) by done.
      rewrite ld_st_ne by lia. by rewrite !Hx. }
    rewrite Hl0, Hl1 in IHb. rewrite Hterm.
    replace (S k) with (k + 1) by lia.
    split.
    + intros b Hb. rewrite IHa by done. unfold m2, m1.
      by rewrite !st_other by done.
    + rewrite IHb. unfold m2. rewrite st_same. unfold m1. rewrite st_same.
      apply insert_pair_collapse. lia.
Qed.

(** What the inner loop leaves in [y[0]], [y[1]] and around them. *)
Lemma BCSRMatVecMult2_row_reads data xv n k m x y :
  fst x ≠ fst y ->
  (forall j, ld m x j = xv j) ->
  snd y + 1 < length (m (fst y)) ->
  let m' := BCSRMatVecMult2_row data n k (4 * k) x y m in
  (forall b, b ≠ fst y -> m' b = m b) /\
  length (m' (fst y)) = length (m (fst y)) /\
  (ld m' y 0, ld m' y 1)
    = fold_left (row_term data xv) (seq k n) (ld m y 0, ld m y 1) /\
  (forall j, j ≠ snd y + 0 -> j ≠ snd y + 1 ->
             sx (m' (fst y)) j = sx (m (fst y)) j).
Proof.
  intros Hxy Hx Hlen m'.
  destruct (BCSRMatVecMult2_row_spec data xv n k m x y Hxy Hx Hlen)
    as [Ha Hb].
  fold m' in Ha, Hb. split; [done|].
  split; [by rewrite Hb, !length_insert|].
  split.
  - rewrite (surjective_pairing (fold_left _ _ _)).
    rewrite !(ld_sx m'). unfold sx.
    rewrite Hb, !nth_lookup. f_equal.
    + rewrite list_lookup_insert_ne by lia.
      rewrite list_lookup_insert_eq; [done | lia].
    + rewrite list_lookup_insert_eq; [done | rewrite length_insert; lia].
  - intros j H0 H1. unfold sx. rewrite Hb, !nth_lookup.
    by rewrite !list_lookup_insert_ne by done.
Qed.

(** [BCSRMatVecMult2] writes the serial row sums, started from zero, to
    the [n] block rows at [y] and nothing else. *)
Lemma BCSRMatVecMult2_rows_spec data xv n : forall i m x y,
  fst x ≠ fst y ->
  (forall j, ld m x j = xv j) ->
  snd y + 2 * n <= length (m (fst y)) ->
  let m' := BCSRMatVecMult2_rows data n i x y m in
  (forall b, b ≠ fst y -> m' b = m b) /\
  length (m' (fst y)) = length (m (fst y)) /\
  (forall r, r < n ->
     (ld m' y (2 * r), ld m' y (2 * r + 1))
     = row_sum data xv (i + r) (s_zero, s_zero)) /\
  (forall j, j < snd y \/ snd y + 2 * n <= j ->
             sx (m' (fst y)) j = sx (m (fst y)) j).
Proof.
  induction n as [|n IH]; intros i m x y Hxy Hx Hlen; cbn zeta.
  - cbn [BCSRMatVecMult2_rows].
    split; [done|]. split; [done|]. split; [intros; lia | done].
  - cbn [BCSRMatVecMult2_rows].
    set (m1 := st m y 0 s_zero). set (m2 := st m1 y 1 s_zero).
    set (k := ix (rowp data) i).
    set (cnt := ix (rowp data) (i + 1) - k).
    assert (Hx2 : forall j, ld m2 x j = xv j).
    { intros j. unfold m2, m1. rewrite !ld_st_other by done. apply Hx. }
    assert (Hlen2 : length (m2 (fst y)) = length (m (fst y))).
    { unfold m2, m1. by rewrite !length_st. }
    destruct (BCSRMatVecMult2_row_reads data xv cnt k m2 x y Hxy Hx2
                ltac:(lia)) as (Ra & Rl & Rv & Rf).
    set (m3 := BCSRMatVecMult2_row data cnt k (4 * k) x y m2) in *.
    assert (H0 : ld m2 y 0 = s_zero).
    { unfold m2. rewrite ld_st_ne by lia. unfold m1. apply ld_st_eq. lia. }
    assert (H1 : ld m2 y 1 = s_zero).
    { unfold m2. apply ld_st_eq. unfold m1. rewrite length_st. lia. }
    rewrite H0, H1 in Rv.
    assert (Hx3 : forall j, ld m3 x j = xv j).
    { intros j. unfold ld. rewrite Ra by done. apply Hx2. }
    destruct (IH (i + 1) m3 x (padd y 2) Hxy Hx3) as (Ia & Il & Iv & If).
    { cbn [padd fst snd]. lia. }
    cbn [padd fst snd] in Ia, Il, If.
    set (m' := BCSRMatVecMult2_rows data n (i + 1) x (padd y 2) m3) in *.
    split; [|split; [|split]].
    + intros b Hb. rewrite Ia, Ra by done. unfold m2, m1.
      by rewrite !st_other.
    + lia.
    + intros r Hr. destruct r as [|r].
      * rewrite Nat.add_0_r. rewrite !ld_sx.
        rewrite !If by lia. rewrite <- !ld_sx. cbn [Nat.mul Nat.add].
        exact Rv.
      * specialize (Iv r ltac:(lia)). rewrite !ld_padd in Iv.
        replace (i + S r) with (i + 1 + r) by lia.
        replace (2 * S r) with (2 + 2 * r) by lia.
        replace (2 + 2 * r + 1) with (2 + (2 * r + 1)) by lia. exact Iv.
    + intros j Hj. rewrite If by lia. rewrite Rf by lia.
      unfold m2. rewrite sx_st_ne by lia. unfold m1.
      by rewrite sx_st_ne by lia.
Qed.

(** [BCSRMatVecMultAdd2] called with [z == y]: the serial row sums are
    accumulated onto what the rows at [y] held. *)
Lemma BCSRMatVecMultAdd2_rows_inplace data xv n : forall i m x y,
  fst x ≠ fst y ->
  (forall j, ld m x j = xv j) ->
  snd y + 2 * n <= length (m (fst y)) ->
  let m' := BCSRMatVecMultAdd2_rows data n i x y y m in
  (forall b, b ≠ fst y -> m' b = m b) /\
  length (m' (fst y)) = length (m (fst y)) /\
  (forall r, r < n ->
     (ld m' y (2 * r), ld m' y (2 * r + 1))
     = row_sum data xv (i + r) (ld m y (2 * r), ld m y (2 * r + 1))) /\
  (forall j, j < snd y \/ snd y + 2 * n <= j ->
             sx (m' (fst y)) j = sx (m (fst y)) j).
Proof.
  induction n as [|n IH]; intros i m x y Hxy Hx Hlen; cbn zeta.
  - cbn [BCSRMatVecMultAdd2_rows].
    split; [done|]. split; [done|]. split; [intros; lia | done].
  - cbn [BCSRMatVecMultAdd2_rows].
    set (m1 := st m y 0 (ld m y 0)). set (m2 := st m1 y 1 (ld m1 y 1)).
    set (k := ix (rowp data) i).
    set (cnt := ix (rowp data) (i + 1) - k).
    assert (Hx2 : forall j, ld m2 x j = xv j).
    { intros j. unfold m2, m1. rewrite !ld_st_other by done. apply Hx. }
    assert (Hlen2 : length (m2 (fst y)) = length (m (fst y))).
    { unfold m2, m1. by rewrite !length_st. }
    destruct (BCSRMatVecMult2_row_reads data xv cnt k m2 x y Hxy Hx2
                ltac:(lia)) as (Ra & Rl & Rv & Rf).
    set (m3 := BCSRMatVecMult2_row data cnt k (4 * k) x y m2) in *.
    assert (H0 : ld m2 y 0 = ld m y 0).
    { unfold m2. rewrite ld_st_ne by lia. unfold m1. apply ld_st_eq. lia. }
    assert (H1 : ld m2 y 1 = ld m y 1).
    { unfold m2. rewrite ld_st_eq by (unfold m1; rewrite length_st; lia).
      unfold m1. by rewrite ld_st_ne by lia. }
    rewrite H0, H1 in Rv.
    assert (Hsame : forall j, j ≠ snd y + 0 -> j ≠ snd y + 1 ->
              sx (m2 (fst y)) j = sx (m (fst y)) j).
    { intros j Ha Hb. unfold m2. rewrite sx_st_ne by done. unfold m1.
      by rewrite sx_st_ne by done. }
    assert (Hx3 : forall j, ld m3 x j = xv j).
    { intros j. unfold ld. rewrite Ra by done. apply Hx2. }
    destruct (IH (i + 1) m3 x (padd y 2) Hxy Hx3) as (Ia & Il & Iv & If).
    { cbn [padd fst snd]. lia. }
    cbn [padd fst snd] in Ia, Il, If.
    set (m' := BCSRMatVecMultAdd2_rows data n (i + 1) x (padd y 2)
                 (padd y 2) m3) in *.
    split; [|split; [|split]].
    + intros b Hb. rewrite Ia, Ra by done. unfold m2, m1.
      by rewrite !st_other.
    + lia.
    + intros r Hr. destruct r as [|r].
      * rewrite Nat.add_0_r. rewrite !(ld_sx m').
        rewrite !If by lia. rewrite <- !ld_sx. cbn [Nat.mul Nat.add].
        exact Rv.
      * specialize (Iv r ltac:(lia)). rewrite !ld_padd in Iv.
        replace (i + S r) with (i + 1 + r) by lia.
        replace (2 * S r) with (2 + 2 * r) by lia.
        replace (2 + 2 * r + 1) with (2 + (2 * r + 1)) by lia.
        rewrite Iv. f_equal. rewrite !ld_sx.
        rewrite !Rf by lia. by rewrite !Hsame by lia.
    + intros j Hj. rewrite If by lia. rewrite Rf by lia.
      apply Hsame; lia.
Qed.

(** *** The kernels read and write only the buffers of their arguments *)

Lemma ld_agree E m1 m2 p j :
  mem_agree E m1 m2 -> ~ E (fst p) -> ld m1 p j = ld m2 p j.
Proof. intros Hag Hp. unfold ld. by rewrite (Hag _ Hp). Qed.

Lemma st_agree E m1 m2 p i v :
  mem_agree E m1 m2 -> mem_agree E (st m1 p i v) (st m2 p i v).
Proof.
  intros Hag b Hb. unfold st. rewrite (Hag _ Hb). done.
Qed.

Lemma BCSRMatVecMult2_row_agree E data n : forall k a x y m1 m2,
  mem_agree E m1 m2 -> ~ E (fst x) -> ~ E (fst y) ->
  mem_agree E (BCSRMatVecMult2_row data n k a x y m1)
              (BCSRMatVecMult2_row data n k a x y m2).
Proof.
  induction n as [|n IH]; intros k a x y m1 m2 Hag Hx Hy; [done|].
  cbn [BCSRMatVecMult2_row]. cbn zeta.
  rewrite !(ld_agree E m1 m2) by done.
  set (v0 := ld m2 y 0 ⊕ _).
  assert (Hag1 : mem_agree E (st m1 y 0 v0) (st m2 y 0 v0))
    by by apply st_agree.
  rewrite !(ld_agree E (st m1 y 0 v0) (st m2 y 0 v0)) by done.
  apply IH; try done. by apply st_agree.
Qed.

Lemma BCSRMatVecMult2_rows_agree E data n : forall i x y m1 m2,
  mem_agree E m1 m2 -> ~ E (fst x) -> ~ E (fst y) ->
  mem_agree E (BCSRMatVecMult2_rows data n i x y m1)
              (BCSRMatVecMult2_rows data n i x y m2).
Proof.
  induction n as [|n IH]; intros i x y m1 m2 Hag Hx Hy; [done|].
  cbn [BCSRMatVecMult2_rows]. cbn zeta.
  apply IH; try done.
  apply BCSRMatVecMult2_row_agree; try done.
  by do 2 apply st_agree.
Qed.

Lemma BCSRMatVecMultAdd2_rows_agree E data n : forall i x y z m1 m2,
  mem_agree E m1 m2 -> ~ E (fst x) -> ~ E (fst y) -> ~ E (fst z) ->
  mem_agree E (BCSRMatVecMultAdd2_rows data n i x y z m1)
              (BCSRMatVecMultAdd2_rows data n i x y z m2).
Proof.
  induction n as [|n IH]; intros i x y z m1 m2 Hag Hx Hy Hz; [done|].
  cbn [BCSRMatVecMultAdd2_rows]. cbn zeta.
  apply IH; try done.
  apply BCSRMatVecMult2_row_agree; try done.
  rewrite (ld_agree E m1 m2) by done.
  set (v0 := ld m2 y 0).
  assert (Hag1 : mem_agree E (st m1 z 0 v0) (st m2 z 0 v0))
    by by apply st_agree.
  rewrite (ld_agree E (st m1 z 0 v0) (st m2 z 0 v0)) by done.
  by apply st_agree.
Qed.

(** The kernels write to the buffer of their output pointer only. *)
Lemma BCSRMatVecMult2_row_frame data n : forall k a x y m b,
  b ≠ fst y -> BCSRMatVecMult2_row data n k a x y m b = m b.
Proof.
  induction n as [|n IH]; intros k a x y m b Hb; [done|].
  cbn [BCSRMatVecMult2_row]. cbn zeta.
  rewrite IH by done. by rewrite !st_other.
Qed.

Lemma BCSRMatVecMult2_rows_frame data n : forall i x y m b,
  b ≠ fst y -> BCSRMatVecMult2_rows data n i x y m b = m b.
Proof.
  induction n as [|n IH]; intros i x y m b Hb; [done|].
  cbn [BCSRMatVecMult2_rows]. cbn zeta.
  rewrite IH by done. rewrite BCSRMatVecMult2_row_frame by done.
  by rewrite !st_other.
Qed.
End KernelFacts.

(** ** The distributed matrix *)
Section PMatFacts.
Context {TacsScalar : Type} `{ScalarOps TacsScalar}.

(** A construction for which [PMat::init] passes its four checks. *)
Lemma PMat_init_ok rm (A_ B_ : BCSRMatData TacsScalar) d bc xe w0 :
  nrows A_ = ncols A_ -> nrows B_ <= nrows A_ ->
  ncols B_ = getDim d -> bsize B_ = bsize A_ ->
  PMat_init rm A_ B_ d bc xe w0
  = (mkPMat rm A_ B_ bc (Some d) (Some (bsize A_)) (Some xe)
       (nrows A_) (nrows B_) (nrows A_ - nrows B_) (Some (bsize A_))
       (Some (bsize A_ * (nrows A_ - nrows B_))),
     with_heap w0 (setbuf (heap w0) xe
                     (repeat s_zero (bsize A_ * getDim d)))).
Proof.
  intros Hsq Hc Hd Hb. unfold PMat_init.
  rewrite <- Hsq, Nat.eqb_refl. cbn [negb].
  destruct (Nat.ltb_spec (nrows A_) (nrows B_)); [lia|].
  rewrite Hd, Nat.eqb_refl. cbn [negb].
  by rewrite Hb, Nat.eqb_refl.
Qed.

(** C1: [PMat::mult] equals the serial evaluation
    [y = [A x; A x + B x_ext]]: every block row of [y] holds the row of
    [A * x], and the rows from [N - Nc] on (scalar offset
    [bsize*(N - Nc)]) hold in addition the row of [B * x_ext], with
    [x_ext] the values gathered by the halo. *)
Theorem PMat_mult_serial rm (A_ B_ : BCSRMatData TacsScalar) d bc xe w0
    x y view inflight w :
  nrows A_ = ncols A_ -> nrows B_ <= nrows A_ ->
  ncols B_ = getDim d -> bsize A_ = 2 -> bsize B_ = 2 ->
  x ≠ y -> x ≠ xe -> y ≠ xe ->
  length (heap w y) = 2 * nrows A_ ->
  let pm := fst (PMat_init rm A_ B_ d bc xe w0) in
  let np := N pm - Nc pm in
  let xv := sx (heap w x) in
  let xext := Halo_gather 2 d view in
  let Ax i := row_sum A_ xv i (s_zero, s_zero) in
  exists w',
    PMat_mult pm (TACSBVec x) (TACSBVec y) view inflight w = Some w' /\
    ext_offset pm = Some (2 * np) /\
    stderr w' = stderr w /\
    heap w' xe = xext /\
    (forall b, b ≠ y -> b ≠ xe -> heap w' b = heap w b) /\
    length (heap w' y) = length (heap w y) /\
    (forall i, i < np ->
       (sx (heap w' y) (2 * i), sx (heap w' y) (2 * i + 1)) = Ax i) /\
    (forall i, np <= i < N pm ->
       (sx (heap w' y) (2 * i), sx (heap w' y) (2 * i + 1))
       = row_sum B_ (sx xext) (i - np) (Ax i)).
Proof.
  intros Hsq Hc Hd Hba Hbb Hxy Hxe Hye Hlen.
  rewrite (PMat_init_ok rm A_ B_ d bc xe w0 Hsq Hc Hd) by congruence.
  rewrite Hba. intros pm np xv xext Ax. subst pm.
  cbn [fst N Nc] in np |- *.
  unfold PMat_mult. cbn [dynamic_cast_TACSBVec ext_dist ctx x_ext ext_offset
                         Aloc Bext].
  eexists. split; [reflexivity|].
  cbn [heap stderr with_heap].
  set (m1 := beginForward inflight xe (heap w)).
  unfold PMat_mult_interior. cbn [Aloc]. fold m1.
  set (m2 := BCSRMat_mult A_ (x, 0) (y, 0) m1).
  set (m3 := endForward 2 d view xe m2).
  set (off := 2 * (nrows A_ - nrows B_)).
  set (m4 := BCSRMat_multAdd B_ (xe, 0) (y, off) (y, off) m3).
  (* the interior product *)
  assert (Hx1 : forall j, ld m1 (x, 0) j = xv j).
  { intros j. unfold ld, m1, beginForward. cbn [fst snd].
    by rewrite setbuf_other. }
  assert (Hl1 : length (m1 y) = 2 * nrows A_).
  { unfold m1, beginForward. by rewrite setbuf_other. }
  destruct (BCSRMatVecMult2_rows_spec A_ xv (nrows A_) 0 m1 (x, 0) (y, 0))
    as (Ra & Rl & Rv & _); [done | done | cbn [fst snd]; lia |].
  cbn [fst snd] in Ra, Rl, Rv.
  change (BCSRMatVecMult2_rows A_ (nrows A_) 0 (x, 0) (y, 0) m1) with m2
    in Ra, Rl, Rv.
  (* the halo has arrived *)
  assert (Hx3 : forall j, ld m3 (xe, 0) j = sx xext j).
  { intros j. unfold ld, m3, endForward. cbn [fst snd].
    by rewrite setbuf_same. }
  assert (H3y : m3 y = m2 y).
  { unfold m3, endForward. by rewrite setbuf_other. }
  destruct (BCSRMatVecMultAdd2_rows_inplace B_ (sx xext) (nrows B_) 0 m3
              (xe, 0) (y, off))
    as (Sa & Sl & Sv & Sf); [cbn [fst snd]; congruence | done | |].
  { cbn [fst snd]. rewrite H3y, Rl, Hl1. unfold off. lia. }
  cbn [fst snd] in Sa, Sl, Sv, Sf.
  change (BCSRMatVecMultAdd2_rows B_ (nrows B_) 0 (xe, 0) (y, off) (y, off) m3)
    with m4 in Sa, Sl, Sv, Sf.
  split; [done|]. split; [done|].
  split.
  { rewrite Sa by congruence. unfold m3, endForward. by rewrite setbuf_same. }
  split.
  { intros b Hby Hbe. rewrite Sa by done. unfold m3, endForward.
    rewrite setbuf_other by done. rewrite Ra by done.
    unfold m1, beginForward. by rewrite setbuf_other. }
  split.
  { rewrite Sl, H3y, Rl. unfold m1, beginForward. by rewrite setbuf_other. }
  assert (HA : forall i, i < nrows A_ ->
            (sx (m2 y) (2 * i), sx (m2 y) (2 * i + 1)) = Ax i).
  { intros i Hi. specialize (Rv i Hi). by rewrite !ld_sx in Rv. }
  split.
  - intros i Hi. rewrite !Sf by (unfold off; unfold np in Hi; lia).
    rewrite H3y. apply HA. unfold np in Hi. lia.
  - intros i [Hi1 Hi2]. unfold np in *.
    specialize (Sv (i - (nrows A_ - nrows B_)) ltac:(lia)).
    rewrite !ld_sx in Sv. cbn [fst snd] in Sv.
    replace (off + 2 * (i - (nrows A_ - nrows B_))) with (2 * i)
      in Sv by (unfold off; lia).
    replace (off + (2 * (i - (nrows A_ - nrows B_)) + 1)) with (2 * i + 1)
      in Sv by (unfold off; lia).
    rewrite H3y, (HA i Hi2) in Sv. exact Sv.
Qed.

(** C6: the interior product [y := A * x] of [PMat::mult] writes the same
    [y] whatever the halo buffer [x_ext] holds when it starts (before the
    call, and while the transfer is in flight), and so does the whole of
    [mult], the gathered values being in [x_ext] before [B]'s [multAdd]
    runs. *)
Theorem PMat_mult_halo_overlap (pm : PMat) d bs off x y xe view
    inflight1 inflight2 (w1 w2 : machine) :
  ext_dist pm = Some d -> ctx pm = Some bs -> x_ext pm = Some xe ->
  ext_offset pm = Some off ->
  x ≠ xe -> y ≠ xe ->
  mem_agree (fun b => b = xe) (heap w1) (heap w2) ->
  stderr w1 = stderr w2 ->
  (forall b, b ≠ xe ->
     PMat_mult_interior pm x y xe inflight1 (heap w1) b
     = PMat_mult_interior pm x y xe inflight2 (heap w2) b) /\
  exists r1 r2,
    PMat_mult pm (TACSBVec x) (TACSBVec y) view inflight1 w1 = Some r1 /\
    PMat_mult pm (TACSBVec x) (TACSBVec y) view inflight2 w2 = Some r2 /\
    (forall b, heap r1 b = heap r2 b) /\ stderr r1 = stderr r2.
Proof.
  intros Hd Hc Hxe Hoff Hx Hy Hag Herr.
  assert (Hin : mem_agree (fun b => b = xe)
            (PMat_mult_interior pm x y xe inflight1 (heap w1))
            (PMat_mult_interior pm x y xe inflight2 (heap w2))).
  { unfold PMat_mult_interior, BCSRMat_mult, BCSRMatVecMult2.
    apply BCSRMatVecMult2_rows_agree; cbn [fst snd]; try congruence.
    intros b Hb. unfold beginForward. rewrite !setbuf_other by done.
    by apply Hag. }
  split; [intros b Hb; by apply Hin|].
  unfold PMat_mult. cbn [dynamic_cast_TACSBVec]. rewrite Hd, Hc, Hxe, Hoff.
  do 2 eexists. split; [reflexivity|]. split; [reflexivity|].
  cbn [heap stderr with_heap]. split; [|done].
  intros b.
  unfold BCSRMat_multAdd, BCSRMatVecMultAdd2.
  apply (BCSRMatVecMultAdd2_rows_agree (fun _ => False)); try tauto.
  intros b' _. unfold endForward, setbuf.
  destruct (Nat.eqb_spec b' xe) as [->|Hne]; [done|].
  by apply Hin.
Qed.
End PMatFacts.

Example PMat_mult_ex :
  option_map (fun w => heap w 1)
    (PMat_mult ex_pm (TACSBVec 0) (TACSBVec 1) ex_view [] ex_machine)
  = Some [31; 45; 68; 104]%Z.
Proof. reflexivity. Qed.

Lemma PMat_mult_serial_witness :
  exists w',
    PMat_mult ex_pm (TACSBVec 0) (TACSBVec 1) ex_view [9; 9]%Z ex_machine
      = Some w' /\
    ext_offset ex_pm = Some (2 * (N ex_pm - Nc ex_pm)) /\
    stderr w' = stderr ex_machine /\
    heap w' 2 = Halo_gather 2 (mkDist [3]) ex_view /\
    (forall b, b ≠ 1 -> b ≠ 2 -> heap w' b = heap ex_machine b) /\
    length (heap w' 1) = length (heap ex_machine 1) /\
    (forall i, i < N ex_pm - Nc ex_pm ->
       (sx (heap w' 1) (2 * i), sx (heap w' 1) (2 * i + 1))
       = row_sum ex_data (sx (heap ex_machine 0)) i (s_zero, s_zero)) /\
    (forall i, N ex_pm - Nc ex_pm <= i < N ex_pm ->
       (sx (heap w' 1) (2 * i), sx (heap w' 1) (2 * i + 1))
       = row_sum ex_B (sx (Halo_gather 2 (mkDist [3]) ex_view))
           (i - (N ex_pm - Nc ex_pm))
           (row_sum ex_data (sx (heap ex_machine 0)) i (s_zero, s_zero))).
Proof.
  apply (PMat_mult_serial (mkVarMap 0 2 [0; 2; 4]%Z) ex_data ex_B
           (mkDist [3]) None 2 ex_machine 0 1 ex_view [9; 9]%Z ex_machine);
    solve [reflexivity | cbn; lia | discriminate].
Defined.

Lemma PMat_mult_halo_overlap_witness :
  (forall b, b ≠ 2 ->
     PMat_mult_interior ex_pm 0 1 2 [] (heap ex_machine) b
     = PMat_mult_interior ex_pm 0 1 2 [5; 6]%Z (heap ex_machine) b) /\
  exists r1 r2,
    PMat_mult ex_pm (TACSBVec 0) (TACSBVec 1) ex_view [] ex_machine = Some r1 /\
    PMat_mult ex_pm (TACSBVec 0) (TACSBVec 1) ex_view [5; 6]%Z ex_machine
      = Some r2 /\
    (forall b, heap r1 b = heap r2 b) /\ stderr r1 = stderr r2.
Proof.
  apply (PMat_mult_halo_overlap ex_pm (mkDist [3]) 2 2 0 1 2 ex_view
           [] [5; 6]%Z ex_machine ex_machine);
    solve [reflexivity | discriminate | intros b Hb; reflexivity].
Defined.

(** ** The block product [BCSRMatMatMultAdd2] *)
Section MatMatFacts.
Context {TacsScalar : Type} `{ScalarOps TacsScalar}.
Implicit Types (C Av Bv : list TacsScalar) (acc : TacsScalar -> TacsScalar -> TacsScalar).

Lemma sx_insert_eq C i v : i < length C -> sx (<[i := v]> C) i = v.
Proof.
  intros Hi. unfold sx. rewrite nth_lookup.
  by rewrite list_lookup_insert_eq.
Qed.

Lemma sx_insert_ne C i j v : i ≠ j -> sx (<[i := v]> C) j = sx C j.
Proof.
  intros Hne. unfold sx. rewrite !nth_lookup.
  by rewrite list_lookup_insert_ne.
Qed.

Lemma mono_range (f : nat -> nat) lo hi :
  (forall t, lo <= t -> t + 1 < hi -> f t <= f (t + 1)) ->
  forall t t', lo <= t -> t <= t' -> t' < hi -> f t <= f t'.
Proof.
  intros Hf t t' Hlo Hle Hhi.
  induction Hle as [|t' Hle IH]; [lia|].
  specialize (Hf t' ltac:(lia) ltac:(lia)).
  replace (t' + 1) with (S t') in Hf by lia. lia.
Qed.

Lemma smono_range (f : nat -> nat) lo hi :
  (forall t, lo <= t -> t + 1 < hi -> f t < f (t + 1)) ->
  forall t t', lo <= t -> t < t' -> t' < hi -> f t < f t'.
Proof.
  intros Hf t t' Hlo Hlt Hhi.
  induction Hlt as [|t' Hlt IH].
  - specialize (Hf t ltac:(lia) ltac:(lia)).
    by replace (t + 1) with (S t) in Hf by lia.
  - specialize (Hf t' ltac:(lia) ltac:(lia)).
    replace (t' + 1) with (S t') in Hf by lia. lia.
Qed.

(** The scan of the row of C stops at the first column that is not below
    [bcol], the pointer [c] following [cp]. *)
Lemma skip_c_spec ccols bcol cp_end : forall fuel cp c,
  cp <= cp_end -> cp_end - cp <= fuel ->
  let r := skip_c ccols fuel cp cp_end c bcol in
  cp <= fst r /\ fst r <= cp_end /\ snd r = c + 4 * (fst r - cp) /\
  (forall q, cp <= q < fst r -> ix ccols q < bcol) /\
  (fst r < cp_end -> bcol <= ix ccols (fst r)).
Proof.
  induction fuel as [|fuel IH]; intros cp c Hle Hfuel; cbn zeta.
  - cbn [skip_c fst snd]. repeat split; intros; lia.
  - cbn [skip_c].
    destruct (Nat.ltb_spec cp cp_end) as [Hlt|Hge]; cbn [andb].
    + destruct (Nat.ltb_spec (ix ccols cp) bcol) as [Hc|Hc].
      * destruct (IH (cp + 1) (c + 4) ltac:(lia) ltac:(lia))
          as (I1 & I2 & I3 & I4 & I5).
        repeat split; try lia.
        intros q Hq. destruct (decide (q = cp)) as [->|Hne]; [done|].
        apply I4. lia.
      * cbn [fst snd]. repeat split; intros; lia.
    + cbn [fst snd]. repeat split; intros; lia.
Qed.

(** The four updates of one block product. *)
Lemma block_update_spec acc Av Bv a b c C :
  c + 3 < length C ->
  let C' := block_update acc Av Bv a b c C in
  length C' = length C /\
  (forall e, e < 4 ->
     sx C' (c + e) = acc (sx C (c + e)) (block_prod_entry Av Bv a b e)) /\
  (forall idx, idx < c \/ c + 4 <= idx -> sx C' idx = sx C idx).
Proof.
  intros Hlen. unfold block_update. cbn zeta.
  split; [by rewrite !length_insert|]. split.
  - intros e He.
    destruct e as [|[|[|[|e]]]]; [| | | |lia]; cbn [block_prod_entry].
    + rewrite Nat.add_0_r. rewrite !sx_insert_ne by lia.
      rewrite sx_insert_eq by lia. done.
    + rewrite !(sx_insert_ne _ _ (c + 1)) by lia.
      rewrite sx_insert_eq by (rewrite !length_insert; lia).
      by rewrite sx_insert_ne by lia.
    + rewrite !(sx_insert_ne _ (c + 3) (c + 2)) by lia.
      rewrite sx_insert_eq by (rewrite !length_insert; lia).
      by rewrite !sx_insert_ne by lia.
    + rewrite sx_insert_eq by (rewrite !length_insert; lia).
      by rewrite !sx_insert_ne by lia.
  - intros idx Hidx. by rewrite !sx_insert_ne by lia.
Qed.

Lemma masked_row_nomatch acc Av Bv bcols a col e : forall ks c,
  (forall t, In t ks -> ix bcols t ≠ col) ->
  masked_row acc Av Bv bcols a col e ks c = c.
Proof.
  induction ks as [|k ks IH]; intros c Hno; [done|].
  unfold masked_row. cbn [fold_left].
  destruct (Nat.eqb_spec (ix bcols k) col) as [Heq|_].
  - exfalso. apply (Hno k); [by left | done].
  - apply IH. intros t Ht. apply Hno. by right.
Qed.

(** The merge of one row of B into one row of C: every stored entry of
    the row of C receives the products of the blocks of B in its column,
    and nothing else changes. *)
Lemma MatMatMultAdd2_kp_spec acc Av Bv bcols ccols a c_lo cp_end :
  forall n kp cp C,
  c_lo <= cp -> cp <= cp_end -> 4 * cp_end <= length C ->
  (forall q, c_lo <= q -> q + 1 < cp_end -> ix ccols q < ix ccols (q + 1)) ->
  (forall t, kp <= t -> t + 1 < kp + n -> ix bcols t <= ix bcols (t + 1)) ->
  (forall q, c_lo <= q < cp -> 0 < n -> ix ccols q < ix bcols kp) ->
  let C' := MatMatMultAdd2_kp acc Av Bv bcols ccols n kp cp cp_end
              a (4 * kp) (4 * cp) C in
  length C' = length C /\
  (forall q e, c_lo <= q < cp_end -> e < 4 ->
     sx C' (4 * q + e)
     = masked_row acc Av Bv bcols a (ix ccols q) e (seq kp n)
         (sx C (4 * q + e))) /\
  (forall idx, idx < 4 * c_lo \/ 4 * cp_end <= idx -> sx C' idx = sx C idx).
Proof.
  induction n as [|n IH]; intros kp cp C Hlo Hhi Hlen HsC HsB Hpre;
    cbn zeta.
  - cbn [MatMatMultAdd2_kp]. by repeat split.
  - cbn [MatMatMultAdd2_kp].
    destruct (skip_c_spec ccols (ix bcols kp) cp_end (cp_end - cp) cp
                (4 * cp) Hhi ltac:(lia)) as (S1 & S2 & S3 & S4 & S5).
    destruct (skip_c ccols (cp_end - cp) cp cp_end (4 * cp) (ix bcols kp))
      as [cp' c'] eqn:Hskip.
    cbn [fst snd] in S1, S2, S3, S4, S5.
    assert (Hc' : c' = 4 * cp') by lia. clear S3. subst c'.
    assert (HB : forall t, kp <= t < kp + S n -> ix bcols kp <= ix bcols t).
    { intros t Ht. apply (mono_range (ix bcols) kp (kp + S n)); [done|lia..]. }
    assert (Hbelow : forall q, c_lo <= q < cp' -> ix ccols q < ix bcols kp).
    { intros q Hq. destruct (Nat.lt_ge_cases q cp).
      - apply Hpre; lia.
      - apply S4. lia. }
    destruct (Nat.leb_spec cp_end cp') as [Hbrk|Hin].
    + (* break: the row of C is exhausted *)
      split; [done|]. split; [|done].
      intros q e Hq He. symmetry. apply masked_row_nomatch.
      intros t Ht. apply in_seq in Ht.
      specialize (HB t ltac:(lia)). specialize (Hbelow q ltac:(lia)). lia.
    + specialize (S5 Hin).
      set (C1 := if ix bcols kp =? ix ccols cp'
                 then block_update acc Av Bv a (4 * kp) (4 * cp') C else C).
      assert (HC1 : length C1 = length C /\
                (forall q e, c_lo <= q < cp_end -> e < 4 ->
                   sx C1 (4 * q + e)
                   = masked_row acc Av Bv bcols a (ix ccols q) e [kp]
                       (sx C (4 * q + e))) /\
                (forall idx, idx < 4 * c_lo \/ 4 * cp_end <= idx ->
                   sx C1 idx = sx C idx)).
      { unfold C1, masked_row. cbn [fold_left].
        destruct (Nat.eqb_spec (ix bcols kp) (ix ccols cp')) as [Heq|Hne].
        - destruct (block_update_spec acc Av Bv a (4 * kp) (4 * cp') C
                      ltac:(lia)) as (U1 & U2 & U3).
          split; [done|]. split.
          + intros q e Hq He.
            destruct (decide (q = cp')) as [->|Hq'].
            * rewrite Heq, Nat.eqb_refl. by apply U2.
            * assert (ix ccols q ≠ ix ccols cp').
              { destruct (Nat.lt_ge_cases q cp').
                - pose proof (smono_range (ix ccols) c_lo cp_end HsC q cp').
                  lia.
                - pose proof (smono_range (ix ccols) c_lo cp_end HsC cp' q).
                  lia. }
              destruct (Nat.eqb_spec (ix bcols kp) (ix ccols q)); [lia|].
              apply U3. lia.
          + intros idx Hidx. apply U3. lia.
        - split; [done|]. split; [|done].
          intros q e Hq He.
          destruct (Nat.eqb_spec (ix bcols kp) (ix ccols q)) as [Heq|]; [|done].
          exfalso.
          destruct (Nat.lt_ge_cases q cp').
          + specialize (Hbelow q ltac:(lia)). lia.
          + destruct (decide (q = cp')) as [->|]; [done|].
            pose proof (smono_range (ix ccols) c_lo cp_end HsC cp' q). lia. }
      destruct HC1 as (L1 & V1 & F1). fold C1.
      replace (4 * kp + 4) with (4 * (kp + 1)) by lia.
      destruct (IH (kp + 1) cp' C1) as (I1 & I2 & I3); try lia; try done.
      { intros t Ht1 Ht2. apply HsB; lia. }
      { intros q Hq Hn. specialize (Hbelow q Hq).
        specialize (HB (kp + 1) ltac:(lia)). lia. }
      split; [lia|]. split.
      * intros q e Hq He. rewrite I2 by done. rewrite V1 by done.
        unfold masked_row. cbn [seq fold_left].
        by replace (S kp) with (kp + 1) by lia.
      * intros idx Hidx. rewrite I3 by done. by apply F1.
Qed.

(** One row of A: the rows of B named by its entries are merged into row
    [i] of C one after the other. *)
Lemma MatMatMultAdd2_jp_spec acc (Adata Bdata Cdata : BCSRMatData TacsScalar) i :
  forall n jp C,
  ix (rowp Cdata) i <= ix (rowp Cdata) (i + 1) ->
  4 * ix (rowp Cdata) (i + 1) <= length C ->
  (forall q, ix (rowp Cdata) i <= q -> q + 1 < ix (rowp Cdata) (i + 1) ->
             ix (cols Cdata) q < ix (cols Cdata) (q + 1)) ->
  cols_ascending Bdata ->
  let C' := MatMatMultAdd2_jp acc Adata Bdata Cdata n jp i C in
  length C' = length C /\
  (forall q e, ix (rowp Cdata) i <= q < ix (rowp Cdata) (i + 1) -> e < 4 ->
     sx C' (4 * q + e)
     = fold_left (fun c jp =>
         let j := ix (cols Adata) jp in
         masked_row acc (A Adata) (A Bdata) (cols Bdata) (4 * jp)
           (ix (cols Cdata) q) e
           (seq (ix (rowp Bdata) j)
                (ix (rowp Bdata) (j + 1) - ix (rowp Bdata) j)) c)
         (seq jp n) (sx C (4 * q + e))) /\
  (forall idx, idx < 4 * ix (rowp Cdata) i \/
               4 * ix (rowp Cdata) (i + 1) <= idx -> sx C' idx = sx C idx).
Proof.
  induction n as [|n IH]; intros jp C Hrow Hlen HsC HsB; cbn zeta.
  - cbn [MatMatMultAdd2_jp]. by repeat split.
  - cbn [MatMatMultAdd2_jp]. cbn zeta.
    set (j := ix (cols Adata) jp).
    set (kp := ix (rowp Bdata) j).
    set (cnt := ix (rowp Bdata) (j + 1) - kp).
    destruct (MatMatMultAdd2_kp_spec acc (A Adata) (A Bdata) (cols Bdata)
                (cols Cdata) (4 * jp) (ix (rowp Cdata) i)
                (ix (rowp Cdata) (i + 1)) cnt kp (ix (rowp Cdata) i) C)
      as (K1 & K2 & K3); try done.
    { intros t Ht1 Ht2. apply (HsB j); unfold kp, cnt in *; lia. }
    { intros q Hq. lia. }
    set (C1 := MatMatMultAdd2_kp _ _ _ _ _ _ _ _ _ _ _ _ C) in *.
    destruct (IH (jp + 1) C1) as (I1 & I2 & I3); try done; [lia|].
    split; [lia|]. split.
    + intros q e Hq He. rewrite I2 by done. rewrite K2 by done.
      cbn [seq fold_left]. fold j. fold kp. fold cnt.
      by replace (S jp) with (jp + 1) by lia.
    + intros idx Hidx. rewrite I3 by done. by apply K3.
Qed.

(** All rows. *)
Lemma MatMatMultAdd2_i_spec acc (Adata Bdata Cdata : BCSRMatData TacsScalar) :
  forall n i C,
  (forall r, i <= r < i + n -> ix (rowp Cdata) r <= ix (rowp Cdata) (r + 1)) ->
  4 * ix (rowp Cdata) (i + n) <= length C ->
  (forall r q, i <= r < i + n -> ix (rowp Cdata) r <= q ->
               q + 1 < ix (rowp Cdata) (r + 1) ->
               ix (cols Cdata) q < ix (cols Cdata) (q + 1)) ->
  cols_ascending Bdata ->
  let C' := MatMatMultAdd2_i acc Adata Bdata Cdata n i C in
  length C' = length C /\
  (forall r q e, i <= r < i + n ->
     ix (rowp Cdata) r <= q < ix (rowp Cdata) (r + 1) -> e < 4 ->
     sx C' (4 * q + e)
     = masked_sum acc Adata Bdata r (ix (cols Cdata) q) e (sx C (4 * q + e))) /\
  (forall idx, idx < 4 * ix (rowp Cdata) i \/
               4 * ix (rowp Cdata) (i + n) <= idx -> sx C' idx = sx C idx).
Proof.
  induction n as [|n IH]; intros i C Hmono Hlen HsC HsB; cbn zeta.
  - cbn [MatMatMultAdd2_i]. split; [done|]. split; [intros; lia | done].
  - cbn [MatMatMultAdd2_i]. cbn zeta.
    assert (Hm : forall r r', i <= r -> r <= r' -> r' <= i + S n ->
              ix (rowp Cdata) r <= ix (rowp Cdata) r').
    { intros r r' Hr Hle Hr'. induction Hle as [|r' Hle IHle]; [lia|].
      specialize (Hmono r' ltac:(lia)).
      replace (r' + 1) with (S r') in Hmono by lia. lia. }
    pose proof (Hm (i + 1) (i + S n) ltac:(lia) ltac:(lia) ltac:(lia)) as Hend.
    destruct (MatMatMultAdd2_jp_spec acc Adata Bdata Cdata i
                (ix (rowp Adata) (i + 1) - ix (rowp Adata) i)
                (ix (rowp Adata) i) C)
      as (J1 & J2 & J3); try done.
    { apply Hmono. lia. }
    { lia. }
    { intros q Hq1 Hq2. apply (HsC i); [lia|done..]. }
    set (C1 := MatMatMultAdd2_jp _ _ _ _ _ _ _ C) in *.
    destruct (IH (i + 1) C1) as (I1 & I2 & I3); try done.
    { intros r Hr. apply Hmono. lia. }
    { replace (i + 1 + n) with (i + S n) by lia. lia. }
    { intros r q Hr. apply (HsC r). lia. }
    replace (i + 1 + n) with (i + S n) in I3 by lia.
    split; [lia|]. split.
    + intros r q e Hr Hq He.
      destruct (decide (r = i)) as [->|Hne].
      * rewrite I3 by lia. unfold masked_sum. by apply J2.
      * rewrite (I2 r q e) by (done || lia). f_equal. apply J3.
        pose proof (Hm (i + 1) r ltac:(lia) ltac:(lia) ltac:(lia)). lia.
    + intros idx Hidx.
      pose proof (Hm i (i + 1) ltac:(lia) ltac:(lia) ltac:(lia)).
      rewrite I3 by lia. apply J3. lia.
Qed.

(** With the two laws, each of the three loop nests adds [alpha * t]. *)
Lemma accum_alpha `{!ScalarLaws TacsScalar} alpha c t :
  accum alpha c t = c ⊕ alpha ⊗ t.
Proof.
  unfold accum.
  destruct (s_eqb alpha s_one) eqn:E1; [by apply eqb_one_mul|].
  destruct (s_eqb alpha s_mone) eqn:E2; [by apply eqb_mone_mul|done].
Qed.

Lemma masked_sum_ext acc1 acc2 (Adata Bdata : BCSRMatData TacsScalar) i col e c :
  (forall c t, acc1 c t = acc2 c t) ->
  masked_sum acc1 Adata Bdata i col e c = masked_sum acc2 Adata Bdata i col e c.
Proof.
  intros Hacc. unfold masked_sum.
  generalize (seq (ix (rowp Adata) i)
                (ix (rowp Adata) (i + 1) - ix (rowp Adata) i)).
  intros js. revert c. induction js as [|jp js IH]; intros c; [done|].
  cbn [fold_left]. rewrite IH. f_equal. cbn zeta. unfold masked_row.
  generalize (seq (ix (rowp Bdata) (ix (cols Adata) jp))
                (ix (rowp Bdata) (ix (cols Adata) jp + 1)
                 - ix (rowp Bdata) (ix (cols Adata) jp))).
  intros ks. revert c. induction ks as [|kp ks IHk]; intros c; [done|].
  cbn [fold_left]. rewrite IHk. by rewrite Hacc.
Qed.

(** C10: for operands with ascending columns, [BCSRMatMatMultAdd2]
    leaves in every stored block [(i,k)] of C its old value plus the sum
    over the stored [j] of [alpha * A(i,j) * B(j,k)]; products that have
    no stored target in C are dropped, the pattern and size of C and all
    its other entries are unchanged. *)
Theorem BCSRMatMatMultAdd2_masked `{!ScalarLaws TacsScalar} alpha
    (Adata Bdata Cdata : BCSRMatData TacsScalar) :
  rows_in_bounds Cdata (nrows Adata) ->
  cols_ascending Bdata ->
  cols_strictly_ascending Cdata (nrows Adata) ->
  let C' := BCSRMatMatMultAdd2 alpha Adata Bdata Cdata in
  length C' = length (A Cdata) /\
  (forall i cp e, i < nrows Adata ->
     ix (rowp Cdata) i <= cp < ix (rowp Cdata) (i + 1) -> e < 4 ->
     sx C' (4 * cp + e)
     = masked_sum (fun c t => c ⊕ alpha ⊗ t) Adata Bdata i
         (ix (cols Cdata) cp) e (sx (A Cdata) (4 * cp + e))) /\
  (forall idx, idx < 4 * ix (rowp Cdata) 0 \/
               4 * ix (rowp Cdata) (nrows Adata) <= idx ->
     sx C' idx = sx (A Cdata) idx).
Proof.
  intros [Hmono Hlen] HsB HsC. cbn zeta. unfold BCSRMatMatMultAdd2.
  destruct (MatMatMultAdd2_i_spec (accum alpha) Adata Bdata Cdata
              (nrows Adata) 0 (A Cdata)) as (I1 & I2 & I3); try done.
  { intros r Hr. apply Hmono. lia. }
  { intros r q Hr. apply (HsC r). lia. }
  split; [done|]. split; [|done].
  intros i cp e Hi Hcp He. rewrite (I2 i cp e) by (done || lia).
  apply masked_sum_ext. apply accum_alpha.
Qed.
End MatMatFacts.

#[export] Instance Z_ScalarLaws : ScalarLaws Z.
Proof.
  split; intros a c t Ha; apply Z.eqb_eq in Ha; subst a; cbn; lia.
Qed.

Example BCSRMatMatMultAdd2_ex_one :
  BCSRMatMatMultAdd2 1%Z ex_MA ex_MB ex_MC
  = [11; 12; 13; 14;   25; 28; 27; 30]%Z.
Proof. reflexivity. Qed.

Example BCSRMatMatMultAdd2_ex_minus_one :
  BCSRMatMatMultAdd2 (-1)%Z ex_MA ex_MB ex_MC
  = [9; 8; 7; 6;   15; 12; 13; 10]%Z.
Proof. reflexivity. Qed.

Example BCSRMatMatMultAdd2_ex_two :
  BCSRMatMatMultAdd2 2%Z ex_MA ex_MB ex_MC
  = [12; 14; 16; 18;   30; 36; 34; 40]%Z.
Proof. reflexivity. Qed.

Lemma BCSRMatMatMultAdd2_masked_witness :
  let C' := BCSRMatMatMultAdd2 2%Z ex_MA ex_MB ex_MC in
  length C' = length (A ex_MC) /\
  (forall i cp e, i < nrows ex_MA ->
     ix (rowp ex_MC) i <= cp < ix (rowp ex_MC) (i + 1) -> e < 4 ->
     sx C' (4 * cp + e)
     = masked_sum (fun c t => c ⊕ 2%Z ⊗ t) ex_MA ex_MB i
         (ix (cols ex_MC) cp) e (sx (A ex_MC) (4 * cp + e))) /\
  (forall idx, idx < 4 * ix (rowp ex_MC) 0 \/
               4 * ix (rowp ex_MC) (nrows ex_MA) <= idx ->
     sx C' idx = sx (A ex_MC) idx).
Proof.
  apply (BCSRMatMatMultAdd2_masked 2%Z ex_MA ex_MB ex_MC).
  - split; [intros i Hi | cbn; lia].
    destruct i as [|i]; [cbn; lia | cbn in Hi; lia].
  - intros j kp H1 H2.
    destruct (le_lt_dec 2 j) as [Hj|Hj].
    { unfold ix in H2. rewrite (nth_overflow (rowp ex_MB)) in H2
        by (cbn; lia). lia. }
    destruct j as [|[|j]]; cbn in H1, H2; [| |lia].
    + assert (kp = 0) as -> by lia. cbn. lia.
    + assert (kp = 2) as -> by lia. cbn. lia.
  - intros i cp Hi H1 H2. cbn in Hi.
    assert (i = 0) as -> by lia. cbn in H1, H2.
    assert (cp = 0) as -> by lia. cbn. lia.
Defined.

(** ** The preconditioners *)
Section PreconditionerFacts.
Context {TacsScalar : Type} `{ScalarOps TacsScalar}.
Local Abbreviation machine := (@machine TacsScalar).
Local Abbreviation PMat := (@PMat TacsScalar).
Local Abbreviation PSOR := (@PSOR TacsScalar).
Context {double : Type}.
Variable BCSRMat_ILU :
  BCSRMatData TacsScalar -> Z -> double -> BCSRMatData TacsScalar.
Variable BCSRMat_copyValues :
  BCSRMatData TacsScalar -> BCSRMatData TacsScalar -> BCSRMatData TacsScalar.
Variable BCSRMat_addDiag :
  BCSRMatData TacsScalar -> TacsScalar -> BCSRMatData TacsScalar.
Variable BCSRMat_factor : BCSRMatData TacsScalar -> BCSRMatData TacsScalar.
Variable BCSRMat_applySOR BCSRMat_applySSOR :
  BCSRMatData TacsScalar -> list TacsScalar -> list TacsScalar ->
  TacsScalar -> Z -> list TacsScalar.
Variable GMRES_solve :
  @GMRES TacsScalar double -> BCSRMatData TacsScalar -> nat -> nat ->
  mem (TacsScalar := TacsScalar) -> mem (TacsScalar := TacsScalar).

(** C7: with [zero_guess] set, [PSOR::applyFactor(x, y)] zeroes [y] and
    runs the [iters] sweeps of SOR (SSOR when [isSymmetric] is set) of A
    against [x] on it.  The new [y] is the sweep of the array of [x] and
    the zero vector; every other array, the halo buffer [yext] and the
    scratch vector among them, is left as it was, and neither [Bext],
    the external map nor the values of the other ranks enter the
    result. *)
Theorem PSOR_applyFactor_zero_guess (this : PSOR) x y b zg sym aloc omega
    iters view inflight (w : machine) :
  sor_bvec this = Some (Some b) ->
  sor_zero_guess this = Some zg -> zg ≠ 0%Z ->
  sor_isSymmetric this = Some sym ->
  sor_Aloc this = Some aloc ->
  sor_omega this = Some omega ->
  sor_iters this = Some iters ->
  x ≠ y ->
  let sweep := if (sym =? 0)%Z then BCSRMat_applySOR else BCSRMat_applySSOR in
  exists w',
    PSOR_applyFactor BCSRMat_applySOR BCSRMat_applySSOR this
      (TACSBVec x) (TACSBVec y) view inflight w = Done w' /\
    stderr w' = stderr w /\
    heap w' y = sweep aloc (heap w x) (repeat s_zero (length (heap w y)))
                  omega iters /\
    (forall b', b' ≠ y -> heap w' b' = heap w b').
Proof.
  intros Hb Hzg Hnz Hsym Ha Ho Hi Hxy sweep.
  unfold PSOR_applyFactor. cbn [dynamic_cast_TACSBVec].
  rewrite Hb, Hzg, Hsym, Ha, Ho, Hi. cbn [member deref mbind outcome_bind obind].
  destruct (Z.eqb_spec zg 0) as [|_]; [done|]. cbn [negb].
  unfold sweep.
  destruct (Z.eqb_spec sym 0) as [_|_]; cbn [negb];
    (eexists; split; [reflexivity|]; cbn [heap stderr with_heap];
     split; [done|]; split;
     [ rewrite setbuf_same; unfold TACSBVec_zeroEntries;
       rewrite setbuf_same; by rewrite setbuf_other
     | intros b' Hb'; rewrite setbuf_other by done;
       unfold TACSBVec_zeroEntries; by rewrite setbuf_other ]).
Qed.

(** C8: the constructor of [PSOR] reads the member [ext_dist]
    ([ext_dist->getDim()], to size [yext]) before it assigns it from the
    external column map of the matrix: every construction stops at this
    read of an unassigned member (or earlier, should the matrix itself
    have no block size). *)
Theorem PSOR_ctor_uninitialized_ext_dist (mat : PMat) zg om it sym vb ye
    (w : machine) :
  PSOR_ctor mat zg om it sym vb ye w
  = Fault (match pm_bsize mat with
           | Some _ => UninitializedRead "ext_dist"
           | None => UninitializedRead "PMat::bsize"
           end).
Proof.
  unfold PSOR_ctor. destruct (pm_bsize mat) as [bs|]; reflexivity.
Qed.

(** C3: on a communicator of one rank the constructor of
    [ApproximateSchur] builds no Schur operator, interface vector or
    inner GMRES, and after [setDiagShift(alpha)] and [factor()] its
    [applyFactor(x, y)] gives what [AdditiveSchwarz::applyFactor] gives
    for the same matrix and shift: the same factor [Apc], and the full
    solve [U^{-1} L^{-1}] of it from [x] into [y]; the inner solver does
    not enter the result. *)
Theorem ApproximateSchur_single_rank (mat : PMat) levFill fill
    inner_iters (inner_rtol inner_atol : double) xs rv wv alpha
    txvec tyvec (w : machine) :
  mpi_size (rmap mat) = 1 ->
  exists S0,
    ApproximateSchur_ctor BCSRMat_ILU mat levFill fill inner_iters
      inner_rtol inner_atol xs rv wv = Done S0 /\
    sc_gsmat S0 = None /\ sc_rvec S0 = None /\ sc_wvec S0 = None /\
    sc_inner_ksm S0 = None /\
    let S1 := ApproximateSchur_factor BCSRMat_copyValues BCSRMat_addDiag
                BCSRMat_factor (ApproximateSchur_setDiagShift S0 alpha) in
    let P1 := AdditiveSchwarz_factor BCSRMat_copyValues BCSRMat_addDiag
                BCSRMat_factor
                (AdditiveSchwarz_setDiagShift
                   (AdditiveSchwarz_ctor BCSRMat_ILU mat levFill fill) alpha) in
    sc_Apc S1 = as_Apc P1 /\
    exists w',
      ApproximateSchur_applyFactor GMRES_solve S1 txvec tyvec w = Done w' /\
      heap w' = heap (AdditiveSchwarz_applyFactor P1 txvec tyvec w) /\
      (forall x y, txvec = TACSBVec x -> tyvec = TACSBVec y ->
         w' = AdditiveSchwarz_applyFactor P1 txvec tyvec w /\
         heap w' = BCSRMat_applyFactor (as_Apc P1) (x, 0) (y, 0) (heap w)).
Proof.
  intros Hsize. unfold ApproximateSchur_ctor. rewrite Hsize.
  cbn [Nat.ltb Nat.leb]. eexists. split; [reflexivity|].
  cbn [sc_gsmat sc_rvec sc_wvec sc_inner_ksm].
  do 4 (split; [reflexivity|]).
  cbn zeta. split; [reflexivity|].
  unfold ApproximateSchur_applyFactor, AdditiveSchwarz_applyFactor.
  cbn [ApproximateSchur_factor ApproximateSchur_setDiagShift sc_inner_ksm
       sc_Apc sc_Aloc sc_alpha AdditiveSchwarz_factor
       AdditiveSchwarz_setDiagShift AdditiveSchwarz_ctor as_Apc as_Aloc
       as_alpha].
  destruct txvec as [x|], tyvec as [y|]; cbn [dynamic_cast_TACSBVec];
    eexists; (split; [reflexivity|]); (split; [reflexivity|]);
    intros x' y' Hx' Hy'; try discriminate.
  injection Hx' as <-. injection Hy' as <-. by split.
Qed.
End PreconditionerFacts.

Lemma PSOR_applyFactor_zero_guess_witness :
  exists w',
    PSOR_applyFactor ex_sweep ex_sweep ex_PSOR (TACSBVec 0) (TACSBVec 1)
      ex_view [] ex_machine = Done w' /\
    stderr w' = stderr ex_machine /\
    heap w' 1 = ex_sweep ex_data (heap ex_machine 0)
                  (repeat 0%Z (length (heap ex_machine 1))) 1%Z 4%Z /\
    (forall b', b' ≠ 1 -> heap w' b' = heap ex_machine b').
Proof.
  refine (PSOR_applyFactor_zero_guess ex_sweep ex_sweep ex_PSOR 0 1 3 1%Z 0%Z
            ex_data 1%Z 4%Z ex_view [] ex_machine _ _ _ _ _ _ _ _);
    solve [reflexivity | discriminate].
Defined.

Example PSOR_applyFactor_ex :
  match PSOR_applyFactor ex_sweep ex_sweep ex_PSOR (TACSBVec 0) (TACSBVec 1)
          ex_view [] ex_machine with
  | Done w' => heap w' 1 = [4; 4; 8; 12]%Z /\ heap w' 2 = []
  | Fault _ => False
  end.
Proof. split; reflexivity. Qed.

(** Without the zero initial guess the scratch vector holds [x - B*yext]
    on the interface rows before the sweep. *)
Example PSOR_applyFactor_guess_ex :
  match PSOR_applyFactor ex_sweep ex_sweep ex_PSOR_guess (TACSBVec 0)
          (TACSBVec 1) ex_view [] ex_machine_b with
  | Done w' => heap w' 3 = [1; 1; -18; -43]%Z /\ heap w' 2 = [6; 7]%Z /\
               heap w' 1 = [11; 11; -65; -165]%Z
  | Fault _ => False
  end.
Proof. repeat split; reflexivity. Qed.

Lemma ApproximateSchur_single_rank_witness :
  exists S0,
    ApproximateSchur_ctor (fun d _ _ => d) ex_pm1 0%Z tt 10%Z tt tt 5 6 7
      = Done S0 /\
    sc_gsmat S0 = None /\ sc_rvec S0 = None /\ sc_wvec S0 = None /\
    sc_inner_ksm S0 = None /\
    let S1 := ApproximateSchur_factor copy_same_pattern (fun d _ => d)
                (fun d => d) (ApproximateSchur_setDiagShift S0 0%Z) in
    let P1 := AdditiveSchwarz_factor copy_same_pattern (fun d _ => d)
                (fun d => d)
                (AdditiveSchwarz_setDiagShift
                   (AdditiveSchwarz_ctor (fun d _ _ => d) ex_pm1 0%Z tt) 0%Z) in
    sc_Apc S1 = as_Apc P1 /\
    exists w',
      ApproximateSchur_applyFactor (fun _ _ _ _ m => m) S1 (TACSBVec 0)
        (TACSBVec 1) ex_machine = Done w' /\
      heap w' = heap (AdditiveSchwarz_applyFactor P1 (TACSBVec 0) (TACSBVec 1)
                        ex_machine) /\
      (forall x y, TACSBVec 0 = TACSBVec x -> TACSBVec 1 = TACSBVec y ->
         w' = AdditiveSchwarz_applyFactor P1 (TACSBVec 0) (TACSBVec 1)
                ex_machine /\
         heap w' = BCSRMat_applyFactor (as_Apc P1) (x, 0) (y, 0)
                     (heap ex_machine)).
Proof.
  apply (ApproximateSchur_single_rank (fun d _ _ => d) copy_same_pattern
           (fun d _ => d) (fun d => d) (fun _ _ _ _ m => m) ex_pm1 0%Z tt 10%Z
           tt tt 5 6 7 0%Z (TACSBVec 0) (TACSBVec 1) ex_machine).
  reflexivity.
Defined.

(** ** [PMat::copyValues] *)
Section CopyValuesFacts.
Context {TacsScalar : Type} `{ScalarOps TacsScalar}.
Local Abbreviation machine := (@machine TacsScalar).
Local Abbreviation PMat := (@PMat TacsScalar).

Lemma copy_same_pattern_copies : copies_values (copy_same_pattern (TacsScalar := TacsScalar)).
Proof. intros dst src Hs. unfold copy_same_pattern. by rewrite Hs. Qed.

(** C5, as amended: [copyValues] reports the type mismatch, and leaves
    the matrix and the arrays alone, exactly when [other] is not a [PMat];
    for a [PMat] it reports nothing and hands A and B to
    [BCSRMat::copyValues], which for a matrix of the same sparsity copies
    the values of A and B element-wise. *)
Theorem PMat_copyValues_dynamic_kind K (pm : PMat) mat (w : machine) :
  copies_values K ->
  let r := PMat_copyValues K pm mat w in
  (stderr (snd r) = stderr w ++ [copyValues_msg]
   <-> dynamic_cast_PMat mat = None) /\
  (dynamic_cast_PMat mat = None ->
     fst r = pm /\ heap (snd r) = heap w) /\
  (forall p, mat = IsPMat p ->
     snd r = w /\
     Aloc (fst r) = K (Aloc pm) (Aloc p) /\
     Bext (fst r) = K (Bext pm) (Bext p)) /\
  (forall p, mat = IsPMat p -> same_sparsity pm p = true ->
     Aloc (fst r) = set_values (Aloc pm) (A (Aloc p)) /\
     Bext (fst r) = set_values (Bext pm) (A (Bext p))).
Proof.
  intros HK r. subst r. unfold PMat_copyValues.
  destruct mat as [p|]; cbn [dynamic_cast_PMat fst snd].
  - split.
    { split; [|done]. intros Habs. exfalso.
      apply (f_equal length) in Habs. rewrite length_app in Habs.
      cbn in Habs. lia. }
    split; [done|]. split.
    + intros p' [= <-]. by cbn [Aloc Bext set_AB].
    + intros p' [= <-] Hs. unfold same_sparsity in Hs.
      apply andb_true_iff in Hs as [Ha Hb]. cbn [Aloc Bext set_AB].
      by rewrite !HK.
  - split; [done|]. split; [done|]. split; intros p' Hp'; discriminate.
Qed.
End CopyValuesFacts.

Lemma PMat_copyValues_dynamic_kind_witness :
  let r := PMat_copyValues copy_same_pattern ex_pm (IsPMat ex_pm_values)
             ex_machine in
  (stderr (snd r) = stderr ex_machine ++ [copyValues_msg]
   <-> dynamic_cast_PMat (IsPMat ex_pm_values) = None) /\
  (dynamic_cast_PMat (IsPMat ex_pm_values) = None ->
     fst r = ex_pm /\ heap (snd r) = heap ex_machine) /\
  (forall p, IsPMat ex_pm_values = IsPMat p ->
     snd r = ex_machine /\
     Aloc (fst r) = copy_same_pattern (Aloc ex_pm) (Aloc p) /\
     Bext (fst r) = copy_same_pattern (Bext ex_pm) (Bext p)) /\
  (forall p, IsPMat ex_pm_values = IsPMat p -> same_sparsity ex_pm p = true ->
     Aloc (fst r) = set_values (Aloc ex_pm) (A (Aloc p)) /\
     Bext (fst r) = set_values (Bext ex_pm) (A (Bext p))).
Proof.
  apply (PMat_copyValues_dynamic_kind copy_same_pattern ex_pm
           (IsPMat ex_pm_values) ex_machine).
  apply copy_same_pattern_copies.
Defined.

Example PMat_copyValues_ex :
  A (Aloc (fst (PMat_copyValues copy_same_pattern ex_pm (IsPMat ex_pm_values)
                  ex_machine)))
  = [2; 0; 0; 2;   3; 0; 0; 3;   4; 0; 0; 4]%Z.
Proof. reflexivity. Qed.

(** C5, as stated, fails: [ex_pm_other] is a [PMat] of another sparsity
    than [ex_pm], so "not a DistributedMatrix with the same sparsity"
    holds of it, and yet no type mismatch is reported. *)
Lemma PMat_copyValues_other_sparsity_unreported :
  ~ (stderr (snd (PMat_copyValues copy_same_pattern ex_pm (IsPMat ex_pm_other)
                    ex_machine))
     = stderr ex_machine ++ [copyValues_msg]
     <-> ~ exists p, IsPMat ex_pm_other = IsPMat p /\
                     same_sparsity ex_pm p = true).
Proof.
  intros [_ Hrep].
  assert (Hno : ~ exists p, IsPMat ex_pm_other = IsPMat p /\
                            same_sparsity ex_pm p = true).
  { intros (p & [= <-] & Hs). vm_compute in Hs. discriminate. }
  specialize (Hrep Hno). vm_compute in Hrep. discriminate.
Qed.

(** ** [GlobalSchurMat::mult] *)

(** C2 fails on the code: the source pointer that [mult] hands to the halo
    is [&x[varoffset]], the interface vector moved forward by [N - Nc]
    scalars, and not [v] positioned at offset [bsize*Np] of a local vector.
    On rank 1 of the example ([Np = 1]) the halo therefore reads [v[3]],
    [v[4]] where the first interface block is [v[0]], [v[1]], and rank 0
    computes [(14, 25)] instead of [(11, 22)]. *)
Theorem GlobalSchurMat_mult_reads_shifted :
  gs_varoffset (ex_gs ex_r1_pm) = 1 /\
  Halo_gather 2 (mkDist [2]) ex_view_code = [4; 5]%Z /\
  Halo_gather 2 (mkDist [2]) ex_view_embedded = [1; 2]%Z /\
  heap (GlobalSchurMat_mult (ex_gs ex_r0_pm) ex_r0_Apc (TACSBVec 0) (TACSBVec 1)
          ex_view_code [] ex_r0_machine) 1 = [14; 25]%Z /\
  heap (GlobalSchurMat_mult (ex_gs ex_r0_pm) ex_r0_Apc (TACSBVec 0) (TACSBVec 1)
          ex_view_embedded [] ex_r0_machine) 1 = [11; 22]%Z.
Proof. repeat split; reflexivity. Qed.

(** The two readings of the interface vector, in general: through
    [&x[varoffset]] the halo finds [x[varoffset + s]] at the offset [s],
    in the embedded vector it finds [v[s - bsize*Np]]. *)
Lemma GlobalSchurMat_src_reads (gs : GlobalSchurMat (TacsScalar := Z))
    (m : mem) x s :
  ld m (GlobalSchurMat_src gs x) s = sx (m x) (gs_varoffset gs + s).
Proof. unfold GlobalSchurMat_src, ld, padd, sx. cbn [fst snd]. done. Qed.

Lemma v_embedded_reads bs np (v : list Z) s :
  bs * np <= s -> sx (v_embedded bs np v) s = sx v (s - bs * np).
Proof.
  intros Hs. unfold v_embedded, sx.
  rewrite app_nth2 by (rewrite repeat_length; lia).
  by rewrite repeat_length.
Qed.

(** ** [PMat::printNzPattern] *)
Section PrintFacts.
Context {TacsScalar : Type} `{ScalarOps TacsScalar}.
Local Abbreviation PMat := (@PMat TacsScalar).

Lemma string_app_nil_r (s : string) : (s ++ "")%string = s.
Proof. induction s as [|a s IH]; [done|]. cbn. by rewrite IH. Qed.

Lemma string_app_assoc (s1 s2 s3 : string) :
  ((s1 ++ s2) ++ s3)%string = (s1 ++ (s2 ++ s3))%string.
Proof. induction s1 as [|a s1 IH]; [done|]. cbn. by rewrite IH. Qed.

Lemma wrap_int_small z :
  (-2147483648 <= z < 2147483648)%Z -> wrap_int z = z.
Proof.
  intros Hz. unfold wrap_int. rewrite Z.mod_small by lia. lia.
Qed.

(** C9: for the 3-row A with the blocks (0,0), (1,0), (1,1), (2,2) and a B
    with one block, in interface row 0, the file is, character by
    character: the header line [VARIABLES = "i", "j" ] and the title line
    of the diagonal zone with the rank; the four data lines [lo lo],
    [lo+1 lo], [lo+1 lo+1], [lo+2 lo+2], the local indices moved by [lo];
    the title line of the off-diagonal zone; and the one data line with
    the row [0 + Np + lo] and the column that the index map of the halo
    gives for the column of the block.  Numbers are in decimal, as [%d]
    writes them. *)
Theorem PMat_printNzPattern_three_rows (pm : PMat) d c lo :
  nrows (Aloc pm) = 3 ->
  rowp (Aloc pm) = [0; 1; 3; 4] ->
  cols (Aloc pm) = [0; 0; 1; 2] ->
  N pm = 3 ->
  Nc pm = nrows (Bext pm) ->
  1 <= nrows (Bext pm) <= 3 ->
  rowp (Bext pm) = 0 :: repeat 1 (nrows (Bext pm)) ->
  cols (Bext pm) = [c] ->
  ext_dist pm = Some d ->
  zx (ownerRange (rmap pm)) (mpi_rank (rmap pm)) = lo ->
  (0 <= lo <= 2147483644)%Z ->
  let q := String (ascii_of_nat 34) EmptyString in
  let eol := String (ascii_of_nat 10) EmptyString in
  let dec z := NilZero.string_of_int (Z.to_int z) in
  let rank := Z.of_nat (mpi_rank (rmap pm)) in
  let np := Z.of_nat (N pm - Nc pm) in
  PMat_printNzPattern pm true
  = Some ("VARIABLES = " ++ q ++ "i" ++ q ++ ", " ++ q ++ "j" ++ q ++ " "
          ++ eol
          ++ "ZONE T = " ++ q ++ "Diagonal block " ++ dec rank ++ q ++ eol
          ++ dec lo ++ " " ++ dec lo ++ eol
          ++ dec (lo + 1)%Z ++ " " ++ dec lo ++ eol
          ++ dec (lo + 1)%Z ++ " " ++ dec (lo + 1)%Z ++ eol
          ++ dec (lo + 2)%Z ++ " " ++ dec (lo + 2)%Z ++ eol
          ++ "ZONE T = " ++ q ++ "Off-diagonal block " ++ dec rank ++ q
          ++ eol
          ++ dec (np + lo)%Z ++ " " ++ dec (Z.of_nat (ix (ext_vars d) c))
          ++ eol)%string.
Proof.
  intros HnA HrA HcA HN HNc HnB HrB HcB Hd Hlo Hrange q eol dec rank np.
  unfold PMat_printNzPattern. rewrite Hd, HnA, HrA, HcA, HrB, HcB, HN, HNc, Hlo.
  assert (Hcases : nrows (Bext pm) = 1 \/ nrows (Bext pm) = 2 \/
                   nrows (Bext pm) = 3) by lia.
  subst np. rewrite HN, HNc.
  destruct Hcases as [-> | [-> | ->]];
    cbn [seq map row_lines ix nth repeat Nat.add Nat.sub Nat.ltb Nat.leb
         cat_all fold_right];
    rewrite !wrap_int_small by lia;
    rewrite ?(wrap_int_small (Z.of_nat 0 + Z.of_nat 3 - Z.of_nat _)) by lia;
    rewrite ?wrap_int_small by lia;
    unfold diag_header, offdiag_header, data_line, fmt_d, dq, nl;
    subst q eol dec rank; cbn beta;
    match goal with
    | |- context [(Z.of_nat 0 + Z.of_nat 3 - Z.of_nat ?k + lo)%Z] =>
        replace (Z.of_nat 0 + Z.of_nat 3 - Z.of_nat k + lo)%Z
          with (Z.of_nat (3 - k) + lo)%Z by lia
    end;
    cbn [Nat.sub];
    replace (lo + 1)%Z with (Z.of_nat 1 + lo)%Z by lia;
    replace (lo + 2)%Z with (Z.of_nat 2 + lo)%Z by lia;
    replace (Z.of_nat 0 + lo)%Z with lo by lia;
    rewrite ?string_app_nil_r, ?string_app_assoc;
    reflexivity.
Qed.
End PrintFacts.


(** ** [BCSRMat::zeroRow] and [PMat::applyBCs] *)
Section ZeroRowFacts.
Context {TacsScalar : Type} `{ScalarOps TacsScalar}.
Implicit Types (Av : list TacsScalar) (d : BCSRMatData TacsScalar).













End ZeroRowFacts.

Section ApplyBCsFacts.
Context {TacsScalar : Type} `{ScalarOps TacsScalar}.
Local Abbreviation PMat := (@PMat TacsScalar).
Implicit Types
  (K : BCSRMatData TacsScalar -> Z -> list nat -> bool
       -> BCSRMatData TacsScalar).






End ApplyBCsFacts.

Example PMat_applyBCs_ex :
  A (Aloc (PMat_applyBCs zeroRow_listed ex_bc_pm))
  = [1; 2; 3; 4;   5; 6; 7; 8;   1; 0; 11; 12]%Z /\
  A (Bext (PMat_applyBCs zeroRow_listed ex_bc_pm)) = [0; 0; 3; 4]%Z.
Proof. split; reflexivity. Qed.

(** With all the variables of the interface row 1 and the variable 1 of
    the interior row 0 constrained. *)
Example PMat_applyBCs_full_ex :
  A (Aloc (PMat_applyBCs zeroRow_listed ex_bc_full_pm))
  = [1; 2; 0; 1;   5; 6; 0; 0;   1; 0; 0; 1]%Z /\
  A (Bext (PMat_applyBCs zeroRow_listed ex_bc_full_pm)) = [0; 0; 0; 0]%Z.
Proof. split; reflexivity. Qed.

Lemma ex_bc_pm_wf : PMat_wf ex_bc_pm.
Proof.
  unfold PMat_wf, bcsr_wf. cbn.
  repeat split; try lia.
  - intros i Hi. destruct i as [|[|i]]; cbn; lia.
  - intros i Hi. destruct i as [|i]; cbn; lia.
Defined.




Example PMat_printNzPattern_ex :
  PMat_printNzPattern ex_print_pm true = Some ex_print_file.
Proof. reflexivity. Qed.

Lemma PMat_printNzPattern_three_rows_witness :
  PMat_printNzPattern ex_print_pm true
  = Some (cat_all
      ["VARIABLES = "; dq; "i"; dq; ", "; dq; "j"; dq; " "; nl;
       "ZONE T = "; dq; "Diagonal block 1"; dq; nl;
       "5 5"; nl; "6 5"; nl; "6 6"; nl; "7 7"; nl;
       "ZONE T = "; dq; "Off-diagonal block 1"; dq; nl;
       "7 2"; nl]%string).
Proof.
  refine (eq_trans
            (PMat_printNzPattern_three_rows ex_print_pm (mkDist [2]) 0 5%Z
               _ _ _ _ _ _ _ _ _ _ _) _);
    solve [reflexivity | cbn; lia].
Defined.


(** ** The triangular solves of [BCSRMatMult2.c] *)
Section SolveFacts.
Context {TacsScalar : Type} `{ScalarOps TacsScalar}.
Implicit Types (m : mem (TacsScalar := TacsScalar)) (p q x y : ptr).

Lemma ld_st_indep m p i v q j :
  fst q ≠ fst p \/ snd q + j ≠ snd p + i -> ld (st m p i v) q j = ld m q j.
Proof.
  intros Hne. destruct (decide (fst q = fst p)) as [Heq|Hb].
  - unfold ld. rewrite Heq, st_same, !nth_lookup.
    rewrite list_lookup_insert_ne; [done | lia].
  - by apply ld_st_other.
Qed.

Lemma ld_st_hit m p i v q j :
  fst q = fst p -> snd q + j = snd p + i ->
  snd p + i < length (m (fst p)) -> ld (st m p i v) q j = v.
Proof.
  intros Hb Hs Hlen. unfold ld. rewrite Hb, Hs, st_same, nth_lookup.
  by rewrite list_lookup_insert_eq.
Qed.

Lemma writes_within_refl m b lo hi : writes_within m m b lo hi.
Proof. by split. Qed.

Lemma writes_within_trans m1 m2 m3 b lo hi lo' hi' :
  writes_within m1 m2 b lo hi -> writes_within m2 m3 b lo' hi' ->
  writes_within m1 m3 b (Nat.min lo lo') (Nat.max hi hi').
Proof.
  intros [L1 F1] [L2 F2]. split.
  - intros b'. by rewrite L2, L1.
  - intros q k Hq. rewrite F2, F1; [done | lia | lia].
Qed.

Lemma writes_within_weaken m m' b lo hi lo' hi' :
  writes_within m m' b lo hi -> lo' <= lo -> hi <= hi' ->
  writes_within m m' b lo' hi'.
Proof.
  intros [L F] Hlo Hhi. split; [done|].
  intros q k Hq. apply F. lia.
Qed.

Lemma writes_within_st2 m p v0 v1 :
  writes_within m (st (st m p 0 v0) p 1 v1) (fst p) (snd p) (snd p + 2).
Proof.
  split.
  - intros b'. by rewrite !length_st.
  - intros q k Hq. rewrite !ld_st_indep; [done | lia | lia].
Qed.

Lemma solve_term_ext data yv1 yv2 off1 off2 acc j :
  yv1 (2 * ix (cols data) j - off1) = yv2 (2 * ix (cols data) j - off2) ->
  yv1 (2 * ix (cols data) j - off1 + 1)
    = yv2 (2 * ix (cols data) j - off2 + 1) ->
  solve_term data yv1 off1 acc j = solve_term data yv2 off2 acc j.
Proof. intros E0 E1. unfold solve_term. cbn zeta. by rewrite E0, E1. Qed.

Lemma fold_solve_ext data yv1 yv2 off1 off2 n : forall j acc,
  (forall j', j <= j' < j + n ->
     yv1 (2 * ix (cols data) j' - off1) = yv2 (2 * ix (cols data) j' - off2) /\
     yv1 (2 * ix (cols data) j' - off1 + 1)
       = yv2 (2 * ix (cols data) j' - off2 + 1)) ->
  fold_left (solve_term data yv1 off1) (seq j n) acc
  = fold_left (solve_term data yv2 off2) (seq j n) acc.
Proof.
  induction n as [|n IH]; intros j acc Hext; [done|].
  cbn [seq fold_left].
  destruct (Hext j ltac:(lia)) as [E0 E1].
  rewrite (solve_term_ext data yv1 yv2 off1 off2 acc j E0 E1).
  apply IH. intros j' Hj'. apply Hext. lia.
Qed.

(** The accumulation of a back-solve row is the fold of [solve_term]. *)
Lemma upper_row_fold data off src m n : forall j acc,
  upper_row data n j (4 * j) off src m acc
  = fold_left (solve_term data (ld m src) off) (seq j n) acc.
Proof.
  induction n as [|n IH]; intros j acc; [done|].
  cbn [upper_row seq fold_left]. cbn zeta.
  replace (4 * j + 4) with (4 * (j + 1)) by lia.
  rewrite IH. replace (j + 1) with (S j) by lia. done.
Qed.

(** The inner loop of the forward solves subtracts the entries
    [j .. j+n) from [dst[0]], [dst[1]], provided it does not read the two
    scalars it writes. *)
Lemma lower_row_spec data yv off n : forall j m src dst,
  snd dst + 1 < length (m (fst dst)) ->
  (forall j' e, j <= j' < j + n -> e < 2 ->
     (fst src ≠ fst dst \/
      snd src + (2 * ix (cols data) j' - off + e) < snd dst \/
      snd dst + 2 <= snd src + (2 * ix (cols data) j' - off + e)) /\
     ld m src (2 * ix (cols data) j' - off + e)
       = yv (2 * ix (cols data) j' - off + e)) ->
  let m' := lower_row data n j (4 * j) off src dst m in
  writes_within m m' (fst dst) (snd dst) (snd dst + 2) /\
  (ld m' dst 0, ld m' dst 1)
  = fold_left (solve_term data yv off) (seq j n) (ld m dst 0, ld m dst 1).
Proof.
  induction n as [|n IH]; intros j m src dst Hlen Hrd; cbn zeta.
  - split; [apply writes_within_refl | done].
  - cbn [lower_row seq fold_left].
    set (bj := 2 * ix (cols data) j - off).
    set (v0 := ld m dst 0 ⊖ _).
    set (m1 := st m dst 0 v0).
    set (v1 := ld m1 dst 1 ⊖ _).
    set (m2 := st m1 dst 1 v1).
    assert (W2 : writes_within m m2 (fst dst) (snd dst) (snd dst + 2))
      by apply writes_within_st2.
    destruct W2 as [L2 F2].
    assert (Hlen2 : snd dst + 1 < length (m2 (fst dst))) by by rewrite L2.
    assert (Hrd2 : forall j' e, j + 1 <= j' < j + 1 + n -> e < 2 ->
       (fst src ≠ fst dst \/
        snd src + (2 * ix (cols data) j' - off + e) < snd dst \/
        snd dst + 2 <= snd src + (2 * ix (cols data) j' - off + e)) /\
       ld m2 src (2 * ix (cols data) j' - off + e)
         = yv (2 * ix (cols data) j' - off + e)).
    { intros j' e Hj' He. destruct (Hrd j' e ltac:(lia) He) as [Hd Hv].
      split; [done|]. by rewrite F2. }
    replace (4 * j + 4) with (4 * (j + 1)) by lia.
    destruct (IH (j + 1) m2 src dst Hlen2 Hrd2) as [IW IV].
    assert (Hl0 : ld m2 dst 0 = v0).
    { unfold m2. rewrite ld_st_ne by lia. unfold m1. apply ld_st_eq. lia. }
    assert (Hl1 : ld m2 dst 1 = v1).
    { unfold m2. apply ld_st_eq. unfold m1. rewrite length_st. lia. }
    destruct (Hrd j 0 ltac:(lia) ltac:(lia)) as [Hd0 Hy0].
    destruct (Hrd j 1 ltac:(lia) ltac:(lia)) as [Hd1 Hy1].
    rewrite Nat.add_0_r in Hd0, Hy0. fold bj in Hd0, Hy0, Hd1, Hy1.
    assert (Hterm : solve_term data yv off (ld m dst 0, ld m dst 1) j
                    = (v0, v1)).
    { unfold solve_term, v0, v1. cbn [fst snd]. fold bj.
      unfold m1. rewrite !(ld_st_indep _ _ _ _ src) by lia.
      rewrite ld_st_ne by lia. by rewrite Hy0, Hy1. }
    rewrite Hl0, Hl1 in IV. rewrite Hterm.
    replace (S j) with (j + 1) by lia.
    split; [|exact IV].
    destruct IW as [IL IF]. split.
    + intros b'. by rewrite IL, L2.
    + intros q k Hq. by rewrite IF, F2.
Qed.

Lemma blk_padd m p k r : blk m (padd p (2 * k)) r = blk m p (k + r).
Proof.
  unfold blk. rewrite !ld_padd. f_equal; f_equal; lia.
Qed.

(** One row of a back solve. *)
Lemma upper_step_spec data i off rhs src dst m :
  snd dst + 1 < length (m (fst dst)) ->
  let m' := upper_step data i off rhs src dst m in
  writes_within m m' (fst dst) (snd dst) (snd dst + 2) /\
  (ld m' dst 0, ld m' dst 1)
  = diag_apply data i
      (upper_elim data (ld m src) off i (ld m rhs 0, ld m rhs 1)).
Proof.
  intros Hlen m'. unfold m', upper_step. cbn zeta.
  replace (4 * ix (diag data) i + 4) with (4 * (ix (diag data) i + 1))
    by lia.
  rewrite upper_row_fold. fold (upper_elim data (ld m src) off i
                                  (ld m rhs 0, ld m rhs 1)).
  set (t := upper_elim data (ld m src) off i (ld m rhs 0, ld m rhs 1)).
  split; [apply writes_within_st2|].
  unfold diag_apply. cbn zeta. f_equal.
  - rewrite ld_st_ne by lia. apply ld_st_eq. lia.
  - apply ld_st_eq. rewrite length_st. lia.
Qed.

(** The rows of [BCSRMatApplyPartialUpper2], in terms of the final
    vector. *)
Lemma BCSRMatApplyPartialUpper2_rows_spec data v n : forall m x,
  upper_pattern data v (v + n) ->
  snd x + 2 * n <= length (m (fst x)) ->
  let m' := BCSRMatApplyPartialUpper2_rows data n v x m in
  writes_within m m' (fst x) (snd x) (snd x + 2 * n) /\
  (forall r, r < n ->
     blk m' x r
     = diag_apply data (v + r)
         (upper_elim data (ld m' x) (2 * v) (v + r) (blk m x r))).
Proof.
  induction n as [|n IH]; intros m x Hpat Hlen; cbn zeta.
  - split; [apply writes_within_refl | intros; lia].
  - cbn [BCSRMatApplyPartialUpper2_rows]. cbn zeta.
    set (xx := padd x (2 * n)).
    destruct (upper_step_spec data (v + n) (2 * v) xx x xx m) as [W1 V1].
    { unfold xx. cbn [padd fst snd]. lia. }
    set (m1 := upper_step data (v + n) (2 * v) xx x xx m) in *.
    destruct W1 as [L1 F1]. unfold xx in F1, V1. cbn [padd fst snd] in F1.
    destruct (IH m1 x) as [[L' F'] V'].
    { intros i j Hi Hj. apply (Hpat i j); [lia | done]. }
    { rewrite L1. lia. }
    set (m' := BCSRMatApplyPartialUpper2_rows data n v x m1) in *.
    split; [split|].
    + intros b'. by rewrite L', L1.
    + intros q k Hq. rewrite F', F1; [done | lia | lia].
    + intros r Hr. destruct (decide (r = n)) as [->|Hne].
      * assert (E : blk m' x n = blk m1 x n).
        { unfold blk. rewrite !F' by lia. done. }
        rewrite E. unfold blk at 1. rewrite !ld_padd in V1.
        rewrite Nat.add_0_r in V1. rewrite V1.
        fold (blk m x n). f_equal. unfold upper_elim.
        apply fold_solve_ext. intros j' Hj'.
        assert (Hc : v + n < ix (cols data) j').
        { apply (Hpat (v + n) j'); lia. }
        rewrite !F', !F1 by lia. done.
      * rewrite (V' r ltac:(lia)). do 2 f_equal.
        unfold blk. rewrite !F1 by lia. done.
Qed.

(** The in-place back solve is the partial back solve from row 0. *)
Lemma BCSRMatApplyUpper2_rows_partial data n : forall x m,
  BCSRMatApplyUpper2_rows data n x x m
  = BCSRMatApplyPartialUpper2_rows data n 0 x m.
Proof.
  induction n as [|n IH]; intros x m; [done|].
  cbn [BCSRMatApplyUpper2_rows BCSRMatApplyPartialUpper2_rows]. cbn zeta.
  by rewrite IH.
Qed.

Lemma BCSRMatApplyFactorSchur2_rows_upper data n : forall x m,
  BCSRMatApplyFactorSchur2_rows data n x m
  = BCSRMatApplyUpper2_rows data n x x m.
Proof.
  induction n as [|n IH]; intros x m; [done|].
  cbn [BCSRMatApplyUpper2_rows BCSRMatApplyFactorSchur2_rows]. cbn zeta.
  by rewrite IH.
Qed.

(** A row of the partial back solve is the row of the full one when the
    entries right of the diagonal lie in the interface columns. *)
Lemma upper_step_shift data v r x m :
  (forall j, ix (diag data) (v + r) < j < ix (rowp data) (v + r + 1) ->
             v <= ix (cols data) j) ->
  upper_step data (v + r) (2 * v) (padd (padd x (2 * v)) (2 * r))
    (padd x (2 * v)) (padd (padd x (2 * v)) (2 * r)) m
  = upper_step data (v + r) 0 (padd x (2 * (v + r))) x
      (padd x (2 * (v + r))) m.
Proof.
  intros Hc.
  assert (Ep : padd (padd x (2 * v)) (2 * r) = padd x (2 * (v + r))).
  { unfold padd. cbn [fst snd]. f_equal. lia. }
  rewrite Ep. unfold upper_step. cbn zeta.
  replace (4 * ix (diag data) (v + r) + 4)
    with (4 * (ix (diag data) (v + r) + 1)) by lia.
  rewrite !upper_row_fold.
  assert (Ef : forall acc,
    fold_left (solve_term data (ld m (padd x (2 * v))) (2 * v))
      (seq (ix (diag data) (v + r) + 1)
         (ix (rowp data) (v + r + 1) - (ix (diag data) (v + r) + 1))) acc
    = fold_left (solve_term data (ld m x) 0)
      (seq (ix (diag data) (v + r) + 1)
         (ix (rowp data) (v + r + 1) - (ix (diag data) (v + r) + 1))) acc).
  { intros acc. apply fold_solve_ext. intros j' Hj'.
    specialize (Hc j' ltac:(lia)). rewrite !ld_padd.
    split; f_equal; lia. }
  by rewrite Ef.
Qed.

Lemma BCSRMatApplyUpper2_rows_split data v n : forall x m,
  (forall i j, v <= i < v + n ->
     ix (diag data) i < j < ix (rowp data) (i + 1) -> v <= ix (cols data) j) ->
  BCSRMatApplyUpper2_rows data (v + n) x x m
  = BCSRMatApplyUpper2_rows data v x x
      (BCSRMatApplyPartialUpper2_rows data n v (padd x (2 * v)) m).
Proof.
  induction n as [|n IH]; intros x m Hc.
  - by rewrite Nat.add_0_r.
  - replace (v + S n) with (S (v + n)) by lia.
    cbn [BCSRMatApplyUpper2_rows BCSRMatApplyPartialUpper2_rows]. cbn zeta.
    rewrite upper_step_shift by (intros j Hj; apply (Hc (v + n) j); lia).
    apply IH. intros i j Hi Hj. apply (Hc i j); [lia | done].
Qed.

(** The rows of [BCSRMatApplyLower2], in terms of the final vector; the
    right-hand side is either in another buffer or the vector itself. *)
Lemma BCSRMatApplyLower2_rows_spec data n : forall i m xc y,
  fst xc ≠ fst y \/ xc = padd y (2 * i) ->
  lower_pattern data i (i + n) ->
  snd y + 2 * (i + n) <= length (m (fst y)) ->
  let m' := BCSRMatApplyLower2_rows data n i xc y (padd y (2 * i)) m in
  writes_within m m' (fst y) (snd y + 2 * i) (snd y + 2 * (i + n)) /\
  (forall r, r < n ->
     blk m' y (i + r)
     = lower_elim data (ld m' y) 0 (i + r) (ix (rowp data) (i + r))
         (blk m xc r)).
Proof.
  induction n as [|n IH]; intros i m xc y Hx Hpat Hlen; cbn zeta.
  - split; [apply writes_within_refl | intros; lia].
  - cbn [BCSRMatApplyLower2_rows]. cbn zeta.
    set (yy := padd y (2 * i)).
    set (m1 := st m yy 0 (ld m xc 0)).
    set (m2 := st m1 yy 1 (ld m1 xc 1)).
    assert (Hyy : fst yy = fst y /\ snd yy = snd y + 2 * i) by done.
    destruct Hyy as [Hyb Hys].
    assert (W2 : writes_within m m2 (fst yy) (snd yy) (snd yy + 2))
      by apply writes_within_st2.
    destruct W2 as [L2 F2]. rewrite Hyb, Hys in F2.
    assert (Hx' : fst xc ≠ fst y \/ (fst xc = fst y /\ snd xc = snd y + 2 * i)).
    { destruct Hx as [Hx|Hx]; [by left | right]. by rewrite Hx. }
    assert (Hx1 : ld m1 xc 1 = ld m xc 1).
    { unfold m1. apply ld_st_indep. lia. }
    assert (H0 : ld m2 yy 0 = ld m xc 0).
    { unfold m2. rewrite ld_st_ne by lia. unfold m1. apply ld_st_eq.
      rewrite Hyb, Hys. lia. }
    assert (H1 : ld m2 yy 1 = ld m xc 1).
    { unfold m2. rewrite ld_st_eq; [done|]. unfold m1.
      rewrite length_st, Hyb, Hys. lia. }
    set (j0 := ix (rowp data) i).
    set (cnt := ix (diag data) i - j0).
    destruct (lower_row_spec data (ld m2 y) 0 cnt j0 m2 y yy) as [W3 V3].
    { rewrite L2, Hyb, Hys. lia. }
    { intros j' e Hj' He. split; [|done]. right. left.
      assert (Hc : ix (cols data) j' < i).
      { apply (Hpat i j'); [lia|]. unfold j0, cnt in Hj'. lia. }
      rewrite Hys. lia. }
    set (m3 := lower_row data cnt j0 (4 * j0) 0 y yy m2) in *.
    destruct W3 as [L3 F3]. rewrite Hyb, Hys in F3.
    rewrite H0, H1 in V3.
    assert (Ep : padd yy 2 = padd y (2 * (i + 1))).
    { unfold yy, padd. cbn [fst snd]. f_equal. lia. }
    rewrite Ep.
    destruct (IH (i + 1) m3 (padd xc 2) y) as [[L' F'] V'].
    { destruct Hx as [Hx|Hx]; [by left | right].
      rewrite Hx. fold yy. by rewrite Ep. }
    { intros i' j Hi Hj. apply (Hpat i' j); [lia | done]. }
    { rewrite L3, L2. lia. }
    set (m' := BCSRMatApplyLower2_rows data n (i + 1) (padd xc 2) y
                 (padd y (2 * (i + 1))) m3) in *.
    split; [split|].
    + intros b'. by rewrite L', L3, L2.
    + intros q k Hq. rewrite F', F3, F2; [done | lia | lia | lia].
    + intros r Hr. destruct r as [|r].
      * rewrite Nat.add_0_r.
        assert (E : blk m' y i = (ld m3 yy 0, ld m3 yy 1)).
        { unfold blk, yy. rewrite !ld_padd, !F' by lia.
          by rewrite Nat.add_0_r. }
        rewrite E, V3. unfold lower_elim, blk. fold j0 cnt.
        cbn [Nat.mul Nat.add].
        apply fold_solve_ext. intros j' Hj'.
        assert (Hc : ix (cols data) j' < i).
        { apply (Hpat i j'); [lia|]. unfold j0, cnt in Hj'. lia. }
        rewrite !F', !F3 by lia. done.
      * replace (i + S r) with (i + 1 + r) by lia.
        rewrite (V' r ltac:(lia)). f_equal.
        unfold blk. rewrite !ld_padd.
        replace (2 + 2 * r) with (2 * S r) by lia.
        replace (2 + (2 * r + 1)) with (2 * S r + 1) by lia.
        assert (Hu : forall e, e < 2 ->
                  ld m3 xc (2 * S r + e) = ld m xc (2 * S r + e)).
        { intros e He. rewrite F3, F2; [done | lia | lia]. }
        rewrite <- (Nat.add_0_r (2 * S r)) at 1.
        rewrite (Hu 0), (Hu 1) by lia. by rewrite Nat.add_0_r.
Qed.

(** Where the scan for the first interface column stops. *)
Lemma skip_cols_spec cs v fuel : forall j,
  let js := skip_cols cs fuel j v in
  j <= js <= j + fuel /\
  (forall k, j <= k < js -> ix cs k < v) /\
  (js < j + fuel -> v <= ix cs js).
Proof.
  induction fuel as [|f IH]; intros j; cbn zeta.
  - cbn [skip_cols]. split; [lia|]. split; intros; lia.
  - cbn [skip_cols]. destruct (Nat.ltb_spec (ix cs j) v) as [Hlt|Hge].
    + destruct (IH (j + 1)) as (Ha & Hb & Hc).
      split; [lia|]. split.
      * intros k Hk. destruct (decide (k = j)) as [->|Hne]; [done|].
        apply Hb. lia.
      * intros Hs. apply Hc. lia.
    + split; [lia|]. split; [intros; lia | done].
Qed.

Lemma interface_start_sorted (data : BCSRMatData TacsScalar) i v :
  v <= i -> row_sorted_to_diag data i ->
  let js := interface_start data i v in
  ix (rowp data) i <= js <= ix (diag data) i /\
  (forall k, ix (rowp data) i <= k < js -> ix (cols data) k < v) /\
  (forall k, js <= k < ix (diag data) i -> v <= ix (cols data) k < i).
Proof.
  intros Hv (Hrd & Hdl & Hdc & Hs). cbn zeta. unfold interface_start.
  destruct (skip_cols_spec (cols data) v
              (length (cols data) - ix (rowp data) i) (ix (rowp data) i))
    as (Ha & Hb & Hc).
  set (js := skip_cols _ _ _ _) in *.
  assert (Hjd : js <= ix (diag data) i).
  { destruct (le_lt_dec js (ix (diag data) i)) as [|Hgt]; [done|].
    specialize (Hb (ix (diag data) i) ltac:(lia)). lia. }
  split; [lia|]. split; [done|].
  intros k Hk. specialize (Hc ltac:(lia)).
  assert (ix (cols data) k < ix (cols data) (ix (diag data) i))
    by (apply Hs; lia).
  split; [|lia].
  destruct (decide (k = js)) as [->|Hne]; [done|].
  assert (ix (cols data) js < ix (cols data) k) by (apply Hs; lia). lia.
Qed.

Lemma filter_seq_none (P : nat -> bool) n : forall a,
  (forall k, a <= k < a + n -> P k = false) -> List.filter P (seq a n) = [].
Proof.
  induction n as [|n IH]; intros a HP; [done|].
  cbn [seq List.filter]. rewrite (HP a) by lia. apply IH.
  intros k Hk. apply HP. lia.
Qed.

Lemma filter_seq_all (P : nat -> bool) n : forall a,
  (forall k, a <= k < a + n -> P k = true) -> List.filter P (seq a n) = seq a n.
Proof.
  induction n as [|n IH]; intros a HP; [done|].
  cbn [seq List.filter]. rewrite (HP a) by lia. f_equal. apply IH.
  intros k Hk. apply HP. lia.
Qed.

(** Under the sorted pattern the entries the scan keeps are those of the
    interface columns. *)
Lemma interface_elim_start data yv v i rhs :
  v <= i -> row_sorted_to_diag data i ->
  lower_elim data yv (2 * v) i (interface_start data i v) rhs
  = interface_elim data yv v i rhs.
Proof.
  intros Hv Hs.
  destruct (interface_start_sorted data i v Hv Hs) as (Ha & Hb & Hc).
  set (js := interface_start data i v) in *.
  unfold lower_elim, interface_elim. f_equal.
  replace (ix (diag data) i - ix (rowp data) i)
    with ((js - ix (rowp data) i) + (ix (diag data) i - js)) by lia.
  rewrite seq_app, List.filter_app.
  replace (ix (rowp data) i + (js - ix (rowp data) i)) with js by lia.
  rewrite filter_seq_none, filter_seq_all; [done | |].
  - intros k Hk. apply Nat.leb_le. apply Hc. lia.
  - intros k Hk. apply Nat.leb_gt. apply Hb. lia.
Qed.

(** The rows of [BCSRMatApplyPartialLower2], in terms of the final
    vector; row [v + r0] is the current one. *)
Lemma BCSRMatApplyPartialLower2_rows_spec data v n : forall r0 m x,
  (forall r j, r0 <= r < r0 + n ->
     interface_start data (v + r) v <= j < ix (diag data) (v + r) ->
     v <= ix (cols data) j < v + r) ->
  snd x + 2 * (r0 + n) <= length (m (fst x)) ->
  let m' := BCSRMatApplyPartialLower2_rows data n (v + r0) v x
              (padd x (2 * r0)) m in
  writes_within m m' (fst x) (snd x + 2 * r0) (snd x + 2 * (r0 + n)) /\
  (forall r, r0 <= r < r0 + n ->
     blk m' x r
     = lower_elim data (ld m' x) (2 * v) (v + r)
         (interface_start data (v + r) v) (blk m x r)).
Proof.
  induction n as [|n IH]; intros r0 m x Hpat Hlen; cbn zeta.
  - split; [apply writes_within_refl | intros; lia].
  - cbn [BCSRMatApplyPartialLower2_rows]. cbn zeta.
    fold (interface_start data (v + r0) v).
    set (js := interface_start data (v + r0) v).
    set (xx := padd x (2 * r0)).
    set (cnt := ix (diag data) (v + r0) - js).
    destruct (lower_row_spec data (ld m x) (2 * v) cnt js m x xx)
      as [W1 V1].
    { unfold xx. cbn [padd fst snd]. lia. }
    { intros j' e Hj' He. split; [|done]. right. left.
      destruct (Hpat r0 j' ltac:(lia)) as [Hc1 Hc2];
        [unfold cnt in Hj'; fold js; lia|].
      unfold xx. cbn [padd snd]. lia. }
    set (m1 := lower_row data cnt js (4 * js) (2 * v) x xx m) in *.
    destruct W1 as [L1 F1]. unfold xx in F1. cbn [padd fst snd] in F1.
    assert (Ep : padd xx 2 = padd x (2 * (r0 + 1))).
    { unfold xx, padd. cbn [fst snd]. f_equal. lia. }
    rewrite Ep. replace (v + r0 + 1) with (v + (r0 + 1)) by lia.
    destruct (IH (r0 + 1) m1 x) as [[L' F'] V'].
    { intros r j Hr Hj. apply (Hpat r j); [lia | done]. }
    { rewrite L1. lia. }
    set (m' := BCSRMatApplyPartialLower2_rows data n (v + (r0 + 1)) v x
                 (padd x (2 * (r0 + 1))) m1) in *.
    split; [split|].
    + intros b'. by rewrite L', L1.
    + intros q k Hq. rewrite F', F1; [done | lia | lia].
    + intros r Hr. destruct (decide (r = r0)) as [->|Hne].
      * assert (E : blk m' x r0 = (ld m1 xx 0, ld m1 xx 1)).
        { unfold blk, xx. rewrite !ld_padd, !F' by lia.
          by rewrite Nat.add_0_r. }
        rewrite E, V1. unfold lower_elim. fold js cnt.
        assert (Eb : (ld m xx 0, ld m xx 1) = blk m x r0).
        { unfold blk, xx. rewrite !ld_padd. by rewrite Nat.add_0_r. }
        rewrite Eb.
        apply fold_solve_ext. intros j' Hj'.
        destruct (Hpat r0 j' ltac:(lia)) as [Hc1 Hc2];
          [unfold cnt in Hj'; fold js; lia|].
        rewrite !F', !F1 by lia. done.
      * rewrite (V' r ltac:(lia)). f_equal.
        unfold blk. rewrite !F1 by lia. done.
Qed.

(** The rows of [BCSRMatApplyUpper2], in terms of the final vector; the
    right-hand side is either in another buffer or the vector itself. *)
Lemma BCSRMatApplyUpper2_rows_spec data n : forall m x y,
  fst x ≠ fst y \/ x = y ->
  upper_pattern data 0 n ->
  snd y + 2 * n <= length (m (fst y)) ->
  let m' := BCSRMatApplyUpper2_rows data n x y m in
  writes_within m m' (fst y) (snd y) (snd y + 2 * n) /\
  (forall i, i < n ->
     blk m' y i
     = diag_apply data i (upper_elim data (ld m' y) 0 i (blk m x i))).
Proof.
  induction n as [|n IH]; intros m x y Hx Hpat Hlen; cbn zeta.
  - split; [apply writes_within_refl | intros; lia].
  - cbn [BCSRMatApplyUpper2_rows]. cbn zeta.
    assert (Hx' : fst x ≠ fst y \/ (fst x = fst y /\ snd x = snd y)).
    { destruct Hx as [Hx|Hx]; [by left | right]. by rewrite Hx. }
    destruct (upper_step_spec data n 0 (padd x (2 * n)) y (padd y (2 * n)) m)
      as [[L1 F1] V1].
    { cbn [padd fst snd]. lia. }
    set (m1 := upper_step data n 0 (padd x (2 * n)) y (padd y (2 * n)) m)
      in *.
    cbn [padd fst snd] in F1.
    destruct (IH m1 x y Hx) as [[L' F'] V'].
    { intros i j Hi Hj. apply (Hpat i j); [lia | done]. }
    { rewrite L1. lia. }
    set (m' := BCSRMatApplyUpper2_rows data n x y m1) in *.
    split; [split|].
    + intros b'. by rewrite L', L1.
    + intros q k Hq. rewrite F', F1; [done | lia | lia].
    + intros i Hi. destruct (decide (i = n)) as [->|Hne].
      * assert (E : blk m' y n = blk m1 y n).
        { unfold blk. rewrite !F' by lia. done. }
        rewrite E. unfold blk at 1. rewrite !ld_padd in V1.
        rewrite Nat.add_0_r in V1. rewrite V1.
        fold (blk m x n). f_equal. unfold upper_elim.
        apply fold_solve_ext. intros j' Hj'.
        assert (Hc : n < ix (cols data) j').
        { apply (Hpat n j'); lia. }
        rewrite !F', !F1 by lia. done.
      * rewrite (V' i ltac:(lia)). do 2 f_equal.
        unfold blk. rewrite !F1 by lia. done.
Qed.

Lemma padd_0 p : padd p (2 * 0) = p.
Proof. destruct p as [b o]. unfold padd. cbn [fst snd Nat.mul]. f_equal. lia. Qed.

(** The rows of [BCSRMatVecMultAdd2]; [y] is either in another buffer
    than [z] or [z] itself. *)
Lemma BCSRMatVecMultAdd2_rows_spec data xv n : forall i m x y z,
  fst x ≠ fst z ->
  fst y ≠ fst z \/ (fst y = fst z /\ snd y = snd z) ->
  (forall j, ld m x j = xv j) ->
  snd z + 2 * n <= length (m (fst z)) ->
  let m' := BCSRMatVecMultAdd2_rows data n i x y z m in
  writes_within m m' (fst z) (snd z) (snd z + 2 * n) /\
  (forall r, r < n -> blk m' z r = row_sum data xv (i + r) (blk m y r)).
Proof.
  induction n as [|n IH]; intros i m x y z Hxz Hy Hx Hlen; cbn zeta.
  - split; [apply writes_within_refl | intros; lia].
  - cbn [BCSRMatVecMultAdd2_rows]. cbn zeta.
    set (m1 := st m z 0 (ld m y 0)). set (m2 := st m1 z 1 (ld m1 y 1)).
    destruct (writes_within_st2 m z (ld m y 0) (ld m1 y 1)) as [L2 F2].
    fold m1 m2 in L2, F2.
    assert (Hy1 : ld m1 y 1 = ld m y 1).
    { unfold m1. apply ld_st_indep. lia. }
    assert (H0 : ld m2 z 0 = ld m y 0).
    { unfold m2. rewrite ld_st_ne by lia. unfold m1. apply ld_st_eq. lia. }
    assert (H1 : ld m2 z 1 = ld m y 1).
    { unfold m2. rewrite ld_st_eq; [done|]. unfold m1.
      rewrite length_st. lia. }
    set (k := ix (rowp data) i).
    set (cnt := ix (rowp data) (i + 1) - k).
    assert (Hx2 : forall j, ld m2 x j = xv j).
    { intros j. rewrite F2 by (by left). apply Hx. }
    destruct (BCSRMatVecMult2_row_reads data xv cnt k m2 x z Hxz Hx2)
      as (Ra & Rl & Rv & Rf); [rewrite L2; lia|].
    set (m3 := BCSRMatVecMult2_row data cnt k (4 * k) x z m2) in *.
    rewrite H0, H1 in Rv.
    assert (L3 : forall b', length (m3 b') = length (m b')).
    { intros b'. destruct (decide (b' = fst z)) as [->|Hb].
      - by rewrite Rl, L2.
      - by rewrite Ra, L2. }
    assert (F3 : forall q j, fst q ≠ fst z \/ snd q + j < snd z
                             \/ snd z + 2 <= snd q + j ->
                  ld m3 q j = ld m q j).
    { intros q j Hq. rewrite <- F2 by done.
      destruct (decide (fst q = fst z)) as [Hb|Hb].
      - rewrite !ld_sx, Hb. apply Rf; lia.
      - unfold ld. by rewrite Ra. }
    assert (Hx3 : forall j, ld m3 x j = xv j).
    { intros j. rewrite F3 by (by left). apply Hx. }
    destruct (IH (i + 1) m3 x (padd y 2) (padd z 2)) as [[L' F'] V'];
      [done | cbn [padd fst snd]; lia | done
       | cbn [padd fst snd]; rewrite L3; lia |].
    cbn [padd fst snd] in F'.
    set (m' := BCSRMatVecMultAdd2_rows data n (i + 1) x (padd y 2)
                 (padd z 2) m3) in *.
    split; [split|].
    + intros b'. by rewrite L', L3.
    + intros q j Hq. rewrite F', F3; [done | lia | lia].
    + intros r Hr. destruct r as [|r].
      * rewrite Nat.add_0_r. unfold blk at 1. cbn [Nat.mul Nat.add].
        rewrite !F' by lia. exact Rv.
      * specialize (V' r ltac:(lia)).
        change (padd z 2) with (padd z (2 * 1)) in V'.
        change (padd y 2) with (padd y (2 * 1)) in V'.
        rewrite !blk_padd in V'.
        replace (i + S r) with (i + 1 + r) by lia.
        change (S r) with (1 + r). rewrite V'. f_equal.
        unfold blk. rewrite !F3 by lia. done.
Qed.

(** X1: [BCSRMatVecMult2] leaves in the block rows of [y] the sums of the
    stored 2x2 blocks of each row applied to [x], accumulated from zero in
    storage order; it changes nothing but these [2*nrows] scalars. *)
Theorem BCSRMatVecMult2_row_sums data x y m :
  fst x ≠ fst y ->
  snd y + 2 * nrows data <= length (m (fst y)) ->
  let m' := BCSRMatVecMult2 data x y m in
  (forall i, i < nrows data ->
     blk m' y i = row_sum data (ld m x) i (s_zero, s_zero)) /\
  writes_within m m' (fst y) (snd y) (snd y + 2 * nrows data).
Proof.
  intros Hxy Hlen m'. unfold m', BCSRMatVecMult2.
  destruct (BCSRMatVecMult2_rows_spec data (ld m x) (nrows data) 0 m x y
              Hxy ltac:(done) Hlen) as (Ra & Rl & Rv & Rf).
  split; [exact Rv|]. split.
  - intros b'. destruct (decide (b' = fst y)) as [->|Hb]; [done|].
    by rewrite Ra.
  - intros q k Hq. destruct (decide (fst q = fst y)) as [Hb|Hb].
    + rewrite !ld_sx, Hb. apply Rf. lia.
    + unfold ld. by rewrite Ra.
Qed.

(** X2: [BCSRMatVecMultAdd2] leaves in the block rows of [z] the row sums
    of the matrix applied to [x], accumulated onto the rows of [y], also
    when [z] is [y] itself; nothing but these [2*nrows] scalars of [z]
    changes. *)
Theorem BCSRMatVecMultAdd2_row_sums data x y z m :
  fst x ≠ fst z ->
  fst y ≠ fst z \/ y = z ->
  snd z + 2 * nrows data <= length (m (fst z)) ->
  let m' := BCSRMatVecMultAdd2 data x y z m in
  (forall i, i < nrows data ->
     blk m' z i = row_sum data (ld m x) i (blk m y i)) /\
  writes_within m m' (fst z) (snd z) (snd z + 2 * nrows data).
Proof.
  intros Hxz Hy Hlen m'. unfold m', BCSRMatVecMultAdd2.
  destruct (BCSRMatVecMultAdd2_rows_spec data (ld m x) (nrows data) 0 m
              x y z Hxz) as [W V]; [|done|done|by split].
  destruct Hy as [Hy|Hy]; [by left | right]. by rewrite Hy.
Qed.

(** X3: [BCSRMatApplyLower2] is the forward substitution with the unit
    lower triangle: each block row of [y] ends as the row of [x] minus
    the entries left of the diagonal applied to the final rows of [y]
    above it.  [x] may be [y] itself; only the [2*nrows] scalars of [y]
    change. *)
Theorem BCSRMatApplyLower2_forward_substitution data x y m :
  fst x ≠ fst y \/ x = y ->
  lower_pattern data 0 (nrows data) ->
  snd y + 2 * nrows data <= length (m (fst y)) ->
  let m' := BCSRMatApplyLower2 data x y m in
  (forall i, i < nrows data ->
     blk m' y i
     = lower_elim data (ld m' y) 0 i (ix (rowp data) i) (blk m x i)) /\
  writes_within m m' (fst y) (snd y) (snd y + 2 * nrows data).
Proof.
  intros Hx Hpat Hlen m'. unfold m', BCSRMatApplyLower2.
  pose proof (BCSRMatApplyLower2_rows_spec data (nrows data) 0 m x y)
    as Hs.
  rewrite padd_0 in Hs. cbn [Nat.add] in Hs.
  destruct (Hs Hx Hpat Hlen) as [W V].
  split; [exact V|].
  eapply writes_within_weaken; [exact W | lia | lia].
Qed.

(** X4: [BCSRMatApplyUpper2] is the back substitution with the stored
    inverses of the diagonal blocks: each block row of [y] ends as the
    stored diagonal block times (the row of [x] minus the entries right
    of the diagonal applied to the final rows of [y] below it).  [x] may
    be [y] itself; only the [2*nrows] scalars of [y] change. *)
Theorem BCSRMatApplyUpper2_back_substitution data x y m :
  fst x ≠ fst y \/ x = y ->
  upper_pattern data 0 (nrows data) ->
  snd y + 2 * nrows data <= length (m (fst y)) ->
  let m' := BCSRMatApplyUpper2 data x y m in
  (forall i, i < nrows data ->
     blk m' y i
     = diag_apply data i (upper_elim data (ld m' y) 0 i (blk m x i))) /\
  writes_within m m' (fst y) (snd y) (snd y + 2 * nrows data).
Proof.
  intros Hx Hpat Hlen m'. unfold m', BCSRMatApplyUpper2.
  destruct (BCSRMatApplyUpper2_rows_spec data (nrows data) m x y
              Hx Hpat Hlen) as [W V].
  split; [exact V | exact W].
Qed.

(** X5: [BCSRMatApplyPartialLower2] is the forward substitution on the
    rows after [var_offset], restricted to the entries in the columns
    from [var_offset] on; the first interface row is left as it is, and
    the scan for the first interface column of a row stops within the
    row, at or before its diagonal entry. *)
Theorem BCSRMatApplyPartialLower2_interface_rows data x v m :
  v < nrows data ->
  (forall i, v < i < nrows data -> row_sorted_to_diag data i) ->
  snd x + 2 * (nrows data - v) <= length (m (fst x)) ->
  let m' := BCSRMatApplyPartialLower2 data x v m in
  (forall r, 1 <= r < nrows data - v ->
     blk m' x r = interface_elim data (ld m' x) v (v + r) (blk m x r)) /\
  writes_within m m' (fst x) (snd x + 2) (snd x + 2 * (nrows data - v)) /\
  (forall i, v < i < nrows data ->
     ix (rowp data) i <= interface_start data i v <= ix (diag data) i).
Proof.
  intros Hv Hs Hlen m'. unfold m', BCSRMatApplyPartialLower2.
  change (padd x 2) with (padd x (2 * 1)).
  destruct (BCSRMatApplyPartialLower2_rows_spec data v
              (nrows data - (v + 1)) 1 m x) as [W V].
  { intros r j Hr Hj.
    destruct (interface_start_sorted data (v + r) v ltac:(lia)
                (Hs (v + r) ltac:(lia))) as (_ & _ & Hc).
    apply Hc. done. }
  { lia. }
  split; [|split].
  - intros r Hr. rewrite (V r ltac:(lia)).
    apply interface_elim_start; [lia | apply Hs; lia].
  - eapply writes_within_weaken; [exact W | lia | lia].
  - intros i Hi.
    by destruct (interface_start_sorted data i v ltac:(lia) (Hs i Hi))
      as (Hr & _).
Qed.

(** X6: [BCSRMatApplyPartialUpper2] is the back substitution on the rows
    from [var_offset] on, against the interface part of the vector. *)
Theorem BCSRMatApplyPartialUpper2_interface_rows data x v m :
  v <= nrows data ->
  upper_pattern data v (nrows data) ->
  snd x + 2 * (nrows data - v) <= length (m (fst x)) ->
  let m' := BCSRMatApplyPartialUpper2 data x v m in
  (forall r, r < nrows data - v ->
     blk m' x r
     = diag_apply data (v + r)
         (upper_elim data (ld m' x) (2 * v) (v + r) (blk m x r))) /\
  writes_within m m' (fst x) (snd x) (snd x + 2 * (nrows data - v)).
Proof.
  intros Hv Hpat Hlen m'. unfold m', BCSRMatApplyPartialUpper2.
  destruct (BCSRMatApplyPartialUpper2_rows_spec data v (nrows data - v)
              m x) as [W V]; [|done|by split].
  by replace (v + (nrows data - v)) with (nrows data) by lia.
Qed.

(** X7: [BCSRMatApplyFactorSchur2] back-substitutes the rows before
    [var_offset] against the whole vector and writes to these rows only:
    the interface part is read, never written. *)
Theorem BCSRMatApplyFactorSchur2_interior_rows data x v m :
  upper_pattern data 0 v ->
  snd x + 2 * v <= length (m (fst x)) ->
  let m' := BCSRMatApplyFactorSchur2 data x v m in
  (forall i, i < v ->
     blk m' x i
     = diag_apply data i (upper_elim data (ld m' x) 0 i (blk m x i))) /\
  writes_within m m' (fst x) (snd x) (snd x + 2 * v).
Proof.
  intros Hpat Hlen m'. unfold m', BCSRMatApplyFactorSchur2.
  rewrite BCSRMatApplyFactorSchur2_rows_upper.
  rewrite BCSRMatApplyUpper2_rows_partial.
  destruct (BCSRMatApplyPartialUpper2_rows_spec data 0 v m x Hpat Hlen)
    as [W V].
  split; [exact V | exact W].
Qed.

(** X8: the in-place back solve splits at any row [var_offset]: when the
    entries right of the diagonal in the rows from [var_offset] on lie in
    the columns from [var_offset] on, [BCSRMatApplyUpper2] on the whole
    vector is [BCSRMatApplyPartialUpper2] on its interface part followed
    by [BCSRMatApplyFactorSchur2]. *)
Theorem BCSRMatApplyUpper2_split data x v m :
  v <= nrows data ->
  (forall i j, v <= i < nrows data ->
     ix (diag data) i < j < ix (rowp data) (i + 1) ->
     v <= ix (cols data) j) ->
  BCSRMatApplyUpper2 data x x m
  = BCSRMatApplyFactorSchur2 data x v
      (BCSRMatApplyPartialUpper2 data (padd x (2 * v)) v m).
Proof.
  intros Hv Hc.
  unfold BCSRMatApplyUpper2, BCSRMatApplyFactorSchur2,
    BCSRMatApplyPartialUpper2.
  rewrite BCSRMatApplyFactorSchur2_rows_upper.
  replace (nrows data) with (v + (nrows data - v)) at 1 by lia.
  apply BCSRMatApplyUpper2_rows_split.
  intros i j Hi Hj. apply (Hc i j); [lia | done].
Qed.
End SolveFacts.

Lemma BCSRMatVecMult2_row_sums_witness :
  let m' := BCSRMatVecMult2 ex_LU (0, 0) (1, 0) ex_solve_mem in
  (forall i, i < nrows ex_LU ->
     blk m' (1, 0) i
     = row_sum ex_LU (ld ex_solve_mem (0, 0)) i (s_zero, s_zero)) /\
  writes_within ex_solve_mem m' 1 0 (0 + 2 * nrows ex_LU).
Proof.
  apply (BCSRMatVecMult2_row_sums ex_LU (0, 0) (1, 0) ex_solve_mem).
  - cbn. lia.
  - cbn. lia.
Defined.

Lemma BCSRMatVecMultAdd2_row_sums_witness :
  let m' := BCSRMatVecMultAdd2 ex_U3 (0, 0) (1, 0) (1, 0) ex_solve_mem3 in
  (forall i, i < nrows ex_U3 ->
     blk m' (1, 0) i
     = row_sum ex_U3 (ld ex_solve_mem3 (0, 0)) i
         (blk ex_solve_mem3 (1, 0) i)) /\
  writes_within ex_solve_mem3 m' 1 0 (0 + 2 * nrows ex_U3).
Proof.
  apply (BCSRMatVecMultAdd2_row_sums ex_U3 (0, 0) (1, 0) (1, 0)
           ex_solve_mem3).
  - cbn. lia.
  - right. reflexivity.
  - cbn. lia.
Defined.

Lemma BCSRMatApplyLower2_forward_substitution_witness :
  let m' := BCSRMatApplyLower2 ex_LU3 (0, 0) (1, 0) ex_solve_mem3 in
  (forall i, i < nrows ex_LU3 ->
     blk m' (1, 0) i
     = lower_elim ex_LU3 (ld m' (1, 0)) 0 i (ix (rowp ex_LU3) i)
         (blk ex_solve_mem3 (0, 0) i)) /\
  writes_within ex_solve_mem3 m' 1 0 (0 + 2 * nrows ex_LU3).
Proof.
  apply (BCSRMatApplyLower2_forward_substitution ex_LU3 (0, 0) (1, 0)
           ex_solve_mem3).
  - left. cbn. lia.
  - intros i j Hi Hj. cbn in Hi.
    destruct i as [|[|[|i]]]; [| | |lia]; cbn in Hj; small_index j.
  - cbn. lia.
Defined.

Lemma BCSRMatApplyUpper2_back_substitution_witness :
  let m' := BCSRMatApplyUpper2 ex_U3 (0, 0) (0, 0) ex_solve_mem3 in
  (forall i, i < nrows ex_U3 ->
     blk m' (0, 0) i
     = diag_apply ex_U3 i
         (upper_elim ex_U3 (ld m' (0, 0)) 0 i
            (blk ex_solve_mem3 (0, 0) i))) /\
  writes_within ex_solve_mem3 m' 0 0 (0 + 2 * nrows ex_U3).
Proof.
  apply (BCSRMatApplyUpper2_back_substitution ex_U3 (0, 0) (0, 0)
           ex_solve_mem3).
  - right. reflexivity.
  - intros i j Hi Hj. cbn in Hi.
    destruct i as [|[|[|i]]]; [| | |lia]; cbn in Hj; small_index j.
  - cbn. lia.
Defined.

Lemma BCSRMatApplyPartialLower2_interface_rows_witness :
  let m' := BCSRMatApplyPartialLower2 ex_LU3 (0, 2) 1 ex_solve_mem3 in
  (forall r, 1 <= r < nrows ex_LU3 - 1 ->
     blk m' (0, 2) r
     = interface_elim ex_LU3 (ld m' (0, 2)) 1 (1 + r)
         (blk ex_solve_mem3 (0, 2) r)) /\
  writes_within ex_solve_mem3 m' 0 (2 + 2) (2 + 2 * (nrows ex_LU3 - 1)) /\
  (forall i, 1 < i < nrows ex_LU3 ->
     ix (rowp ex_LU3) i <= interface_start ex_LU3 i 1 <= ix (diag ex_LU3) i).
Proof.
  apply (BCSRMatApplyPartialLower2_interface_rows ex_LU3 (0, 2) 1
           ex_solve_mem3).
  - cbn. lia.
  - intros i Hi. cbn in Hi. assert (i = 2) as -> by lia.
    split; [cbn; lia|]. split; [cbn; lia|]. split; [reflexivity|].
    intros j k Hj Hjk Hk. cbn in Hj, Hk.
    assert (j = 3 /\ k = 4 \/ j = 3 /\ k = 5 \/ j = 4 /\ k = 5) as Hc by lia.
    destruct Hc as [[-> ->]|[[-> ->]|[-> ->]]]; cbn; lia.
  - cbn. lia.
Defined.

Lemma BCSRMatApplyPartialUpper2_interface_rows_witness :
  let m' := BCSRMatApplyPartialUpper2 ex_U3 (0, 2) 1 ex_solve_mem3 in
  (forall r, r < nrows ex_U3 - 1 ->
     blk m' (0, 2) r
     = diag_apply ex_U3 (1 + r)
         (upper_elim ex_U3 (ld m' (0, 2)) (2 * 1) (1 + r)
            (blk ex_solve_mem3 (0, 2) r))) /\
  writes_within ex_solve_mem3 m' 0 2 (2 + 2 * (nrows ex_U3 - 1)).
Proof.
  apply (BCSRMatApplyPartialUpper2_interface_rows ex_U3 (0, 2) 1
           ex_solve_mem3).
  - cbn. lia.
  - intros i j Hi Hj. cbn in Hi.
    destruct i as [|[|[|i]]]; [lia | | |lia]; cbn in Hj; small_index j.
  - cbn. lia.
Defined.

Lemma BCSRMatApplyFactorSchur2_interior_rows_witness :
  let m' := BCSRMatApplyFactorSchur2 ex_U3 (0, 0) 1 ex_solve_mem3 in
  (forall i, i < 1 ->
     blk m' (0, 0) i
     = diag_apply ex_U3 i
         (upper_elim ex_U3 (ld m' (0, 0)) 0 i
            (blk ex_solve_mem3 (0, 0) i))) /\
  writes_within ex_solve_mem3 m' 0 0 (0 + 2 * 1).
Proof.
  apply (BCSRMatApplyFactorSchur2_interior_rows ex_U3 (0, 0) 1
           ex_solve_mem3).
  - intros i j Hi Hj. assert (i = 0) as -> by lia.
    cbn in Hj; small_index j.
  - cbn. lia.
Defined.

Lemma BCSRMatApplyUpper2_split_witness :
  BCSRMatApplyUpper2 ex_U3 (0, 0) (0, 0) ex_solve_mem3
  = BCSRMatApplyFactorSchur2 ex_U3 (0, 0) 1
      (BCSRMatApplyPartialUpper2 ex_U3 (padd (0, 0) (2 * 1)) 1
         ex_solve_mem3).
Proof.
  apply (BCSRMatApplyUpper2_split ex_U3 (0, 0) 1 ex_solve_mem3).
  - cbn. lia.
  - intros i j Hi Hj. cbn in Hi.
    destruct i as [|[|[|i]]]; [lia | | |lia]; cbn in Hj; small_index j.
Defined.

(** The split solve on the example: the three block rows after the
    partial back solve and the interior back solve. *)
Example ex_U3_split_values :
  BCSRMatApplyUpper2 ex_U3 (0, 0) (0, 0) ex_solve_mem3 0
  = BCSRMatApplyFactorSchur2 ex_U3 (0, 0) 1
      (BCSRMatApplyPartialUpper2 ex_U3 (0, 2) 1 ex_solve_mem3) 0.
Proof. reflexivity. Qed.

(** ** [ApproximateSchur::applyFactor] on more than one rank *)
Section SchurFacts.
Context {TacsScalar : Type} `{ScalarOps TacsScalar}.
Local Abbreviation machine := (@machine TacsScalar).
Local Abbreviation mem := (@mem TacsScalar).
Context {double : Type}.
Variable GMRES_solve :
  @GMRES TacsScalar double -> BCSRMatData TacsScalar -> nat -> nat ->
  mem -> mem.
Implicit Types (m : mem) (p q : ptr).

(** [memcpy] writes the [n] scalars at [dst] and nothing else. *)
Lemma memcpy_fold m dst src n : forall a acc,
  (forall b, length (acc b) = length (m b)) ->
  let m' := fold_left (fun acc i => st acc dst i (ld m src i)) (seq a n) acc in
  (forall b, length (m' b) = length (m b)) /\
  (forall q k, fst q ≠ fst dst \/ snd q + k < snd dst + a
               \/ snd dst + a + n <= snd q + k ->
     ld m' q k = ld acc q k) /\
  (snd dst + a + n <= length (m (fst dst)) ->
   forall k, a <= k < a + n -> ld m' dst k = ld m src k).
Proof.
  induction n as [|n IH]; intros a acc Hl; cbn zeta.
  - cbn [seq fold_left]. split; [done|]. split; [done | intros; lia].
  - cbn [seq fold_left].
    set (acc1 := st acc dst a (ld m src a)).
    destruct (IH (S a) acc1) as (IL & IF & IV).
    { intros b. unfold acc1. by rewrite length_st. }
    split; [done|]. split.
    + intros q k Hq. rewrite IF by lia. unfold acc1.
      apply ld_st_indep. lia.
    + intros Hlen k Hk. destruct (decide (k = a)) as [->|Hne].
      * rewrite IF by lia. unfold acc1. apply ld_st_eq. rewrite Hl. lia.
      * apply IV; lia.
Qed.

Lemma memcpy_spec m dst src n :
  let m' := memcpy dst src n m in
  writes_within m m' (fst dst) (snd dst) (snd dst + n) /\
  (snd dst + n <= length (m (fst dst)) ->
   forall k, k < n -> ld m' dst k = ld m src k).
Proof.
  cbn zeta. unfold memcpy.
  destruct (memcpy_fold m dst src n 0 m ltac:(done)) as (L & F & V).
  split; [split; [done|]|].
  - intros q k Hq. apply F. lia.
  - intros Hlen k Hk. apply V; lia.
Qed.

(** The kernels are sequences of stores: they keep the length of every
    array, whatever the pattern. *)
Lemma lower_row_length data n : forall j a off src dst m b,
  length (lower_row data n j a off src dst m b) = length (m b).
Proof.
  induction n as [|n IH]; intros j a off src dst m b; [done|].
  cbn [lower_row]. cbn zeta. by rewrite IH, !length_st.
Qed.

Lemma BCSRMatApplyLower2_rows_length data n : forall i x y yy m b,
  length (BCSRMatApplyLower2_rows data n i x y yy m b) = length (m b).
Proof.
  induction n as [|n IH]; intros i x y yy m b; [done|].
  cbn [BCSRMatApplyLower2_rows]. cbn zeta.
  by rewrite IH, lower_row_length, !length_st.
Qed.

Lemma upper_step_writes data i off rhs src dst m :
  writes_within m (upper_step data i off rhs src dst m)
    (fst dst) (snd dst) (snd dst + 2).
Proof. unfold upper_step. cbn zeta. apply writes_within_st2. Qed.

Lemma BCSRMatApplyPartialUpper2_rows_writes data v n : forall x m,
  writes_within m (BCSRMatApplyPartialUpper2_rows data n v x m)
    (fst x) (snd x) (snd x + 2 * n).
Proof.
  induction n as [|n IH]; intros x m; [apply writes_within_refl|].
  cbn [BCSRMatApplyPartialUpper2_rows]. cbn zeta.
  destruct (upper_step_writes data (v + n) (2 * v) (padd x (2 * n)) x
              (padd x (2 * n)) m) as [L1 F1].
  cbn [padd fst snd] in F1.
  destruct (IH x (upper_step data (v + n) (2 * v) (padd x (2 * n)) x
                    (padd x (2 * n)) m)) as [L2 F2].
  split.
  - intros b. by rewrite L2, L1.
  - intros q k Hq. rewrite F2, F1; [done | lia | lia].
Qed.


(** A back solve within one array depends on that array only. *)
Lemma upper_row_buf data off src m1 m2 n : forall j a acc,
  m1 (fst src) = m2 (fst src) ->
  upper_row data n j a off src m1 acc = upper_row data n j a off src m2 acc.
Proof.
  induction n as [|n IH]; intros j a acc Hb; [done|].
  cbn [upper_row]. cbn zeta. unfold ld. rewrite Hb. by apply IH.
Qed.

Lemma upper_step_buf data i off rhs src dst m1 m2 :
  fst rhs = fst dst -> fst src = fst dst ->
  m1 (fst dst) = m2 (fst dst) ->
  upper_step data i off rhs src dst m1 (fst dst)
  = upper_step data i off rhs src dst m2 (fst dst).
Proof.
  intros Hr Hs Hb. unfold upper_step. cbn zeta.
  rewrite (upper_row_buf data off src m1 m2) by by rewrite Hs.
  assert (El : forall k, ld m1 rhs k = ld m2 rhs k).
  { intros k. unfold ld. by rewrite Hr, Hb. }
  rewrite !El, !st_same. by rewrite Hb.
Qed.

Lemma BCSRMatApplyFactorSchur2_rows_buf data n : forall x m1 m2,
  m1 (fst x) = m2 (fst x) ->
  BCSRMatApplyFactorSchur2_rows data n x m1 (fst x)
  = BCSRMatApplyFactorSchur2_rows data n x m2 (fst x).
Proof.
  induction n as [|n IH]; intros x m1 m2 Hb; [done|].
  cbn [BCSRMatApplyFactorSchur2_rows]. cbn zeta. apply IH.
  by apply (upper_step_buf data n 0 (padd x (2 * n)) x (padd x (2 * n))).
Qed.

(** X10: when the inner solver returns its right-hand side, as it does
    for an interface that is not coupled to other ranks, the path with
    the inner solver leaves in [y] the full solve [U^{-1} L^{-1} x] of
    the factor: the forward solve followed by the in-place back solve. *)
Theorem ApproximateSchur_applyFactor_decoupled
    (this : @ApproximateSchur TacsScalar double) ksm v r wv x y
    (w : machine) :
  let data := sc_Apc this in
  sc_inner_ksm this = Some ksm ->
  sc_start this = Some (2 * v) -> sc_end this = Some (2 * nrows data) ->
  sc_var_offset this = Some v ->
  sc_rvec this = Some r -> sc_wvec this = Some wv ->
  y ≠ r -> y ≠ wv -> v <= nrows data ->
  (forall m, GMRES_solve ksm data r wv m y = m y) ->
  (forall m k, k < 2 * (nrows data - v) ->
     ld (GMRES_solve ksm data r wv m) (wv, 0) k = ld m (r, 0) k) ->
  (forall i j, v <= i < nrows data ->
     ix (diag data) i < j < ix (rowp data) (i + 1) ->
     v <= ix (cols data) j) ->
  2 * nrows data <= length (heap w y) ->
  2 * (nrows data - v) <= length (heap w r) ->
  exists w',
    ApproximateSchur_applyFactor GMRES_solve this (TACSBVec x) (TACSBVec y) w
      = Done w' /\
    heap w' y
    = BCSRMatApplyUpper2 data (y, 0) (y, 0)
        (BCSRMatApplyLower2 data (x, 0) (y, 0) (heap w)) y.
Proof.
  intros data Hk Hs He Hv Hr Hw Hyr Hyw Hvn Hsolve Hcopy Hc Hleny Hlenr.
  unfold ApproximateSchur_applyFactor. cbn [dynamic_cast_TACSBVec].
  rewrite Hk, Hs, He, Hv, Hr, Hw. cbn [member deref mbind outcome_bind obind].
  fold data. unfold BCSRMat_applyLower, BCSRMat_applyPartialUpper,
    BCSRMat_applyFactorSchur.
  replace (2 * nrows data - 2 * v) with (2 * (nrows data - v)) by lia.
  set (cnt := 2 * (nrows data - v)).
  set (mL := BCSRMatApplyLower2 data (x, 0) (y, 0) (heap w)).
  set (mU := BCSRMatApplyPartialUpper2 data (y, 2 * v) v mL).
  set (m3 := memcpy (r, 0) (y, 2 * v) cnt mU).
  set (m4 := GMRES_solve ksm data r wv m3).
  set (m5 := memcpy (y, 2 * v) (wv, 0) cnt m4).
  eexists. split; [reflexivity|]. cbn [heap with_heap].
  assert (LL : forall b, length (mL b) = length (heap w b)).
  { intros b. unfold mL, BCSRMatApplyLower2.
    apply BCSRMatApplyLower2_rows_length. }
  destruct (BCSRMatApplyPartialUpper2_rows_writes data v (nrows data - v)
              (y, 2 * v) mL) as [LU FU].
  fold (BCSRMatApplyPartialUpper2 data (y, 2 * v) v mL) in LU, FU.
  fold mU in LU, FU.
  destruct (memcpy_spec mU (r, 0) (y, 2 * v) cnt) as [[L3 F3] V3].
  fold m3 in L3, F3, V3. cbn [fst snd] in F3, V3.
  destruct (memcpy_spec m4 (y, 2 * v) (wv, 0) cnt) as [[L5 F5] V5].
  fold m5 in L5, F5, V5. cbn [fst snd] in F5, V5.
  assert (L4y : length (m4 y) = length (heap w y)).
  { unfold m4. by rewrite Hsolve, L3, LU, LL. }
  assert (E4 : forall k, ld m4 (y, 0) k = ld mU (y, 0) k).
  { intros k. unfold m4, ld. cbn [fst snd]. rewrite Hsolve.
    change (nth (0 + k) (m3 y) s_zero) with (ld m3 (y, 0) k).
    rewrite F3; [done | by left]. }
  assert (E5 : m5 y = mU y).
  { apply (nth_ext _ _ s_zero s_zero).
    - by rewrite L5, L4y, LU, LL.
    - intros k Hk'.
      change (ld m5 (y, 0) k = ld mU (y, 0) k).
      destruct (le_lt_dec (2 * v) k) as [Hge|Hlt].
      + destruct (le_lt_dec (2 * v + cnt) k) as [Hge2|Hlt2].
        * rewrite F5 by (cbn [fst snd]; lia). apply E4.
        * replace k with (2 * v + (k - 2 * v)) by lia.
          rewrite <- !(ld_padd _ (y, 0) (2 * v)).
          change (padd (y, 0) (2 * v)) with (y, 2 * v).
          rewrite V5 by (rewrite ?L4y; lia).
          unfold m4. rewrite Hcopy by (unfold cnt in Hlt2; lia).
          apply V3; [rewrite LU, LL; lia | lia].
      + rewrite F5 by (cbn [fst snd]; lia). apply E4. }
  unfold BCSRMatApplyFactorSchur2.
  pose proof (BCSRMatApplyFactorSchur2_rows_buf data v (y, 0) m5 mU E5)
    as Eb.
  cbn [fst] in Eb. rewrite Eb.
  rewrite BCSRMatApplyFactorSchur2_rows_upper.
  unfold BCSRMatApplyUpper2. fold mL.
  pose proof (BCSRMatApplyUpper2_rows_split data v (nrows data - v)
                (y, 0) mL) as Es.
  replace (v + (nrows data - v)) with (nrows data) in Es by lia.
  rewrite Es; [done|].
  intros i j Hi Hj. apply (Hc i j); [lia | done].
Qed.
End SchurFacts.

(** The example object is the one the constructor builds on rank 0. *)
Example ex_schur_constructed :
  ApproximateSchur_ctor (fun d _ _ => d) ex_schur_pm 0%Z tt 10%Z tt tt 4 2 3
  = Done ex_schur.
Proof. reflexivity. Qed.


Lemma ApproximateSchur_applyFactor_decoupled_witness :
  exists w',
    ApproximateSchur_applyFactor ex_copy_solve ex_schur (TACSBVec 0)
      (TACSBVec 1) ex_schur_machine = Done w' /\
    heap w' 1
    = BCSRMatApplyUpper2 (sc_Apc ex_schur) (1, 0) (1, 0)
        (BCSRMatApplyLower2 (sc_Apc ex_schur) (0, 0) (1, 0)
           (heap ex_schur_machine)) 1.
Proof.
  refine (ApproximateSchur_applyFactor_decoupled ex_copy_solve
            ex_schur ex_schur_ksm 1 2 3 0 1 ex_schur_machine
            _ _ _ _ _ _ _ _ _ _ _ _ _ _);
    try reflexivity; try (cbn; lia).
  - intros i j Hi Hj. cbn in Hi.
    destruct i as [|[|[|i]]]; [lia | | |lia]; cbn in Hj; small_index j.
Defined.

(** The values of the example: the solve of [ex_U3] from the array 0. *)
Example ex_schur_solve_values :
  match ApproximateSchur_applyFactor ex_copy_solve ex_schur (TACSBVec 0)
          (TACSBVec 1) ex_schur_machine with
  | Done w' => heap w' 1 = [37; 17; -16; -26; 11; 6]%Z
  | Fault _ => False
  end.
Proof. vm_compute. reflexivity. Qed.

(** ** [PMat::init] and what depends on it *)
Section InitFacts.
Context {TacsScalar : Type} `{ScalarOps TacsScalar}.
Local Abbreviation machine := (@machine TacsScalar).
Local Abbreviation PMat := (@PMat TacsScalar).
Context {double : Type}.
Variable BCSRMat_ILU :
  BCSRMatData TacsScalar -> Z -> double -> BCSRMatData TacsScalar.

Lemma stderr_eprint_ne msg (w : machine) : stderr (eprint msg w) ≠ stderr w.
Proof.
  unfold eprint. cbn [stderr]. intros Habs.
  apply (f_equal length) in Habs. rewrite length_app in Habs.
  cbn in Habs. lia.
Qed.

(** X11: [PMat::init] completes exactly when its four checks pass: the
    block-diagonal matrix is square, [Bext] has no more rows than it,
    the columns of [Bext] are the external variables of the map and the
    block sizes agree.  Then nothing is printed and the halo buffer is a
    new zeroed array of [bsize * getDim] scalars.  Otherwise exactly one
    diagnostic is printed, no array is touched, the halo buffer stays
    null, and a later [mult] on vectors goes through a null or
    unassigned member.  A [Bext] with too many rows is reported with the
    text of the squareness check. *)
Theorem PMat_init_checks rm (A_ B_ : BCSRMatData TacsScalar) d bc xe
    (w0 : machine) :
  let ok := nrows A_ = ncols A_ /\ nrows B_ <= nrows A_ /\
            ncols B_ = getDim d /\ bsize B_ = bsize A_ in
  let pm := fst (PMat_init rm A_ B_ d bc xe w0) in
  let w1 := snd (PMat_init rm A_ B_ d bc xe w0) in
  (ok <-> x_ext pm = Some xe) /\
  (ok <-> stderr w1 = stderr w0) /\
  (ok -> heap w1 xe = repeat s_zero (bsize A_ * getDim d) /\
         (forall b, b ≠ xe -> heap w1 b = heap w0 b) /\
         ext_offset pm = Some (bsize A_ * (nrows A_ - nrows B_))) /\
  (~ ok -> (exists msg, stderr w1 = stderr w0 ++ [msg]) /\
           heap w1 = heap w0 /\ x_ext pm = None /\
           forall x y view inflight w,
             PMat_mult pm (TACSBVec x) (TACSBVec y) view inflight w = None) /\
  (nrows A_ = ncols A_ -> nrows A_ < nrows B_ ->
     stderr w1
     = stderr w0
       ++ [("PMat error: Block-diagonal matrix must be square" ++ nl)%string]).
Proof.
  intros ok pm w1. subst ok pm w1. unfold PMat_init.
  destruct (Nat.eqb_spec (nrows A_) (ncols A_)) as [Hsq|Hsq]; cbn [negb].
  2: { cbn [fst snd x_ext ext_offset].
       split; [split; [intros (? & _); done | done]|].
       split; [split; [intros (? & _); done
                      | intros Habs; by apply stderr_eprint_ne in Habs]|].
       split; [intros (? & _); done|].
       split; [|done]. intros _.
       split; [by eexists|]. split; [done|]. split; [done|].
       intros x y view inflight w. unfold PMat_mult.
       by cbn [dynamic_cast_TACSBVec ext_dist]. }
  destruct (Nat.ltb_spec (nrows A_) (nrows B_)) as [Hc|Hc].
  { cbn [fst snd x_ext ext_offset].
    split; [split; [intros (_ & ? & _); lia | done]|].
    split; [split; [intros (_ & ? & _); lia
                   | intros Habs; by apply stderr_eprint_ne in Habs]|].
    split; [intros (_ & ? & _); lia|].
    split; [|done]. intros _.
    split; [by eexists|]. split; [done|]. split; [done|].
    intros x y view inflight w. unfold PMat_mult.
    by cbn [dynamic_cast_TACSBVec ext_dist]. }
  destruct (Nat.eqb_spec (ncols B_) (getDim d)) as [Hd|Hd]; cbn [negb].
  2: { cbn [fst snd x_ext ext_offset].
       split; [split; [intros (_ & _ & ? & _); done | done]|].
       split; [split; [intros (_ & _ & ? & _); done
                      | intros Habs; by apply stderr_eprint_ne in Habs]|].
       split; [intros (_ & _ & ? & _); done|].
       split; [|intros; lia]. intros _.
       split; [by eexists|]. split; [done|]. split; [done|].
       intros x y view inflight w. unfold PMat_mult.
       by cbn [dynamic_cast_TACSBVec ext_dist ctx]. }
  destruct (Nat.eqb_spec (bsize B_) (bsize A_)) as [Hb|Hb]; cbn [negb].
  2: { cbn [fst snd x_ext ext_offset].
       split; [split; [intros (_ & _ & _ & ?); done | done]|].
       split; [split; [intros (_ & _ & _ & ?); done
                      | intros Habs; by apply stderr_eprint_ne in Habs]|].
       split; [intros (_ & _ & _ & ?); done|].
       split; [|intros; lia]. intros _.
       split; [by eexists|]. split; [done|]. split; [done|].
       intros x y view inflight w. unfold PMat_mult.
       by cbn [dynamic_cast_TACSBVec ext_dist ctx]. }
  cbn [fst snd x_ext ext_offset with_heap heap stderr].
  split; [done|]. split; [done|].
  split; [|split; [intros Hn; by destruct Hn | intros; lia]].
  intros _. split; [by rewrite setbuf_same|].
  split; [|done]. intros b Hb'. by rewrite setbuf_other.
Qed.

(** X12: on more than one rank, for a matrix whose [init] passed its
    checks, the constructor of [ApproximateSchur] completes and the range
    [start .. end) that [applyFactor] copies to and from the interface
    vectors has the local size [nvars] of the Schur operator; [start] is
    the offset at which [PMat::mult] adds the external product and
    [var_offset] is the row offset of the Schur operator. *)
Theorem ApproximateSchur_ctor_interface_range rm
    (A_ B_ : BCSRMatData TacsScalar) d bc xe (w0 : machine)
    levFill (fill : double) inner_iters inner_rtol inner_atol xs rv wv :
  nrows A_ = ncols A_ -> nrows B_ <= nrows A_ ->
  ncols B_ = getDim d -> bsize B_ = bsize A_ ->
  1 < mpi_size rm ->
  let mat := fst (PMat_init rm A_ B_ d bc xe w0) in
  exists S0 gs s e,
    ApproximateSchur_ctor BCSRMat_ILU mat levFill fill inner_iters
      inner_rtol inner_atol xs rv wv = Done S0 /\
    sc_gsmat S0 = Some gs /\
    sc_rvec S0 = Some rv /\ sc_wvec S0 = Some wv /\
    sc_start S0 = Some s /\ sc_end S0 = Some e /\
    e - s = gs_nvars gs /\
    ext_offset mat = Some s /\
    sc_var_offset S0 = Some (gs_varoffset gs) /\
    s = bsize A_ * gs_varoffset gs /\
    gs_varoffset gs + nrows B_ = nrows A_.
Proof.
  intros Hsq Hc Hd Hb Hsize mat. subst mat.
  rewrite (PMat_init_ok rm A_ B_ d bc xe w0 Hsq Hc Hd Hb). cbn [fst].
  unfold ApproximateSchur_ctor, GlobalSchurMat_ctor.
  cbn [rmap pm_bsize ext_dist N Nc Bext Aloc ext_offset].
  destruct (Nat.ltb_spec 1 (mpi_size rm)) as [_|?]; [|lia].
  cbn [member deref mbind outcome_bind obind].
  do 4 eexists. split; [reflexivity|].
  cbn [sc_gsmat sc_rvec sc_wvec sc_start sc_end sc_var_offset gs_nvars
       gs_varoffset].
  do 5 (split; [reflexivity|]).
  cbn [gs_nvars gs_varoffset].
  split; [rewrite <- Nat.mul_sub_distr_l; f_equal; lia|].
  split; [reflexivity|]. split; [reflexivity|].
  split; [reflexivity | lia].
Qed.
End InitFacts.

(** ** [ApproximateSchur::printNzPattern] *)
Section SchurPatternFacts.
Context {TacsScalar : Type} `{ScalarOps TacsScalar}.
Local Abbreviation PMat := (@PMat TacsScalar).
Context {double : Type}.
Variable BCSRMat_ILU :
  BCSRMatData TacsScalar -> Z -> double -> BCSRMatData TacsScalar.

Lemma wrap_int_add_l a b : wrap_int (wrap_int a + b) = wrap_int (a + b).
Proof.
  unfold wrap_int. f_equal.
  replace ((a + 2147483648) mod 4294967296 - 2147483648 + b + 2147483648)%Z
    with ((a + 2147483648) mod 4294967296 + b)%Z by lia.
  rewrite Zplus_mod_idemp_l. f_equal. lia.
Qed.

Lemma row_lines_ext rp (f g : nat -> nat -> string) i :
  (forall j, f i j = g i j) -> row_lines rp f i = row_lines rp g i.
Proof.
  intros Hfg. unfold row_lines. f_equal. apply map_ext. intros j. apply Hfg.
Qed.

Lemma cat_all_empty (l : list nat) (f : nat -> string) :
  (forall i, In i l -> f i = EmptyString) -> cat_all (map f l) = EmptyString.
Proof.
  induction l as [|a l IH]; intros Hf; [done|].
  cbn [map cat_all fold_right]. fold (cat_all (map f l)).
  rewrite (Hf a) by (by left). rewrite IH; [done|].
  intros i Hi. apply Hf. by right.
Qed.

(** Without a stored block the off-diagonal zone has no data line. *)
Lemma no_stored_block_lines (bext : BCSRMatData TacsScalar) f :
  no_stored_block bext = true ->
  cat_all (map (row_lines (rowp bext) f) (seq 0 (nrows bext))) = EmptyString.
Proof.
  intros Hn. apply cat_all_empty. intros i Hi.
  unfold no_stored_block in Hn. rewrite forallb_forall in Hn.
  specialize (Hn i Hi). apply Nat.leb_le in Hn.
  unfold row_lines.
  by replace (ix (rowp bext) (i + 1) - ix (rowp bext) i) with 0 by lia.
Qed.

(** X13: with [var_offset = N - Nc], as the constructor sets it on more
    than one rank, and a file that opens, [ApproximateSchur::
    printNzPattern] writes the file that [PMat::printNzPattern] writes
    for the matrix with the pattern of the factor [Apc] in the place of
    [Aloc]. *)
Theorem ApproximateSchur_printNzPattern_as_PMat
    (this : @ApproximateSchur TacsScalar double) d :
  let mat := sc_mat this in
  ext_dist mat = Some d ->
  Nc mat <= N mat ->
  sc_var_offset this = Some (N mat - Nc mat) ->
  exists file,
    ApproximateSchur_printNzPattern this true = Done file /\
    PMat_printNzPattern (set_AB mat (sc_Apc this) (Bext mat)) true
    = Some file.
Proof.
  intros mat Hd Hc Hv.
  unfold ApproximateSchur_printNzPattern, PMat_printNzPattern.
  fold mat. cbn [set_AB ext_dist rmap Aloc Bext N Nc].
  rewrite Hd, Hv. cbn [deref member mbind outcome_bind obind].
  destruct (0 <? ix (rowp (Bext mat)) (nrows (Bext mat))) eqn:Hnz.
  - assert (El : forall vo, vo = N mat - Nc mat ->
        schur_off_lines (Bext mat) d
          (zx (ownerRange (rmap mat)) (mpi_rank (rmap mat))) vo
        = cat_all (map (row_lines (rowp (Bext mat))
            (fun i j => data_line
               (wrap_int (wrap_int (wrap_int (Z.of_nat i + Z.of_nat (N mat))
                                    - Z.of_nat (Nc mat))
                          + zx (ownerRange (rmap mat)) (mpi_rank (rmap mat))))
               (Z.of_nat (ix (ext_vars d) (ix (cols (Bext mat)) j)))))
            (seq 0 (nrows (Bext mat))))).
    { intros vo ->. unfold schur_off_lines. f_equal. apply map_ext.
      intros i. apply row_lines_ext. intros j. f_equal.
      rewrite !wrap_int_add_l.
      replace (wrap_int (Z.of_nat i + Z.of_nat (N mat)) - Z.of_nat (Nc mat))%Z
        with (wrap_int (Z.of_nat i + Z.of_nat (N mat))
              + - Z.of_nat (Nc mat))%Z by lia.
      rewrite <- (Z.add_assoc (wrap_int _)), wrap_int_add_l. f_equal. lia. }
    destruct (no_stored_block (Bext mat)) eqn:Hn.
    + eexists. split; [reflexivity|].
      rewrite (no_stored_block_lines (Bext mat) _ Hn).
      by rewrite string_app_nil_r.
    + eexists. split; [reflexivity|].
      by rewrite (El (N mat - Nc mat) eq_refl).
  - eexists. split; [reflexivity|]. by rewrite string_app_nil_r.
Qed.

(** X14: the stream that [fopen] returns is not tested: when the file
    cannot be opened [ApproximateSchur::printNzPattern] writes through
    the null stream, where [PMat::printNzPattern] writes nothing and
    returns.  On the object that the constructor builds on a single
    rank, where [var_offset] is never assigned, the file is written
    without reading it exactly when [Bext] has no stored block; with a
    stored block the unassigned member is read. *)
Theorem ApproximateSchur_printNzPattern_unchecked mat d levFill
    (fill : double) inner_iters inner_rtol inner_atol xs rv wv :
  ext_dist mat = Some d ->
  mpi_size (rmap mat) = 1 ->
  exists S0,
    ApproximateSchur_ctor BCSRMat_ILU mat levFill fill inner_iters
      inner_rtol inner_atol xs rv wv = Done S0 /\
    ApproximateSchur_printNzPattern S0 false
      = Fault (NullDereference "fp") /\
    PMat_printNzPattern mat false = None /\
    (no_stored_block (Bext mat) = false ->
     0 < ix (rowp (Bext mat)) (nrows (Bext mat)) ->
     ApproximateSchur_printNzPattern S0 true
       = Fault (UninitializedRead "var_offset")) /\
    (no_stored_block (Bext mat) = true ->
     exists file, ApproximateSchur_printNzPattern S0 true = Done file).
Proof.
  intros Hd Hsize. unfold ApproximateSchur_ctor. rewrite Hsize.
  cbn [Nat.ltb Nat.leb]. eexists. split; [reflexivity|].
  unfold ApproximateSchur_printNzPattern, PMat_printNzPattern.
  cbn [sc_mat sc_Apc sc_var_offset]. rewrite Hd.
  cbn [deref member mbind outcome_bind obind].
  split; [done|]. split; [done|]. split.
  - intros Hn Hnz. apply Nat.ltb_lt in Hnz. by rewrite Hnz, Hn.
  - intros Hn. rewrite Hn.
    destruct (0 <? ix (rowp (Bext mat)) (nrows (Bext mat)));
      by eexists.
Qed.
End SchurPatternFacts.

Lemma ApproximateSchur_ctor_interface_range_witness :
  exists S0 gs s e,
    ApproximateSchur_ctor (fun d _ _ => d) ex_schur_pm 0%Z tt 10%Z tt tt
      4 2 3 = Done S0 /\
    sc_gsmat S0 = Some gs /\
    sc_rvec S0 = Some 2 /\ sc_wvec S0 = Some 3 /\
    sc_start S0 = Some s /\ sc_end S0 = Some e /\
    e - s = gs_nvars gs /\
    ext_offset ex_schur_pm = Some s /\
    sc_var_offset S0 = Some (gs_varoffset gs) /\
    s = bsize ex_U3 * gs_varoffset gs /\
    gs_varoffset gs + nrows ex_schur_B = nrows ex_U3.
Proof.
  refine (ApproximateSchur_ctor_interface_range (fun d _ _ => d)
            (mkVarMap 0 2 [0; 3; 4]%Z) ex_U3 ex_schur_B (mkDist [3]) None 4
            (mkMachine (fun _ => []) []) 0%Z tt 10%Z tt tt 4 2 3 _ _ _ _ _);
    try reflexivity; cbn; lia.
Defined.

Lemma ApproximateSchur_printNzPattern_as_PMat_witness :
  exists file,
    ApproximateSchur_printNzPattern ex_schur true = Done file /\
    PMat_printNzPattern
      (set_AB (sc_mat ex_schur) (sc_Apc ex_schur) (Bext (sc_mat ex_schur)))
      true = Some file.
Proof.
  refine (ApproximateSchur_printNzPattern_as_PMat ex_schur (mkDist [3])
            _ _ _); try reflexivity.
  cbn. lia.
Defined.

(** The file of the example: the six blocks of the factor pattern and
    the block of [Bext], in the interface row 0 at the global row 1. *)
Example ex_schur_pattern_file :
  ApproximateSchur_printNzPattern ex_schur true
  = Done (cat_all
      ["VARIABLES = "; dq; "i"; dq; ", "; dq; "j"; dq; " "; nl;
       "ZONE T = "; dq; "Diagonal block 0"; dq; nl;
       "0 0"; nl; "0 1"; nl; "0 2"; nl; "1 1"; nl; "1 2"; nl; "2 2"; nl;
       "ZONE T = "; dq; "Off-diagonal block 0"; dq; nl;
       "1 3"; nl]%string).
Proof. vm_compute. reflexivity. Qed.

Lemma ApproximateSchur_printNzPattern_unchecked_witness :
  exists S0,
    ApproximateSchur_ctor (fun d _ _ => d) ex_pm1 0%Z tt 10%Z tt tt 5 6 7
      = Done S0 /\
    ApproximateSchur_printNzPattern S0 false
      = Fault (NullDereference "fp") /\
    PMat_printNzPattern ex_pm1 false = None /\
    (no_stored_block (Bext ex_pm1) = false ->
     0 < ix (rowp (Bext ex_pm1)) (nrows (Bext ex_pm1)) ->
     ApproximateSchur_printNzPattern S0 true
       = Fault (UninitializedRead "var_offset")) /\
    (no_stored_block (Bext ex_pm1) = true ->
     exists file, ApproximateSchur_printNzPattern S0 true = Done file).
Proof.
  refine (ApproximateSchur_printNzPattern_unchecked (fun d _ _ => d) ex_pm1
            (mkDist [3]) 0%Z tt 10%Z tt tt 5 6 7 _ _); reflexivity.
Defined.

(** ** [PMat::applyBCs]: what it leaves alone *)
Section ApplyBCsFrame.
Context {TacsScalar : Type} `{ScalarOps TacsScalar}.
Local Abbreviation PMat := (@PMat TacsScalar).
Implicit Types
  (K : BCSRMatData TacsScalar -> Z -> list nat -> bool
       -> BCSRMatData TacsScalar).

Lemma applyBCs_step_not_owned K (pm : PMat) bc i :
  ~ bc_owned pm bc i -> applyBCs_step K pm bc i = pm.
Proof.
  intros Hn. unfold applyBCs_step, bc_owned, owner_lo, owner_hi in *.
  destruct (Z.leb_spec (zx (ownerRange (rmap pm)) (mpi_rank (rmap pm)))
              (zx (bc_global bc) i));
    destruct (Z.ltb_spec (zx (bc_global bc) i)
                (zx (ownerRange (rmap pm)) (mpi_rank (rmap pm) + 1)));
    cbn [andb]; try done. lia.
Qed.

Lemma applyBCs_step_interior K (pm : PMat) bc i :
  (bc_owned pm bc i ->
   (zx (bc_global bc) i - owner_lo pm
    < Z.of_nat (N pm) - Z.of_nat (Nc pm))%Z) ->
  let pm' := applyBCs_step K pm bc i in
  Bext pm' = Bext pm /\ rmap pm' = rmap pm /\ N pm' = N pm /\
  Nc pm' = Nc pm.
Proof.
  intros Hint. cbn zeta. unfold applyBCs_step.
  unfold bc_owned, owner_lo, owner_hi in Hint.
  destruct (Z.leb_spec (zx (ownerRange (rmap pm)) (mpi_rank (rmap pm)))
              (zx (bc_global bc) i));
    destruct (Z.ltb_spec (zx (bc_global bc) i)
                (zx (ownerRange (rmap pm)) (mpi_rank (rmap pm) + 1)));
    cbn [andb]; try done.
  specialize (Hint ltac:(lia)).
  destruct (Z.leb_spec 0
              (zx (bc_global bc) i
               - zx (ownerRange (rmap pm)) (mpi_rank (rmap pm))
               - (Z.of_nat (N pm) - Z.of_nat (Nc pm)))); [lia|].
  done.
Qed.

Lemma applyBCs_fold_interior K bc : forall (bl : list nat) (pm : PMat),
  (forall i, In i bl -> bc_owned pm bc i ->
     (zx (bc_global bc) i - owner_lo pm
      < Z.of_nat (N pm) - Z.of_nat (Nc pm))%Z) ->
  Bext (fold_left (fun p i => applyBCs_step K p bc i) bl pm) = Bext pm.
Proof.
  induction bl as [|i bl IH]; intros pm Hint; [done|].
  cbn [fold_left].
  destruct (applyBCs_step_interior K pm bc i (Hint i ltac:(by left)))
    as (EB & Er & EN & ENc).
  rewrite IH; [done|].
  intros j Hj. unfold bc_owned, owner_lo, owner_hi. rewrite Er, EN, ENc.
  apply Hint. by right.
Qed.

Lemma applyBCs_fold_not_owned K bc : forall (bl : list nat) (pm : PMat),
  (forall i, In i bl -> ~ bc_owned pm bc i) ->
  fold_left (fun p i => applyBCs_step K p bc i) bl pm = pm.
Proof.
  induction bl as [|i bl IH]; intros pm Hn; [done|].
  cbn [fold_left]. rewrite applyBCs_step_not_owned by (apply Hn; by left).
  apply IH. intros j Hj. apply Hn. by right.
Qed.

(** X15: [PMat::applyBCs] changes [Bext] only for a boundary condition
    on an interface row of this rank: when every boundary condition that
    the rank owns lies on one of its first [N - Nc] rows, [Bext] is left
    as it was, and when the rank owns none of them the matrix is
    unchanged.  This holds for every [BCSRMat::zeroRow], which is a
    parameter here. *)
Theorem PMat_applyBCs_leaves_Bext K (pm : PMat) bc :
  bcs pm = Some bc ->
  (forall i, i < nbcs bc -> bc_owned pm bc i ->
     (zx (bc_global bc) i - owner_lo pm
      < Z.of_nat (N pm) - Z.of_nat (Nc pm))%Z) ->
  Bext (PMat_applyBCs K pm) = Bext pm /\
  ((forall i, i < nbcs bc -> ~ bc_owned pm bc i) ->
   PMat_applyBCs K pm = pm).
Proof.
  intros Hbc Hint. unfold PMat_applyBCs. rewrite Hbc. split.
  - apply applyBCs_fold_interior.
    intros i Hi. apply Hint. apply in_seq in Hi. lia.
  - intros Hn. apply applyBCs_fold_not_owned.
    intros i Hi. apply Hn. apply in_seq in Hi. lia.
Qed.
End ApplyBCsFrame.

(** A boundary condition on the interior row 0 changes A and leaves B;
    a boundary condition on a row of another rank changes nothing. *)
Example PMat_applyBCs_interior_ex :
  A (Aloc (PMat_applyBCs zeroRow_listed ex_bc_interior_pm))
  = [1; 0; 3; 4;   0; 0; 7; 8;   9; 10; 11; 12]%Z /\
  A (Bext (PMat_applyBCs zeroRow_listed ex_bc_interior_pm)) = [1; 2; 3; 4]%Z.
Proof. split; reflexivity. Qed.

Lemma PMat_applyBCs_leaves_Bext_witness :
  Bext (PMat_applyBCs zeroRow_listed ex_bc_interior_pm)
  = Bext ex_bc_interior_pm /\
  PMat_applyBCs zeroRow_listed ex_bc_foreign_pm = ex_bc_foreign_pm.
Proof.
  split.
  - refine (proj1 (PMat_applyBCs_leaves_Bext zeroRow_listed
                     ex_bc_interior_pm ex_bc_interior eq_refl _)).
    intros i Hi _. cbn in Hi. assert (i = 0) as -> by lia. cbn. lia.
  - refine (proj2 (PMat_applyBCs_leaves_Bext zeroRow_listed
                     ex_bc_foreign_pm ex_bc_foreign eq_refl _) _).
    + intros i Hi Ho. cbn in Hi. assert (i = 0) as -> by lia.
      unfold bc_owned in Ho. cbn in Ho. lia.
    + intros i Hi Ho. cbn in Hi. assert (i = 0) as -> by lia.
      unfold bc_owned in Ho. cbn in Ho. lia.
Defined.

(** ** The stages of [GlobalSchurMat::mult] *)
Section SchurOperatorFacts.
Context {TacsScalar : Type} `{ScalarOps TacsScalar}.
Local Abbreviation machine := (@machine TacsScalar).
Local Abbreviation mem := (@mem TacsScalar).
Implicit Types (m : mem).

Lemma writes_within_other m m' b lo hi b' :
  writes_within m m' b lo hi -> b' ≠ b -> m' b' = m b'.
Proof.
  intros [L F] Hb. apply (nth_ext _ _ s_zero s_zero); [apply L|].
  intros k _. change (ld m' (b', 0) k = ld m (b', 0) k).
  apply F. by left.
Qed.

(** X16: the stages of [GlobalSchurMat::mult] after the halo exchange.
    With [g] the values that the halo delivers into [x_ext], the array of
    [y] goes through [mB], the row sums of [Bext] against [g]; [mL], the
    forward substitution of [Apc] restricted to the interface columns,
    which leaves the first interface row as it is; and [mU], the back
    substitution of the interface rows with the stored diagonal blocks.
    The result is [mU + 1.0*x], element by element; [x] is unchanged,
    [x_ext] holds [g], no other array changes and nothing is printed.
    The halo and [TACSBVec::axpy] enter as they are modelled. *)
Theorem GlobalSchurMat_mult_stages
    (this : GlobalSchurMat (TacsScalar := TacsScalar)) Apc x y view
    inflight (w : machine) :
  let v := gs_varoffset this in
  let B := gs_Bext this in
  let xe := gs_x_ext this in
  let n := nrows Apc - v in
  x ≠ y -> xe ≠ y -> x ≠ xe ->
  v < nrows Apc -> nrows B = n ->
  (forall i, v < i < nrows Apc -> row_sorted_to_diag Apc i) ->
  upper_pattern Apc v (nrows Apc) ->
  2 * n <= length (heap w y) ->
  let g := Halo_gather (gs_ctx this) (gs_ext_dist this) view in
  let w' := GlobalSchurMat_mult this Apc (TACSBVec x) (TACSBVec y) view
              inflight w in
  exists mB mL mU : mem,
    (forall r, r < n ->
       blk mB (y, 0) r = row_sum B (sx g) r (s_zero, s_zero)) /\
    blk mL (y, 0) 0 = blk mB (y, 0) 0 /\
    (forall r, 1 <= r < n ->
       blk mL (y, 0) r
       = interface_elim Apc (ld mL (y, 0)) v (v + r) (blk mB (y, 0) r)) /\
    (forall r, r < n ->
       blk mU (y, 0) r
       = diag_apply Apc (v + r)
           (upper_elim Apc (ld mU (y, 0)) (2 * v) (v + r)
              (blk mL (y, 0) r))) /\
    length (mU y) = length (heap w y) /\
    (forall k, 2 * n <= k -> ld mU (y, 0) k = ld (heap w) (y, 0) k) /\
    heap w' y = zip_with (fun yi xi => yi ⊕ s_one ⊗ xi) (mU y) (heap w x) /\
    heap w' x = heap w x /\ heap w' xe = g /\
    (forall b, b ≠ y -> b ≠ xe -> heap w' b = heap w b) /\
    stderr w' = stderr w.
Proof.
  intros v B xe n Hxy Hey Hxe Hv HnB Hs Hpat Hlen g w'.
  subst w'. unfold GlobalSchurMat_mult.
  cbn [dynamic_cast_TACSBVec]. fold v B xe.
  unfold beginForward, endForward. fold g.
  unfold BCSRMat_mult, BCSRMat_applyPartialLower, BCSRMat_applyPartialUpper.
  set (m2 := setbuf (setbuf (heap w) xe inflight) xe g).
  assert (E2 : forall b, b ≠ xe -> m2 b = heap w b).
  { intros b Hb. unfold m2. by rewrite !setbuf_other. }
  assert (G2 : m2 xe = g) by (unfold m2; by rewrite setbuf_same).
  (* y = Bext * x_ext *)
  set (mB := BCSRMatVecMult2 B (xe, 0) (y, 0) m2).
  destruct (BCSRMatVecMult2_rows_spec B (sx g) (nrows B) 0 m2 (xe, 0) (y, 0))
    as (Ba & Bl & Bv & Bf).
  { done. }
  { intros j. unfold ld. cbn [fst snd]. by rewrite G2. }
  { cbn [fst snd]. rewrite E2 by done. lia. }
  fold (BCSRMatVecMult2 B (xe, 0) (y, 0) m2) in Ba, Bl, Bv, Bf.
  fold mB in Ba, Bl, Bv, Bf. cbn [fst snd] in Ba, Bl, Bf.
  (* the partial forward solve *)
  set (mL := BCSRMatApplyPartialLower2 Apc (y, 0) v mB).
  destruct (BCSRMatApplyPartialLower2_rows_spec Apc v
              (nrows Apc - (v + 1)) 1 mB (y, 0)) as [WL VL].
  { intros r j Hr Hj.
    destruct (interface_start_sorted Apc (v + r) v ltac:(lia)
                (Hs (v + r) ltac:(lia))) as (_ & _ & Hc).
    apply Hc. done. }
  { cbn [fst snd]. rewrite Bl, E2 by done. lia. }
  change (padd (y, 0) (2 * 1)) with (padd (y, 0) 2) in WL, VL.
  fold (BCSRMatApplyPartialLower2 Apc (y, 0) v mB) in WL, VL.
  fold mL in WL, VL. cbn [fst snd] in WL.
  (* the partial back solve *)
  set (mU := BCSRMatApplyPartialUpper2 Apc (y, 0) v mL).
  destruct (BCSRMatApplyPartialUpper2_rows_spec Apc v (nrows Apc - v)
              mL (y, 0)) as [WU VU].
  { by replace (v + (nrows Apc - v)) with (nrows Apc) by lia. }
  { cbn [fst snd]. destruct WL as [LL _]. rewrite LL, Bl, E2 by done.
    fold n. lia. }
  fold (BCSRMatApplyPartialUpper2 Apc (y, 0) v mL) in WU, VU.
  fold mU in WU, VU. cbn [fst snd] in WU. fold n in WU, VU.
  assert (OL : forall b, b ≠ y -> mL b = mB b).
  { intros b Hb. by apply (writes_within_other _ _ _ _ _ _ WL). }
  assert (OU : forall b, b ≠ y -> mU b = mL b).
  { intros b Hb. by apply (writes_within_other _ _ _ _ _ _ WU). }
  assert (OB : forall b, b ≠ y -> mB b = m2 b).
  { intros b Hb. by apply Ba. }
  destruct WL as [LL FL], WU as [LU FU].
  exists mB, mL, mU.
  split; [intros r Hr; rewrite HnB in Bv; exact (Bv r Hr)|].
  split; [unfold blk; by rewrite !FL by (cbn [fst snd]; lia)|].
  split.
  { intros r Hr. rewrite (VL r ltac:(lia)).
    apply interface_elim_start; [lia | apply Hs; lia]. }
  split; [exact VU|].
  split; [by rewrite LU, LL, Bl, E2|].
  split.
  { intros k Hk. rewrite FU, FL by (cbn [fst snd]; lia).
    rewrite !ld_sx. cbn [fst snd]. rewrite Bf by lia.
    by rewrite E2. }
  cbn [heap stderr with_heap]. unfold TACSBVec_axpy.
  assert (Ox : mU x = heap w x).
  { by rewrite (OU x), (OL x), (OB x), (E2 x). }
  split; [by rewrite setbuf_same, Ox|].
  split; [by rewrite setbuf_other|].
  split; [by rewrite setbuf_other, (OU xe), (OL xe), (OB xe)|].
  split; [|done].
  intros b Hb1 Hb2. by rewrite setbuf_other, (OU b), (OL b), (OB b), (E2 b).
Qed.
End SchurOperatorFacts.

Lemma GlobalSchurMat_mult_stages_witness :
  let g := Halo_gather 2 (mkDist [3]) ex_schur_view in
  let w' := GlobalSchurMat_mult ex_schur_gs ex_LU3 (TACSBVec 0) (TACSBVec 1)
              ex_schur_view [] ex_schur_machine in
  exists mB mL mU : mem,
    (forall r, r < 3 - 1 ->
       blk mB (1, 0) r = row_sum ex_schur_B (sx g) r (s_zero, s_zero)) /\
    blk mL (1, 0) 0 = blk mB (1, 0) 0 /\
    (forall r, 1 <= r < 3 - 1 ->
       blk mL (1, 0) r
       = interface_elim ex_LU3 (ld mL (1, 0)) 1 (1 + r) (blk mB (1, 0) r)) /\
    (forall r, r < 3 - 1 ->
       blk mU (1, 0) r
       = diag_apply ex_LU3 (1 + r)
           (upper_elim ex_LU3 (ld mU (1, 0)) (2 * 1) (1 + r)
              (blk mL (1, 0) r))) /\
    length (mU 1) = length (heap ex_schur_machine 1) /\
    (forall k, 2 * (3 - 1) <= k ->
       ld mU (1, 0) k = ld (heap ex_schur_machine) (1, 0) k) /\
    heap w' 1
    = zip_with (fun yi xi => yi ⊕ s_one ⊗ xi) (mU 1)
        (heap ex_schur_machine 0) /\
    heap w' 0 = heap ex_schur_machine 0 /\ heap w' 4 = g /\
    (forall b, b ≠ 1 -> b ≠ 4 -> heap w' b = heap ex_schur_machine b) /\
    stderr w' = stderr ex_schur_machine.
Proof.
  refine (GlobalSchurMat_mult_stages ex_schur_gs ex_LU3 0 1 ex_schur_view []
            ex_schur_machine _ _ _ _ _ _ _ _);
    try reflexivity; try (cbn; lia).
  - intros i Hi. cbn in Hi. assert (i = 2) as -> by lia.
    split; [cbn; lia|]. split; [cbn; lia|]. split; [reflexivity|].
    intros j k Hj Hjk Hk. cbn in Hj, Hk.
    assert (j = 3 /\ k = 4 \/ j = 3 /\ k = 5 \/ j = 4 /\ k = 5) as Hc by lia.
    destruct Hc as [[-> ->]|[[-> ->]|[-> ->]]]; cbn; lia.
  - intros i j Hi Hj. cbn in Hi.
    destruct i as [|[|[|i]]]; [lia | | |lia]; cbn in Hj; small_index j.
Defined.

(** The example: [Bext] picks the external block 3, the interface solves
    of [ex_LU3] act on it and the interface part of [x] is added, as far
    as [x] and the two interface rows go. *)
Example ex_schur_operator_values :
  heap (GlobalSchurMat_mult ex_schur_gs ex_LU3 (TACSBVec 0) (TACSBVec 1)
          ex_schur_view [] ex_schur_machine) 1
  = [7; 9; -3; -9; 5; 6]%Z.
Proof. vm_compute. reflexivity. Qed.

(** ** [GlobalSchurMat::multOffDiag] *)
Section SchurOffDiagFacts.
Context {TacsScalar : Type} `{ScalarOps TacsScalar}.
Local Abbreviation machine := (@machine TacsScalar).

(** X17: [GlobalSchurMat::multOffDiag] leaves in the block rows of [y]
    the row sums of [Bext] against the values [g] that the halo delivers
    into [x_ext]; the rest of [y] and every array but [y] and [x_ext] is
    unchanged.  [GlobalSchurMat::mult] is this product followed by the
    two partial solves of [Apc] and the addition of [x].  The halo enters
    as it is modelled. *)
Theorem GlobalSchurMat_multOffDiag_row_sums
    (this : GlobalSchurMat (TacsScalar := TacsScalar)) Apc x y view
    inflight (w : machine) :
  let B := gs_Bext this in
  let xe := gs_x_ext this in
  xe ≠ y ->
  2 * nrows B <= length (heap w y) ->
  let g := Halo_gather (gs_ctx this) (gs_ext_dist this) view in
  let w' := GlobalSchurMat_multOffDiag this x y view inflight w in
  (forall r, r < nrows B ->
     blk (heap w') (y, 0) r = row_sum B (sx g) r (s_zero, s_zero)) /\
  length (heap w' y) = length (heap w y) /\
  (forall k, 2 * nrows B <= k -> ld (heap w') (y, 0) k = ld (heap w) (y, 0) k) /\
  heap w' xe = g /\
  (forall b, b ≠ y -> b ≠ xe -> heap w' b = heap w b) /\
  stderr w' = stderr w /\
  GlobalSchurMat_mult this Apc (TACSBVec x) (TACSBVec y) view inflight w
  = with_heap w
      (TACSBVec_axpy s_one x y
         (BCSRMatApplyPartialUpper2 Apc (y, 0) (gs_varoffset this)
            (BCSRMatApplyPartialLower2 Apc (y, 0) (gs_varoffset this)
               (heap w')))).
Proof.
  intros B xe Hey Hlen g w'. subst w'.
  unfold GlobalSchurMat_multOffDiag. fold B xe.
  unfold beginForward, endForward, BCSRMat_mult. fold g.
  cbn [heap stderr with_heap].
  set (m2 := setbuf (setbuf (heap w) xe inflight) xe g).
  assert (E2 : forall b, b ≠ xe -> m2 b = heap w b).
  { intros b Hb. unfold m2. by rewrite !setbuf_other. }
  assert (G2 : m2 xe = g) by (unfold m2; by rewrite setbuf_same).
  destruct (BCSRMatVecMult2_rows_spec B (sx g) (nrows B) 0 m2 (xe, 0) (y, 0))
    as (Ba & Bl & Bv & Bf).
  { done. }
  { intros j. unfold ld. cbn [fst snd]. by rewrite G2. }
  { cbn [fst snd]. rewrite E2 by done. lia. }
  fold (BCSRMatVecMult2 B (xe, 0) (y, 0) m2) in Ba, Bl, Bv, Bf.
  cbn [fst snd] in Ba, Bl, Bf.
  split; [exact Bv|].
  split; [by rewrite Bl, E2|].
  split.
  { intros k Hk. rewrite !ld_sx. cbn [fst snd]. rewrite Bf by lia.
    by rewrite E2. }
  split; [by rewrite Ba|].
  split; [intros b Hb1 Hb2; by rewrite Ba, E2|].
  split; [done|]. reflexivity.
Qed.
End SchurOffDiagFacts.

Lemma GlobalSchurMat_multOffDiag_row_sums_witness :
  let g := Halo_gather 2 (mkDist [3]) ex_schur_view in
  let w' := GlobalSchurMat_multOffDiag ex_schur_gs 0 1 ex_schur_view []
              ex_schur_machine in
  (forall r, r < nrows ex_schur_B ->
     blk (heap w') (1, 0) r = row_sum ex_schur_B (sx g) r (s_zero, s_zero)) /\
  length (heap w' 1) = length (heap ex_schur_machine 1) /\
  (forall k, 2 * nrows ex_schur_B <= k ->
     ld (heap w') (1, 0) k = ld (heap ex_schur_machine) (1, 0) k) /\
  heap w' 4 = g /\
  (forall b, b ≠ 1 -> b ≠ 4 -> heap w' b = heap ex_schur_machine b) /\
  stderr w' = stderr ex_schur_machine /\
  GlobalSchurMat_mult ex_schur_gs ex_LU3 (TACSBVec 0) (TACSBVec 1)
    ex_schur_view [] ex_schur_machine
  = with_heap ex_schur_machine
      (TACSBVec_axpy s_one 0 1
         (BCSRMatApplyPartialUpper2 ex_LU3 (1, 0) 1
            (BCSRMatApplyPartialLower2 ex_LU3 (1, 0) 1 (heap w')))).
Proof.
  refine (GlobalSchurMat_multOffDiag_row_sums ex_schur_gs ex_LU3 0 1
            ex_schur_view [] ex_schur_machine _ _).
  - cbn. lia.
  - cbn. lia.
Defined.

(** [PMat::init] with a [Bext] of three rows against the two of [Aloc]:
    it stops with the text of the squareness check. *)
Example ex_init_too_many_rows :
  let r := PMat_init (mkVarMap 0 1 [0; 2]%Z) ex_data
             (mkBCSR 3 1 2 [0; 0; 0; 0] [] [] []) (mkDist [3]) None 2
             ex_machine in
  x_ext (fst r) = None /\ ext_dist (fst r) = None /\
  stderr (snd r)
  = stderr ex_machine
    ++ [("PMat error: Block-diagonal matrix must be square" ++ nl)%string].
Proof. repeat split; reflexivity. Qed.
